(** * simple_autograd: a shallow embedding of [engine.py]

    The engine is a define-by-run reverse-mode differentiator over numpy
    arrays.  This development embeds

    - the part of numpy the engine calls (shapes, broadcasting, reductions,
      stacking, indexing, in-place arithmetic) over exact rationals,
    - [reshape_gradient],
    - the [Tensor] class: objects live in a store and are addressed by
      their identity, closures are represented by the data they capture,
    - graph traversal, [backward], [zero_grad] and [step],

    and then states the properties of the specification against it. *)

From Stdlib Require Import QArith Qcanon.
From stdpp Require Import base numbers list gmap strings.

Local Open Scope nat_scope.

(** ** Outcomes of a call

    A Python call returns a value or raises.  The exceptions the engine can
    meet are enumerated; [NonTermination] stands for a call that never
    returns and [NoSuchObject] for a reference outside the store, which no
    Python program can build. *)

Inductive pyerr :=
  | AssertionError
  | ValueError
  | IndexError
  | AxisError
  | AttributeError
  | TypeError
  | RecursionError
  | NonTermination
  | NoSuchObject.

Inductive result (A : Type) :=
  | Ok (a : A)
  | Err (e : pyerr).
Arguments Ok {A} a.
Arguments Err {A} e.

Global Instance pyerr_eq_dec : EqDecision pyerr.
Proof. solve_decision. Defined.
Global Instance result_eq_dec `{EqDecision A} : EqDecision (result A).
Proof. solve_decision. Defined.

Global Instance result_ret : MRet result := λ A a, Ok a.
Global Instance result_bind : MBind result := λ A B f m,
  match m with
  | Ok a => f a
  | Err e => Err e
  end.
Global Instance result_fmap : FMap result := λ A B f m,
  match m with
  | Ok a => Ok (f a)
  | Err e => Err e
  end.

Definition is_ok {A} (m : result A) : bool :=
  match m with Ok _ => true | Err _ => false end.

(** Run [f] over a list from left to right, threading the state and
    stopping at the first exception: a Python [for] loop. *)
Fixpoint for_each {A S : Type} (f : A → S → result S) (l : list A) (s : S)
  : result S :=
  match l with
  | [] => Ok s
  | x :: l' => s' ← f x s; for_each f l' s'
  end.

(** ** Numbers

    Array elements and Python floats are modelled as exact rationals
    ([Qc], canonical fractions with Leibniz equality).  The integer and
    floating types of numpy are not told apart; rounding, overflow,
    infinities and NaN are outside the model. *)

Definition qz (z : Z) : Qc := Qc_of_Z z.
Definition qfrac (n : Z) (d : positive) : Qc := Q2Qc (n # d).

Definition sum_list (l : list Qc) : Qc := foldr Qcplus (qz 0) l.

(** ** numpy arrays

    A dense array is its shape and its elements in row-major order. *)

Record ndarray := NdArray { shape : list nat; elems : list Qc }.

Global Instance ndarray_eq_dec : EqDecision ndarray.
Proof. solve_decision. Defined.

Definition size_of (s : list nat) : nat := foldr Nat.mul 1 s.
Definition ndim (a : ndarray) : nat := length (shape a).

(** All multi-indices of a shape, in row-major order. *)
Fixpoint indices (s : list nat) : list (list nat) :=
  match s with
  | [] => [[]]
  | n :: s' => i ← seq 0 n; (λ r, i :: r) <$> indices s'
  end.

(** Row-major offset of a multi-index. *)
Fixpoint ravel (s idx : list nat) : nat :=
  match s, idx with
  | _ :: s', i :: idx' => i * size_of s' + ravel s' idx'
  | _, _ => 0
  end.

Definition item (a : ndarray) (idx : list nat) : Qc :=
  default (qz 0) (elems a !! ravel (shape a) idx).

Definition tabulate (s : list nat) (f : list nat → Qc) : ndarray :=
  NdArray s (f <$> indices s).

Definition np_full (s : list nat) (x : Qc) : ndarray :=
  NdArray s (replicate (size_of s) x).
Definition np_zeros (s : list nat) : ndarray := np_full s (qz 0).
Definition np_ones (s : list nat) : ndarray := np_full s (qz 1).

(** An array from a Python scalar. *)
Definition np_scalar (x : Qc) : ndarray := NdArray [] [x].

(** *** Broadcasting *)

(** Shapes are aligned at their last axis; [broadcast_rev] works on the
    reversed shapes. *)
Fixpoint broadcast_rev (s t : list nat) : option (list nat) :=
  match s, t with
  | [], _ => Some t
  | _, [] => Some s
  | m :: s', n :: t' =>
      r ← broadcast_rev s' t';
      if decide (m = n) then Some (m :: r)
      else if decide (m = 1) then Some (n :: r)
      else if decide (n = 1) then Some (m :: r)
      else None
  end.

Definition broadcast_shapes (s t : list nat) : option (list nat) :=
  reverse <$> broadcast_rev (reverse s) (reverse t).

(** [t] broadcasts to [g]: combining them gives [g]. *)
Definition broadcasts_to (t g : list nat) : bool :=
  bool_decide (broadcast_shapes t g = Some g).

(** The index an operand of shape [s] is read at, for the index [j] of the
    broadcast result. *)
Definition bcast_index (s j : list nat) : list nat :=
  zip_with (λ n i, if decide (n = 1) then 0 else i) s
           (drop (length j - length s) j).

(** A binary ufunc ([np.add], [np.multiply], ...) returning a new array. *)
Definition np_binary (f : Qc → Qc → Qc) (a b : ndarray) : result ndarray :=
  match broadcast_shapes (shape a) (shape b) with
  | Some s =>
      Ok (tabulate s (λ j, f (item a (bcast_index (shape a) j))
                             (item b (bcast_index (shape b) j))))
  | None => Err ValueError
  end.

(** The same ufunc with [out=a] ([a += b], [a -= b]): the broadcast shape
    has to be the shape of [a]. *)
Definition np_inplace (f : Qc → Qc → Qc) (a b : ndarray) : result ndarray :=
  match broadcast_shapes (shape a) (shape b) with
  | Some s =>
      if decide (s = shape a)
      then Ok (tabulate s (λ j, f (item a j) (item b (bcast_index (shape b) j))))
      else Err ValueError
  | None => Err ValueError
  end.

Definition np_add : ndarray → ndarray → result ndarray := np_binary Qcplus.
Definition np_multiply : ndarray → ndarray → result ndarray := np_binary Qcmult.

Definition np_map (f : Qc → Qc) (a : ndarray) : ndarray :=
  NdArray (shape a) (f <$> elems a).

(** *** Reductions *)

(** Walk a shape (or an index) and, at the axes listed in [axes], either
    put [one] ([keepdims]) or drop the entry. *)
Fixpoint squash {A} (axes : list nat) (keepdims : bool) (one : A)
    (i : nat) (l : list A) : list A :=
  match l with
  | [] => []
  | x :: l' =>
      (if bool_decide (i ∈ axes)
       then (if keepdims then [one] else [])
       else [x]) ++ squash axes keepdims one (S i) l'
  end.

Definition reduced_shape (axes : list nat) (keepdims : bool) (s : list nat)
  : list nat := squash axes keepdims 1 0 s.

Definition project (axes : list nat) (keepdims : bool) (idx : list nat)
  : list nat := squash axes keepdims 0 0 idx.

(** [np.sum(a, axis=tuple(axes), keepdims=keepdims)] for axes already
    checked to be in range. *)
Definition sum_over (axes : list nat) (keepdims : bool) (a : ndarray)
  : ndarray :=
  tabulate (reduced_shape axes keepdims (shape a))
    (λ j, sum_list (item a <$>
            filter (λ i, project axes keepdims i = j) (indices (shape a)))).

(** The [axis] argument of a reduction. *)
Inductive axis_arg :=
  | AxNone
  | AxInt (z : Z)
  | AxTuple (zs : list Z).

Definition normalize_axis (n : nat) (z : Z) : result nat :=
  if decide (0 ≤ z < Z.of_nat n)%Z then Ok (Z.to_nat z)
  else if decide (- Z.of_nat n ≤ z < 0)%Z then Ok (Z.to_nat (z + Z.of_nat n))
  else Err AxisError.

Fixpoint normalize_axes (n : nat) (zs : list Z) : result (list nat) :=
  match zs with
  | [] => Ok []
  | z :: zs' =>
      k ← normalize_axis n z;
      ks ← normalize_axes n zs';
      if bool_decide (k ∈ ks) then Err ValueError else Ok (k :: ks)
  end.

Definition np_sum (a : ndarray) (axis : axis_arg) (keepdims : bool)
  : result ndarray :=
  match axis with
  | AxNone => Ok (sum_over (seq 0 (ndim a)) keepdims a)
  | AxInt z =>
      (* a 0-d operand accepts axis 0 and -1 and reduces over nothing *)
      if bool_decide (ndim a = 0 ∧ (z = 0 ∨ z = -1)%Z) then Ok (sum_over [] keepdims a)
      else k ← normalize_axis (ndim a) z; Ok (sum_over [k] keepdims a)
  | AxTuple zs =>
      ks ← normalize_axes (ndim a) zs; Ok (sum_over ks keepdims a)
  end.

(** *** Stacking, indexing, transposition, matrix product *)

(** [np.stack((a, b), axis=axis)]: the axis is counted in the result. *)
Definition np_stack (a b : ndarray) (axis : Z) : result ndarray :=
  if decide (shape a = shape b) then
    k ← normalize_axis (S (ndim a)) axis;
    Ok (tabulate (take k (shape a) ++ [2] ++ drop k (shape a))
          (λ j, let rest := take k j ++ drop (S k) j in
                if decide (j !!! k = 0) then item a rest else item b rest))
  else Err ValueError.

(** [a[k]] for an integer [k ≥ 0]: the [k]-th slice along axis 0. *)
Definition np_getitem (a : ndarray) (k : nat) : result ndarray :=
  match shape a with
  | [] => Err IndexError
  | n :: s' =>
      if decide (k < n)
      then Ok (NdArray s' (take (size_of s') (drop (k * size_of s') (elems a))))
      else Err IndexError
  end.

(** The slice at index [k] along an arbitrary axis (what [np.take(a, k,
    axis)] returns); the engine never calls it, the specification of
    [stack] refers to it. *)
Definition np_take (a : ndarray) (k axis : nat) : ndarray :=
  tabulate (take axis (shape a) ++ drop (S axis) (shape a))
    (λ j, item a (take axis j ++ [k] ++ drop axis j)).

(** [a.T] reverses the axes. *)
Definition np_T (a : ndarray) : ndarray :=
  tabulate (reverse (shape a)) (λ j, item a (reverse j)).

(** [np.matmul(a, b)]: 1-d operands are promoted to matrices and the
    added axis is removed afterwards; leading axes are broadcast. *)
Definition np_matmul (a b : ndarray) : result ndarray :=
  match reverse (shape a), reverse (shape b) with
  | [], _ | _, [] => Err ValueError
  | ka :: ra, cb :: rb =>
      (* core dimensions (n, ka) and (kb, m) *)
      let '(n, batch_a, vec_a) :=
        match ra with [] => (1, [], true) | n :: r => (n, reverse r, false) end in
      let '(kb, m, batch_b, vec_b) :=
        match rb with
        | [] => (cb, 1, [], true)
        | kb :: r => (kb, cb, reverse r, false)
        end in
      if decide (ka = kb) then
        match broadcast_shapes batch_a batch_b with
        | Some batch =>
            let nb := length batch in
            let a_at (jb : list nat) (i t : nat) :=
              item a (bcast_index batch_a jb ++ (if vec_a then [t] else [i; t])) in
            let b_at (jb : list nat) (t l : nat) :=
              item b (bcast_index batch_b jb ++ (if vec_b then [t] else [t; l])) in
            Ok (tabulate
                  (batch ++ (if vec_a then [] else [n]) ++ (if vec_b then [] else [m]))
                  (λ j, let jb := take nb j in
                        let core := drop nb j in
                        let i := if vec_a then 0 else core !!! 0 in
                        let l := if vec_b then 0
                                 else core !!! (if vec_a then 0 else 1) in
                        sum_list ((λ t, (a_at jb i t * b_at jb t l)%Qc) <$> seq 0 ka)))
        | None => Err ValueError
        end
      else Err ValueError
  end.

(** ** Python values held in a [grad] attribute

    [grad] is bound to an array by the constructor and by [backward], and to
    the Python integer [0] by [zero_grad].  Adding to a Python number rebinds
    the attribute to the sum, which numpy returns as a scalar ([np.float64])
    when it has no axes: unlike a 0-d array, a numpy scalar is immutable. *)

Inductive pyval :=
  | PyInt (z : Z)
  | NpScalar (x : Qc)
  | NdArr (a : ndarray).

Global Instance pyval_eq_dec : EqDecision pyval.
Proof. solve_decision. Defined.

(** [np.array(v)]. *)
Definition as_array (v : pyval) : ndarray :=
  match v with
  | PyInt z => np_scalar (qz z)
  | NpScalar x => np_scalar x
  | NdArr a => a
  end.

(** [v.shape]: a Python integer has no such attribute. *)
Definition shape_attr (v : pyval) : result (list nat) :=
  match v with
  | PyInt _ => Err AttributeError
  | NpScalar _ => Ok []
  | NdArr a => Ok (shape a)
  end.

(** The value a ufunc returns for the result [r]: a scalar when [r] has no
    axes. *)
Definition ufunc_value (r : ndarray) : pyval :=
  if decide (shape r = []) then NpScalar (item r []) else NdArr r.

(** [target f= v] for [+=] and [-=]: in place when [target] is an array,
    a rebinding to [target f v] when it is a Python integer or a numpy
    scalar. *)
Definition augmented (f : Qc → Qc → Qc) (fz : Z → Z → Z) (target v : pyval)
  : result pyval :=
  match target, v with
  | NdArr a, _ => NdArr <$> np_inplace f a (as_array v)
  | PyInt z, PyInt w => Ok (PyInt (fz z w))
  | _, _ => ufunc_value <$> np_binary f (as_array target) (as_array v)
  end.

Definition iadd : pyval → pyval → result pyval := augmented Qcplus Z.add.
Definition isub : pyval → pyval → result pyval := augmented Qcminus Z.sub.

(** [a * v] with an array on the left. *)
Definition mul_array_val (a : ndarray) (v : pyval) : result ndarray :=
  np_multiply a (as_array v).

(** ** [reshape_gradient] *)

(** The [while] loop that pads the target shape with leading ones.  It
    returns [None] when the fuel runs out. *)
Fixpoint pad_target_shape (fuel glen : nat) (target_shape : list nat)
    (keepdims : bool) : option (list nat * bool) :=
  if decide (length target_shape = glen) then Some (target_shape, keepdims)
  else
    match fuel with
    | 0 => None
    | S fuel' => pad_target_shape fuel' glen (1 :: target_shape) false
    end.

(** The axes collected by the [for] loop over
    [enumerate(zip(gradient.shape, target_shape))]. *)
Fixpoint broadcast_axes (i : nat) (gshape tshape : list nat) : list nat :=
  match gshape, tshape with
  | grad_axis :: gshape', tar_axis :: tshape' =>
      (if bool_decide (tar_axis = 1 ∧ grad_axis ≠ 1) then [i] else [])
      ++ broadcast_axes (S i) gshape' tshape'
  | _, _ => []
  end.

Definition reshape_gradient (gradient : pyval) (target_shape : list nat)
  : result ndarray :=
  gshape ← shape_attr gradient;
  let g := as_array gradient in
  if decide (gshape = target_shape) then Ok g
  else if decide (target_shape = []) then np_sum g AxNone false
  else
    match pad_target_shape (length gshape) (length gshape) target_shape true with
    | None => Err NonTermination
    | Some (padded, keepdims) =>
        np_sum g (AxTuple (Z.of_nat <$> broadcast_axes 0 gshape padded)) keepdims
    end.


(** ** Tensors

    A [Tensor] object is identified by its position in the store: Python
    compares and hashes tensors by identity. *)

Abbreviation tensor_id := nat (only parsing).

(** A Python [int] or [float] argument. *)
Inductive pynum :=
  | NumInt (z : Z)
  | NumFloat (x : Qc).

Definition num_value (e : pynum) : Qc :=
  match e with
  | NumInt z => qz z
  | NumFloat x => x
  end.

(** The [_op] string; [TagPow e] stands for the formatted string ["**{e}"]. *)
Inductive op_tag :=
  | Tag (s : string)
  | TagPow (e : pynum).

(** The [_backward] closures, each represented by the objects it captures.
    [BackLocal sub self out local] is the closure of the one-operand
    operations: [self.grad += local(self.data) * out.grad], with [-=] when
    [sub] is set. *)
Inductive closure :=
  | back_none
  | BackAdd (self other out : tensor_id)
  | BackMul (self other out : tensor_id)
  | BackMatmul (self other out : tensor_id)
  | BackLocal (sub : bool) (self out : tensor_id) (local : ndarray → ndarray)
  | BackSum (self out : tensor_id)
  | BackStack (self other out : tensor_id)
  | BackT (self out : tensor_id)
  | BackCrossEntropy (self : tensor_id) (sigma one_hot_target : ndarray) (N : nat).

Record Tensor := MkTensor {
  data : ndarray;
  label : string;
  grad : pyval;
  req_grad : bool;
  is_weight : bool;
  grad_divisor : option pyval;
  _backward : closure;
  _prev : gset tensor_id;
  _op : op_tag
}.

Definition set_grad (g : pyval) (n : Tensor) : Tensor :=
  MkTensor (data n) (label n) g (req_grad n) (is_weight n) (grad_divisor n)
           (_backward n) (_prev n) (_op n).
Definition set_data (d : ndarray) (n : Tensor) : Tensor :=
  MkTensor d (label n) (grad n) (req_grad n) (is_weight n) (grad_divisor n)
           (_backward n) (_prev n) (_op n).
Definition set_backward (c : closure) (n : Tensor) : Tensor :=
  MkTensor (data n) (label n) (grad n) (req_grad n) (is_weight n) (grad_divisor n)
           c (_prev n) (_op n).

Abbreviation store := (list Tensor) (only parsing).

Definition get (σ : store) (t : tensor_id) : result Tensor :=
  match σ !! t with
  | Some n => Ok n
  | None => Err NoSuchObject
  end.

(** [Tensor.__init__]: the new object gets the next free identity.  The
    parents are given as the tuple [_parent]; [set(_parent)] removes
    duplicates. *)
Definition Tensor_init (data : ndarray) (_parent : list tensor_id) (_op : op_tag)
    (label : string) (req_grad is_weight : bool) (σ : store)
  : tensor_id * store :=
  (length σ,
   σ ++ [MkTensor data label (NdArr (np_zeros (shape data))) req_grad is_weight
                  None back_none (list_to_set _parent) _op]).

(** A constant: [Tensor(other)]. *)
Definition Tensor_const (data : ndarray) (σ : store) : tensor_id * store :=
  Tensor_init data [] (Tag "") "" false false σ.

(** An operand of a binary operation: a tensor, or anything [np.array]
    accepts (numbers, nested lists, arrays), given as the array it makes. *)
Inductive operand :=
  | OTensor (t : tensor_id)
  | ORaw (a : ndarray).

(** [other if isinstance(other, Tensor) else Tensor(other)] *)
Definition promote (other : operand) (σ : store) : tensor_id * store :=
  match other with
  | OTensor t => (t, σ)
  | ORaw a => Tensor_const a σ
  end.

(** [out._backward = _backward] *)
Definition bind_backward (out : tensor_id) (c : closure) (σ : store) : store :=
  alter (set_backward c) out σ.

(** [t.grad += v] and [t.grad -= v] *)
Definition grad_iadd (t : tensor_id) (v : pyval) (σ : store) : result store :=
  n ← get σ t; g ← iadd (grad n) v; Ok (<[t := set_grad g n]> σ).
Definition grad_isub (t : tensor_id) (v : pyval) (σ : store) : result store :=
  n ← get σ t; g ← isub (grad n) v; Ok (<[t := set_grad g n]> σ).

(** ** Basic operations *)

Definition Tensor_add (self : tensor_id) (other : operand) (σ : store)
  : result (tensor_id * store) :=
  let '(other, σ) := promote other σ in
  s ← get σ self; o ← get σ other;
  d ← np_add (data s) (data o);
  let '(out, σ) := Tensor_init d [self; other] (Tag "+") "" false false σ in
  Ok (out, bind_backward out (BackAdd self other out) σ).

Definition Tensor_mul (self : tensor_id) (other : operand) (σ : store)
  : result (tensor_id * store) :=
  let '(other, σ) := promote other σ in
  s ← get σ self; o ← get σ other;
  d ← np_multiply (data s) (data o);
  let '(out, σ) := Tensor_init d [self; other] (Tag "*") "" false false σ in
  Ok (out, bind_backward out (BackMul self other out) σ).

(** [matmul]: the three branches on the type of [other] come to the same
    promotion; the output tensor is built without [_parent]. *)
Definition Tensor_matmul (self : tensor_id) (other : operand) (σ : store)
  : result (tensor_id * store) :=
  let '(other, σ) := promote other σ in
  s ← get σ self; o ← get σ other;
  d ← np_matmul (data s) (data o);
  let '(out, σ) := Tensor_init d [] (Tag "") "" false false σ in
  Ok (out, bind_backward out (BackMatmul self other out) σ).

(** The one-operand operations share their shape: a forward kernel, a tag,
    and the local factor of the backward rule. *)
Definition Tensor_unary (forward : ndarray → result ndarray) (tag : op_tag)
    (sub : bool) (local : ndarray → ndarray)
    (self : tensor_id) (σ : store) : result (tensor_id * store) :=
  s ← get σ self;
  d ← forward (data s);
  let '(out, σ) := Tensor_init d [self] tag "" false false σ in
  Ok (out, bind_backward out (BackLocal sub self out local) σ).

Definition Tensor_sum (self : tensor_id) (axis : axis_arg) (σ : store)
  : result (tensor_id * store) :=
  s ← get σ self;
  d ← np_sum (data s) axis false;
  let '(out, σ) := Tensor_init d [self] (Tag "sum") "" false false σ in
  Ok (out, bind_backward out (BackSum self out) σ).

Definition Tensor_stack (self : tensor_id) (other : operand) (axis : Z)
    (σ : store) : result (tensor_id * store) :=
  let '(other, σ) := promote other σ in
  s ← get σ self; o ← get σ other;
  d ← np_stack (data s) (data o) axis;
  let '(out, σ) := Tensor_init d [self; other] (Tag "stack") "" false false σ in
  Ok (out, bind_backward out (BackStack self other out) σ).

Definition Tensor_T (self : tensor_id) (σ : store) : result (tensor_id * store) :=
  s ← get σ self;
  let '(out, σ) := Tensor_init (np_T (data s)) [self] (Tag "T") "" false false σ in
  Ok (out, bind_backward out (BackT self out) σ).

(** [relu]: [np.maximum(0, data)] forward, [(data > 0) * out.grad] backward. *)
Definition Tensor_relu : tensor_id → store → result (tensor_id * store) :=
  Tensor_unary (λ d, Ok (np_map (λ x, if decide (qz 0 < x)%Qc then x else qz 0) d))
    (Tag "relu") false
    (np_map (λ x, if decide (qz 0 < x)%Qc then qz 1 else qz 0)).

(** [regularization_loss]: [reg * sum(data ** 2)] forward,
    [2 * reg * data * out.grad] backward. *)
Definition Tensor_regularization_loss (reg : Qc)
  : tensor_id → store → result (tensor_id * store) :=
  Tensor_unary
    (λ d, np_map (Qcmult reg) <$> np_sum (np_map (λ x, x * x)%Qc d) AxNone false)
    (Tag "reg_loss") false
    (np_map (λ x, (qz 2 * reg) * x)%Qc).

Definition Tensor_neg (self : tensor_id) (σ : store) : result (tensor_id * store) :=
  Tensor_mul self (ORaw (np_scalar (qz (-1)))) σ.

(** [self + (-other)]: the negation of a tensor operand is a graph node,
    that of a raw operand is computed by numpy. *)
Definition Tensor_sub (self : tensor_id) (other : operand) (σ : store)
  : result (tensor_id * store) :=
  match other with
  | OTensor t => '(m, σ) ← Tensor_neg t σ; Tensor_add self (OTensor m) σ
  | ORaw a => Tensor_add self (ORaw (np_map Qcopp a)) σ
  end.

Definition Tensor_radd (self : tensor_id) (other : operand) (σ : store)
  : result (tensor_id * store) := Tensor_add self other σ.

(** ** Arguments of any Python type *)

Inductive pyobj :=
  | ObjNum (c : pynum)
  | ObjTensor (t : tensor_id)
  | ObjIntArray (s : list nat) (xs : list Z)
  | ObjFloatArray (a : ndarray)
  | ObjList (xs : list pynum)
  | ObjNone.

(** The left operand of [**] when the right one is a tensor. *)
Inductive pow_base :=
  | BaseNum (c : pynum)
  | BaseTensor (t : tensor_id).

(** [isinstance(o, (int, float))], returning the number. *)
Definition isinstance_int_float (o : pyobj) : option pynum :=
  match o with
  | ObjNum c => Some c
  | _ => None
  end.

(** [isinstance(o, np.ndarray) and len(o.shape) == 1] *)
Definition is_1d_ndarray (o : pyobj) : bool :=
  match o with
  | ObjIntArray s _ => bool_decide (length s = 1)
  | ObjFloatArray a => bool_decide (ndim a = 1)
  | _ => false
  end.

Definition py_assert (b : bool) : result unit :=
  if b then Ok () else Err AssertionError.

(** [np.max(a, axis=1, keepdims=True)]: the axis has to exist and to be
    non-empty, the maximum having no identity. *)
Definition max_list (l : list Qc) : Qc :=
  match l with
  | [] => qz 0
  | x :: l' => foldr (λ y m, if decide (m < y)%Qc then y else m) x l'
  end.

Definition np_max_axis1 (a : ndarray) : result ndarray :=
  match shape a with
  | _ :: c :: _ =>
      if decide (c = 0) then Err ValueError
      else Ok (tabulate (reduced_shape [1] true (shape a))
                 (λ j, max_list (item a <$>
                    filter (λ i, project [1] true i = j) (indices (shape a)))))
  | _ => Err AxisError
  end.

(** An index into an axis of length [n]; negative indices count from the
    end. *)
Definition normalize_index (n : nat) (z : Z) : result nat :=
  if decide (0 ≤ z < Z.of_nat n)%Z then Ok (Z.to_nat z)
  else if decide (- Z.of_nat n ≤ z < 0)%Z then Ok (Z.to_nat (z + Z.of_nat n))
  else Err IndexError.

Fixpoint normalize_indices (n : nat) (zs : list Z) : result (list nat) :=
  match zs with
  | [] => Ok []
  | z :: zs' => k ← normalize_index n z; ks ← normalize_indices n zs'; Ok (k :: ks)
  end.

(** [one_hot = np.zeros_like(sigma); one_hot[np.arange(len(target)), target] = 1]:
    the index arrays have to be of integer type and in range. *)
Definition one_hot (s : list nat) (target : pyobj) : result ndarray :=
  match target with
  | ObjIntArray _ xs =>
      match s with
      | n :: c :: _ =>
          cols ← normalize_indices c xs;
          if decide (length xs ≤ n)
          then Ok (tabulate s (λ j,
                 if bool_decide (cols !! (j !!! 0) = Some (j !!! 1))
                 then qz 1 else qz 0))
          else Err IndexError
      | _ => Err IndexError
      end
  | _ => Err IndexError
  end.

(** ** Operations over the transcendental kernels

    [np.sin], [np.cos], [np.exp], [np.log] and [np.power] with an arbitrary
    exponent have no rational model; the operations built on them take the
    elementwise kernels as parameters. *)

Section Kernels.

Variables np_sin np_cos np_exp np_log : Qc → Qc.
Variable np_power : Qc → pynum → Qc.

Definition num_pred (e : pynum) : pynum :=
  match e with
  | NumInt z => NumInt (z - 1)
  | NumFloat x => NumFloat (x - qz 1)%Qc
  end.

(** [__pow__]: the assertion comes first, then
    [np.power(data, other)]; backward
    [other * data ** (other - 1) * out.grad]. *)
Definition Tensor_pow (self : tensor_id) (other : pyobj) (σ : store)
  : result (tensor_id * store) :=
  match isinstance_int_float other with
  | None => Err AssertionError
  | Some e =>
      Tensor_unary (λ d, Ok (np_map (λ x, np_power x e) d)) (TagPow e) false
        (np_map (λ x, num_value e * np_power x (num_pred e))%Qc) self σ
  end.

Definition Tensor_sin : tensor_id → store → result (tensor_id * store) :=
  Tensor_unary (λ d, Ok (np_map np_sin d)) (Tag "sin") false (np_map np_cos).
Definition Tensor_cos : tensor_id → store → result (tensor_id * store) :=
  Tensor_unary (λ d, Ok (np_map np_cos d)) (Tag "cos") true (np_map np_sin).
Definition Tensor_exp : tensor_id → store → result (tensor_id * store) :=
  Tensor_unary (λ d, Ok (np_map np_exp d)) (Tag "exp") false (np_map np_exp).
Definition Tensor_log : tensor_id → store → result (tensor_id * store) :=
  Tensor_unary (λ d, Ok (np_map np_log d)) (Tag "log") false
    (np_map (λ x, qz 1 / x)%Qc).

Definition Tensor_sigmoid : tensor_id → store → result (tensor_id * store) :=
  Tensor_unary
    (λ d, Ok (np_map (λ x, qz 1 / (qz 1 + np_exp (- x)))%Qc d))
    (Tag "sigmoid") false
    (np_map (λ x, np_exp (- x) / ((np_exp (- x) + qz 1) * (np_exp (- x) + qz 1)))%Qc).

Definition Tensor_tanh : tensor_id → store → result (tensor_id * store) :=
  Tensor_unary
    (λ d, Ok (np_map (λ x, (np_exp x - np_exp (- x)) / (np_exp x + np_exp (- x)))%Qc d))
    (Tag "tanh") false
    (np_map (λ x, (qz 4 * np_exp (qz 2 * x))
                  / ((np_exp (qz 2 * x) + qz 1) * (np_exp (qz 2 * x) + qz 1)))%Qc).



(** The expression [x ** y] for a tensor [y] and [x] a number or a
    tensor.  Python calls [type(x).__pow__(x, y)]; for an [int] or [float]
    [x] that returns [NotImplemented] and Python calls
    [Tensor.__rpow__(y, x)], whose body is the expression [x ** y] again.
    Each call of [__rpow__] takes a frame; [depth] frames are left before
    the interpreter raises [RecursionError]. *)
Fixpoint pow_expr (depth : nat) (x : pow_base) (y : tensor_id) (σ : store)
  : result (tensor_id * store) :=
  match x with
  | BaseTensor a => Tensor_pow a (ObjTensor y) σ
  | BaseNum _ =>
      (* Tensor.__rpow__(y, x): return other ** self *)
      match depth with
      | 0 => Err RecursionError
      | S depth' => pow_expr depth' x y σ
      end
  end.

(** [__rpow__]: [return other ** self] *)
Definition Tensor_rpow (depth : nat) (self : tensor_id) (other : pow_base)
    (σ : store) : result (tensor_id * store) :=
  match depth with
  | 0 => Err RecursionError
  | S depth' => pow_expr depth' other self σ
  end.

(** [cross_entropy_loss] *)
Definition cross_entropy_loss (self : tensor_id) (target : pyobj) (σ : store)
  : result (tensor_id * store) :=
  _ ← py_assert (is_1d_ndarray target);
  s ← get σ self;
  row_max ← np_max_axis1 (data s);
  stable_data ← np_binary Qcminus (data s) row_max;
  let exp_data := np_map np_exp stable_data in
  exp_sum ← np_sum exp_data (AxInt 1) true;
  sigma ← np_binary Qcdiv exp_data exp_sum;
  let N := hd 0 (shape sigma) in
  one_hot_target ← one_hot (shape sigma) target;
  prod ← np_multiply one_hot_target (np_map np_log sigma);
  total ← np_sum prod AxNone false;
  let loss_value := np_map Qcopp total in
  let '(out, σ) := Tensor_init loss_value [self] (Tag "c-e_loss") "" false false σ in
  Ok (out, bind_backward out (BackCrossEntropy self sigma one_hot_target N) σ).

End Kernels.

(** ** Running a backward closure *)

(** [v[k]] and [v.T] on the value of a [grad] attribute. *)
Definition val_getitem (v : pyval) (k : nat) : result ndarray :=
  match v with
  | PyInt _ => Err TypeError
  | NpScalar _ => Err IndexError
  | NdArr a => np_getitem a k
  end.

Definition val_T (v : pyval) : result ndarray :=
  match v with
  | PyInt _ => Err AttributeError
  | NpScalar x => Ok (np_scalar x)
  | NdArr a => Ok (np_T a)
  end.

(** [np.matmul] with the value of a [grad] attribute as an operand. *)
Definition matmul_val_l (v : pyval) (b : ndarray) : result ndarray :=
  np_matmul (as_array v) b.
Definition matmul_val_r (a : ndarray) (v : pyval) : result ndarray :=
  np_matmul a (as_array v).

Definition call_backward (c : closure) (σ : store) : result store :=
  match c with
  | back_none => Ok σ
  | BackAdd self other out =>
      o ← get σ out; s ← get σ self;
      r ← reshape_gradient (grad o) (shape (data s));
      σ ← grad_iadd self (NdArr r) σ;
      o ← get σ out; t ← get σ other;
      r ← reshape_gradient (grad o) (shape (data t));
      grad_iadd other (NdArr r) σ
  | BackMul self other out =>
      o ← get σ out; s ← get σ self; t ← get σ other;
      p ← mul_array_val (data t) (grad o);
      r ← reshape_gradient (NdArr p) (shape (data s));
      σ ← grad_iadd self (NdArr r) σ;
      o ← get σ out; s ← get σ self; t ← get σ other;
      p ← mul_array_val (data s) (grad o);
      r ← reshape_gradient (NdArr p) (shape (data t));
      grad_iadd other (NdArr r) σ
  | BackMatmul self other out =>
      o ← get σ out; t ← get σ other;
      r ← matmul_val_l (grad o) (np_T (data t));
      σ ← grad_iadd self (NdArr r) σ;
      o ← get σ out; s ← get σ self;
      r ← matmul_val_r (np_T (data s)) (grad o);
      grad_iadd other (NdArr r) σ
  | BackLocal sub self out local =>
      o ← get σ out; s ← get σ self;
      p ← mul_array_val (local (data s)) (grad o);
      if sub then grad_isub self (NdArr p) σ else grad_iadd self (NdArr p) σ
  | BackSum self out =>
      o ← get σ out;
      grad_iadd self (grad o) σ
  | BackStack self other out =>
      o ← get σ out;
      r ← val_getitem (grad o) 0;
      σ ← grad_iadd self (NdArr r) σ;
      o ← get σ out;
      r ← val_getitem (grad o) 1;
      grad_iadd other (NdArr r) σ
  | BackT self out =>
      o ← get σ out;
      r ← val_T (grad o);
      grad_iadd self (NdArr r) σ
  | BackCrossEntropy self sigma one_hot_target N =>
      d ← np_binary Qcminus sigma one_hot_target;
      grad_iadd self (NdArr (np_map (λ x, x / qz (Z.of_nat N))%Qc d)) σ
  end.

(** ** Graph traversal *)

(** [build_topo]: [st] is the pair of the closure variables [topo] and
    [visited].  The children are the elements of the set [_prev], in the
    order the set yields them.  [depth] is the number of frames left. *)
Fixpoint build_topo (depth : nat) (σ : store) (node : tensor_id)
    (st : list tensor_id * gset tensor_id)
  : result (list tensor_id * gset tensor_id) :=
  match depth with
  | 0 => Err RecursionError
  | S depth' =>
      if decide (node ∈ st.2) then Ok st
      else
        n ← get σ node;
        st' ← for_each (build_topo depth' σ) (elements (_prev n))
                        (st.1, {[node]} ∪ st.2);
        Ok (st'.1 ++ [node], st'.2)
  end.

Definition _traverse_children (depth : nat) (σ : store) (self : tensor_id)
  : result (list tensor_id) :=
  fst <$> build_topo depth σ self ([], ∅).

(** ** Backward pass and optimisation *)

Definition run_backward (node : tensor_id) (σ : store) : result store :=
  n ← get σ node; call_backward (_backward n) σ.

Definition backward (depth : nat) (self : tensor_id) (σ : store) : result store :=
  topo ← _traverse_children depth σ self;
  s ← get σ self;
  let σ := <[self := set_grad (NdArr (np_ones (shape (data s)))) s]> σ in
  for_each run_backward (reverse topo) σ.

(** [node.grad = 0] *)
Definition clear_grad (node : tensor_id) (σ : store) : result store :=
  n ← get σ node; Ok (<[node := set_grad (PyInt 0) n]> σ).

Definition zero_grad (depth : nat) (self : tensor_id) (σ : store) : result store :=
  children ← _traverse_children depth σ self;
  let topo := [self] ++ children in
  for_each clear_grad (reverse topo) σ.

(** [node.grad * learning_rate] *)
Definition scaled_grad (g : pyval) (learning_rate : Qc) : ndarray :=
  np_map (λ x, x * learning_rate)%Qc (as_array g).

(** [if node.req_grad: node.data -= node.grad * learning_rate] *)
Definition update (learning_rate : Qc) (node : tensor_id) (σ : store)
  : result store :=
  n ← get σ node;
  if req_grad n then
    d ← np_inplace Qcminus (data n) (scaled_grad (grad n) learning_rate);
    Ok (<[node := set_data d n]> σ)
  else Ok σ.

Definition step (depth : nat) (self : tensor_id) (learning_rate : Qc)
    (σ : store) : result store :=
  children ← _traverse_children depth σ self;
  let topo := [self] ++ children in
  for_each (update learning_rate) (reverse topo) σ.

(** ** Reading the store *)

Definition grad_of (σ : store) (t : tensor_id) : option pyval := grad <$> σ !! t.
Definition data_of (σ : store) (t : tensor_id) : option ndarray := data <$> σ !! t.
Definition parents_of (σ : store) (t : tensor_id) : option (gset tensor_id) :=
  _prev <$> σ !! t.

Definition scalar_array (z : Z) : ndarray := np_scalar (qz z).
Definition int_array (s : list nat) (zs : list Z) : ndarray := NdArray s (qz <$> zs).

(** ** Programs used as concrete inputs *)

(** A trainable leaf, as [Tensor(data, req_grad=True)]. *)
Definition Tensor_leaf (d : ndarray) (σ : store) : tensor_id * store :=
  Tensor_init d [] (Tag "") "" true false σ.

(** [x = Tensor(3.0, req_grad=True); y = x + x; y.backward()], read [x.grad]. *)
Definition diamond_add (depth : nat) : result (option pyval) :=
  let '(x, σ) := Tensor_leaf (scalar_array 3) [] in
  '(y, σ) ← Tensor_add x (OTensor x) σ;
  σ ← backward depth y σ;
  Ok (grad_of σ x).

(** [x = Tensor(2.0, req_grad=True); y = x * x; y.backward()], read [x.grad]. *)
Definition diamond_mul (depth : nat) : result (option pyval) :=
  let '(x, σ) := Tensor_leaf (scalar_array 2) [] in
  '(y, σ) ← Tensor_mul x (OTensor x) σ;
  σ ← backward depth y σ;
  Ok (grad_of σ x).

(** [x = Tensor([[1,2,3],[4,5,6]]); y = x.sum(axis=axis); y.backward()],
    read [x.grad]. *)
Definition sum_then_backward (depth : nat) (axis : axis_arg)
  : result (option pyval) :=
  let '(x, σ) := Tensor_leaf (int_array [2; 3] [1; 2; 3; 4; 5; 6]%Z) [] in
  '(y, σ) ← Tensor_sum x axis σ;
  σ ← backward depth y σ;
  Ok (grad_of σ x).

(** The weights that make the gradient reaching a stacked tensor
    non-uniform. *)
Definition upstream : ndarray := int_array [2; 2] [1; 2; 3; 4]%Z.

(** [a = Tensor([10,20]); b = Tensor([30,40]); s = a.stack(b, axis=1);
    loss = (s * [[1,2],[3,4]]).sum(); loss.backward()]: the gradient that
    reaches [s] is [[1,2],[3,4]].  Read [a.grad], [b.grad] and [s.grad]. *)
Definition stack_axis1_backward (depth : nat)
  : result (option pyval * option pyval * option pyval) :=
  let '(a, σ) := Tensor_leaf (int_array [2] [10; 20]%Z) [] in
  let '(b, σ) := Tensor_leaf (int_array [2] [30; 40]%Z) σ in
  '(s, σ) ← Tensor_stack a (OTensor b) 1 σ;
  '(m, σ) ← Tensor_mul s (ORaw upstream) σ;
  '(loss, σ) ← Tensor_sum m AxNone σ;
  σ ← backward depth loss σ;
  Ok (grad_of σ a, grad_of σ b, grad_of σ s).

(** [a = Tensor([10,20,30]); b = Tensor([30,40,50]); s = a.stack(b, axis=1);
    s.backward()], read [a.grad]. *)
Definition stack_axis1_three (depth : nat) : result (option pyval) :=
  let '(a, σ) := Tensor_leaf (int_array [3] [10; 20; 30]%Z) [] in
  let '(b, σ) := Tensor_leaf (int_array [3] [30; 40; 50]%Z) σ in
  '(s, σ) ← Tensor_stack a (OTensor b) 1 σ;
  σ ← backward depth s σ;
  Ok (grad_of σ a).

(** [x = Tensor([[1,2],[3,4]]); y = x.sum(axis=1); loss = (y * [1,2]).sum();
    loss.backward()]: the gradient that reaches [y] is [[1,2]].  Read
    [x.grad]. *)
Definition sum_axis1_square (depth : nat) : result (option pyval) :=
  let '(x, σ) := Tensor_leaf (int_array [2; 2] [1; 2; 3; 4]%Z) [] in
  '(y, σ) ← Tensor_sum x (AxInt 1) σ;
  '(m, σ) ← Tensor_mul y (ORaw (int_array [2] [1; 2]%Z)) σ;
  '(loss, σ) ← Tensor_sum m AxNone σ;
  σ ← backward depth loss σ;
  Ok (grad_of σ x).

(** [x = Tensor(5.0, req_grad=True); x.backward(); x.step(0.1)], read
    [x.grad] and [x.data]. *)
Definition step_on_trainable_root (depth : nat)
  : result (option pyval * option ndarray) :=
  let '(x, σ) := Tensor_leaf (scalar_array 5) [] in
  σ ← backward depth x σ;
  σ ← step depth x (qfrac 1 10) σ;
  Ok (grad_of σ x, data_of σ x).


(** Two 2x2 matrices in an empty store. *)
Definition two_matrices : store :=
  (Tensor_leaf (int_array [2; 2] [0; 1; 1; 0]%Z)
     (Tensor_leaf (int_array [2; 2] [1; 2; 3; 4]%Z) []).2).2.

(** A vector leaf in an empty store. *)
Definition one_vector : store := (Tensor_leaf (int_array [2] [1; 2]%Z) []).2.

(** ** What the specification calls a 1-D index array: one axis, integer
    elements. *)
Definition index_array_1d (o : pyobj) : bool :=
  match o with
  | ObjIntArray s _ => bool_decide (length s = 1)
  | _ => false
  end.

(** [np.array([0.0, 1.0])]: one axis, float elements. *)
Definition float_target : pyobj := ObjFloatArray (int_array [2] [0; 1]%Z).

(** [2 * g] elementwise. *)
Definition twice (v : pyval) : pyval :=
  NdArr (np_map (Qcmult (qz 2)) (as_array v)).

(** ** Graph shapes used in the statements *)

(** A tensor without parents whose closure is [back_none]. *)
Definition leaf_like (σ : store) (t : tensor_id) : Prop :=
  ∃ n, σ !! t = Some n ∧ _backward n = back_none ∧ _prev n = ∅.

(** A leaf as the constructor makes it: the gradient is the array of zeros
    of the value's shape. *)
Definition fresh_leaf (σ : store) (t : tensor_id) : Prop :=
  ∃ n, σ !! t = Some n ∧ _backward n = back_none ∧ _prev n = ∅
       ∧ grad n = NdArr (np_zeros (shape (data n))).

(** [y] is the tensor [a + b] as [__add__] builds it. *)
Definition sum_of (σ : store) (a b y : tensor_id) : Prop :=
  ∃ n, σ !! y = Some n ∧ _backward n = BackAdd a b y
       ∧ _prev n = list_to_set [a; b].

(** [a = Tensor([[1,2,3],[4,5,6]]); b = Tensor([0,0,0]); y = a + b]: the
    store after the three constructions; [a], [b], [y] are 0, 1, 2. *)
Definition broadcast_sum_store : store :=
  let '(a, σ) := Tensor_leaf (int_array [2; 3] [1; 2; 3; 4; 5; 6]%Z) [] in
  let '(b, σ) := Tensor_leaf (int_array [3] [0; 0; 0]%Z) σ in
  match Tensor_add a (OTensor b) σ with
  | Ok (_, σ) => σ
  | Err _ => []
  end.

(** The state of the traversal is consistent when [topo] has no duplicates
    and lists visited tensors only. *)
Definition topo_inv (st : list nat * gset nat) : Prop :=
  NoDup st.1 ∧ ∀ x, x ∈ st.1 → x ∈ st.2.

(** One or more calls of [build_topo] extend [topo] by tensors that were
    not visited before, and only add to [visited]. *)
Definition topo_extends (st st' : list nat * gset nat) : Prop :=
  (topo_inv st → topo_inv st')
  ∧ st.2 ⊆ st'.2
  ∧ ∃ l, st'.1 = st.1 ++ l ∧ ∀ x, x ∈ l → x ∉ st.2.

(** One application of the update rule to a tensor. *)
Definition updated (lr : Qc) (n : Tensor) (d : ndarray) : Prop :=
  np_inplace Qcminus (data n) (scaled_grad (grad n) lr) = Ok d.

(** [x = Tensor(5.0, req_grad=True); x.backward()]: the store before and
    after [x.step(0.1)]. *)
Definition trained_scalar : store :=
  let '(x, σ) := Tensor_leaf (scalar_array 5) [] in
  match backward 1 x σ with
  | Ok σ => σ
  | Err _ => []
  end.

Definition stepped_scalar : store :=
  match step 1 0 (qfrac 1 10) trained_scalar with
  | Ok σ => σ
  | Err _ => []
  end.


(** ** Invariants used in the further properties *)

(** An array holds as many elements as its shape says. *)
Definition wf_array (a : ndarray) : Prop := length (elems a) = size_of (shape a).

(** [p] is one of the parents of [c]. *)
Definition parent (σ : store) (c p : tensor_id) : Prop :=
  ∃ n, σ !! c = Some n ∧ p ∈ _prev n.

(** [x] is [root] or one of its ancestors. *)
Definition ancestor (σ : store) : tensor_id → tensor_id → Prop := rtc (parent σ).

(** Parents are older than their children. *)
Definition parents_older (σ : store) : Prop :=
  ∀ t n p, σ !! t = Some n → p ∈ _prev n → p < t.

(** Every gradient is an array of the shape of the value. *)
Definition grads_shaped (σ : store) : Prop :=
  ∀ t n, σ !! t = Some n → ∃ a, grad n = NdArr a ∧ shape a = shape (data n).

(** [σ'] differs from [σ] in gradients only, and a gradient that was an
    array is an array of the same shape. *)
Definition grads_moved (σ σ' : store) : Prop :=
  length σ' = length σ
  ∧ ∀ t n, σ !! t = Some n →
      ∃ g, σ' !! t = Some (set_grad g n)
           ∧ ∀ a, grad n = NdArr a → ∃ a', g = NdArr a' ∧ shape a' = shape a.

(** [σ'] differs from [σ] in values only, which keep their shapes. *)
Definition data_moved (σ σ' : store) : Prop :=
  length σ' = length σ
  ∧ ∀ t n, σ !! t = Some n →
      ∃ d, σ' !! t = Some (set_data d n) ∧ shape d = shape (data n).


(** In [topo] every tensor comes after its parents. *)
Definition parents_first (σ : store) (topo : list tensor_id) : Prop :=
  ∀ i x p, topo !! i = Some x → parent σ x p →
    ∃ j, j < i ∧ topo !! j = Some p.

(** Below [self] the graph has no cycle: [rank] decreases from a tensor
    to its parents, which are in the store.  The rank of [self] bounds the
    depth of the recursion of [build_topo]. *)
Definition ranked (σ : store) (self : tensor_id) (rank : tensor_id → nat) : Prop :=
  ∀ t n p, ancestor σ self t → σ !! t = Some n → p ∈ _prev n →
    rank p < rank t ∧ p < length σ.

(** The state before a call of [build_topo]: [topo] is consistent, and
    the tensors that are visited and not yet listed (the calls still
    open) have rank [bound] or more. *)
Definition visit_pre (σ : store) (rank : tensor_id → nat) (bound : nat)
    (st : list tensor_id * gset tensor_id) : Prop :=
  topo_inv st ∧ parents_first σ st.1
  ∧ ∀ x, x ∈ st.2 → x ∉ st.1 → bound ≤ rank x.

(** The state after the calls of [build_topo] on [roots]: what was added
    is what [roots] reach and [topo] did not hold. *)
Definition visited_from (σ : store) (roots : list tensor_id)
    (st st' : list tensor_id * gset tensor_id) : Prop :=
  ∃ l, st'.1 = st.1 ++ l
       ∧ st'.2 = st.2 ∪ list_to_set l
       ∧ (∀ x, x ∈ l ↔ (∃ r, r ∈ roots ∧ ancestor σ r x) ∧ x ∉ st.1)
       ∧ NoDup st'.1 ∧ parents_first σ st'.1.

(** [σ'] has the tensors of [σ] with the parents they had. *)
Definition same_graph (σ σ' : store) : Prop :=
  length σ' = length σ
  ∧ ∀ t n, σ !! t = Some n → ∃ n', σ' !! t = Some n' ∧ _prev n' = _prev n.

(** ** Further concrete inputs *)

(** A vector of length 2 and a matrix of shape [(2, 3)]. *)
Definition vector_and_matrix : store :=
  (Tensor_leaf (int_array [2; 3] [1; 2; 3; 4; 5; 6]%Z)
     (Tensor_leaf (int_array [2] [1; 2]%Z) []).2).2.

(** [np.array([0, 1])]: one axis, integer elements. *)
Definition class_target : pyobj := ObjIntArray [2] [0; 1]%Z.

(** ** What a closure reads and writes *)

(** The tensors a closure adds to. *)
Definition operands (c : closure) : list tensor_id :=
  match c with
  | back_none => []
  | BackAdd self other _ | BackMul self other _
  | BackMatmul self other _ | BackStack self other _ => [self; other]
  | BackLocal _ self _ _ | BackSum self _ | BackT self _
  | BackCrossEntropy self _ _ _ => [self]
  end.

(** The tensor whose gradient a closure reads: the [out] it captured. *)
Definition reads_grad_of (c : closure) : option tensor_id :=
  match c with
  | back_none | BackCrossEntropy _ _ _ _ => None
  | BackAdd _ _ out | BackMul _ _ out | BackMatmul _ _ out | BackStack _ _ out
  | BackLocal _ _ out _ | BackSum _ out | BackT _ out => Some out
  end.

(** The closure an operation binds to its result [t]: it reads the
    gradient of [t], and its operands were made before [t]. *)
Definition closure_bound (t : tensor_id) (c : closure) : Prop :=
  (∀ o, reads_grad_of c = Some o → o = t) ∧ Forall (λ p, p < t) (operands c).

Definition closures_bound (σ : store) : Prop :=
  ∀ t n, σ !! t = Some n → closure_bound t (_backward n).

(** An operation that returns a tensor binds closures so. *)
Definition binds_closures (m : store → result (tensor_id * store)) : Prop :=
  ∀ σ out σ', m σ = Ok (out, σ') → closures_bound σ → closures_bound σ'.





(** [σ'] is [σ] with other gradients. *)
Definition same_data (σ σ' : store) : Prop :=
  length σ' = length σ
  ∧ ∀ t n, σ !! t = Some n → ∃ g, σ' !! t = Some (set_grad g n).



(** * Properties *)

(** ** The result monad and the store *)

Lemma get_Ok (σ : store) t n : get σ t = Ok n ↔ σ !! t = Some n.
Proof. unfold get. destruct (σ !! t); split; intros [=]; by subst. Qed.

Lemma bind_Ok {A B} (m : result A) (f : A → result B) b :
  m ≫= f = Ok b ↔ ∃ a, m = Ok a ∧ f a = Ok b.
Proof.
  destruct m as [a|e]; simpl; split.
  - intros H. by exists a.
  - by intros (a' & [= <-] & H).
  - intros [=].
  - by intros (a' & [=] & _).
Qed.

Lemma fmap_Ok {A B} (m : result A) (f : A → B) b :
  f <$> m = Ok b ↔ ∃ a, m = Ok a ∧ b = f a.
Proof.
  destruct m as [a|e]; simpl; split.
  - intros [= <-]. by exists a.
  - by intros (a' & [= <-] & ->).
  - intros [=].
  - by intros (a' & [=] & _).
Qed.

Lemma for_each_app {A S} (f : A → S → result S) l1 l2 s :
  for_each f (l1 ++ l2) s = for_each f l1 s ≫= for_each f l2.
Proof.
  revert s. induction l1 as [|x l1 IH]; intros s; simpl; [done|].
  destruct (f x s) as [s'|e]; simpl; [apply IH | done].
Qed.

(** ** Graph traversal *)

Lemma topo_extends_refl st : topo_extends st st.
Proof.
  split_and!; [done|done|]. exists []. split; [by rewrite app_nil_r|].
  intros x Hx. by apply elem_of_nil in Hx.
Qed.

Lemma topo_extends_trans st1 st2 st3 :
  topo_extends st1 st2 → topo_extends st2 st3 → topo_extends st1 st3.
Proof.
  intros (Hi1 & Hs1 & l1 & Hl1 & Hn1) (Hi2 & Hs2 & l2 & Hl2 & Hn2).
  split_and!.
  - auto.
  - by transitivity st2.2.
  - exists (l1 ++ l2). split; [by rewrite Hl2, Hl1, app_assoc|].
    intros x Hx. apply elem_of_app in Hx as [Hx|Hx]; [by apply Hn1|].
    intros Hin. apply (Hn2 x Hx). by apply Hs1.
Qed.

Lemma for_each_topo_extends (f : nat → _ → result (list nat * gset nat)) cs st st' :
  (∀ c s s', f c s = Ok s' → topo_extends s s') →
  for_each f cs st = Ok st' → topo_extends st st'.
Proof.
  intros Hf. revert st. induction cs as [|c cs IH]; intros st; simpl.
  - intros [= <-]. apply topo_extends_refl.
  - intros H. apply bind_Ok in H as (s1 & H1 & H).
    eapply topo_extends_trans; [by eapply Hf | by apply IH].
Qed.

Lemma build_topo_S depth (σ : store) node st :
  build_topo (S depth) σ node st =
  if decide (node ∈ st.2) then Ok st
  else n ← get σ node;
       st' ← for_each (build_topo depth σ) (elements (_prev n))
                       (st.1, {[node]} ∪ st.2);
       Ok (st'.1 ++ [node], st'.2).
Proof. done. Qed.

(** A call that finds [node] unvisited appends it last. *)
Lemma build_topo_extends depth (σ : store) node st st' :
  build_topo depth σ node st = Ok st' →
  topo_extends st st'
  ∧ (node ∉ st.2 → ∃ l, st'.1 = st.1 ++ l ++ [node] ∧ node ∉ l).
Proof.
  revert node st st'. induction depth as [|depth IH]; intros node st st'; [done|].
  rewrite build_topo_S. case_decide as Hv.
  { intros [= <-]. split; [apply topo_extends_refl | done]. }
  intros H. apply bind_Ok in H as (n & _ & H).
  apply bind_Ok in H as (st2 & H2 & [= <-]).
  apply for_each_topo_extends in H2; [|intros c s s' Hc; by apply (IH c s s')].
  destruct H2 as (Hi & Hs & l & Hl & Hn). simpl in Hi, Hs, Hl, Hn.
  assert (node ∉ l) as Hnl.
  { intros Hin. apply (Hn node Hin). apply elem_of_union_l. by apply elem_of_singleton. }
  split; [|intros _; exists l; by rewrite Hl, app_assoc].
  split_and!; simpl.
  - intros [Hnd Hsub]. destruct Hi as [Hnd2 Hsub2].
    { split; [done|]. intros x Hx. apply elem_of_union_r. by apply Hsub. }
    split.
    + apply NoDup_app. split_and!; [done| |apply NoDup_singleton].
      intros x Hx Hx'. apply list_elem_of_singleton in Hx' as ->.
      rewrite Hl in Hx. apply elem_of_app in Hx as [Hx|Hx]; [|done].
      by apply Hv, Hsub.
    + intros x Hx. apply elem_of_app in Hx as [Hx|Hx]; [by apply Hsub2|].
      apply list_elem_of_singleton in Hx as ->. apply Hs.
      apply elem_of_union_l. by apply elem_of_singleton.
  - intros x Hx. apply Hs. by apply elem_of_union_r.
  - exists (l ++ [node]). split; [by rewrite Hl, app_assoc|].
    intros x Hx. apply elem_of_app in Hx as [Hx|Hx].
    + intros Hin. apply (Hn x Hx). by apply elem_of_union_r.
    + by apply list_elem_of_singleton in Hx as ->.
Qed.

(** The traversal lists every tensor once and the root last. *)
Lemma traverse_root_last depth (σ : store) self topo :
  _traverse_children depth σ self = Ok topo →
  NoDup topo ∧ ∃ l, topo = l ++ [self] ∧ self ∉ l.
Proof.
  unfold _traverse_children. intros H. apply fmap_Ok in H as (st' & H & ->).
  apply build_topo_extends in H as ((Hi & _) & Hl).
  destruct Hi as [Hnd _].
  { split; [apply NoDup_nil_2|]. intros x Hx. by apply elem_of_nil in Hx. }
  split; [done|]. destruct Hl as (l & -> & Hnl); [apply not_elem_of_empty|].
  by exists l.
Qed.

(** ** C1: matrix multiplication *)

Lemma Tensor_matmul_inv self other (σ : store) out σ' :
  Tensor_matmul self other σ = Ok (out, σ') →
  ∃ n, σ' !! out = Some n ∧ _prev n = ∅
       ∧ self < out ∧ (promote other σ).1 < out.
Proof.
  unfold Tensor_matmul. destruct (promote other σ) as [o σ1] eqn:Hp.
  intros H. apply bind_Ok in H as (s & Hs & H). apply bind_Ok in H as (t & Ht & H).
  apply bind_Ok in H as (d & Hd & H). simpl in H. injection H as <- <-.
  apply get_Ok, lookup_lt_Some in Hs. apply get_Ok, lookup_lt_Some in Ht.
  unfold bind_backward. rewrite list_lookup_alter_eq.
  rewrite lookup_app_r, Nat.sub_diag by lia. simpl. eexists. split; [done|].
  simpl. done.
Qed.

(** The sibling operations pass their operands as [_parent]. *)
Lemma Tensor_add_parents self other (σ : store) out σ' :
  Tensor_add self other σ = Ok (out, σ') →
  parents_of σ' out = Some (list_to_set [self; (promote other σ).1]).
Proof.
  unfold Tensor_add. destruct (promote other σ) as [o σ1] eqn:Hp.
  intros H. apply bind_Ok in H as (s & Hs & H). apply bind_Ok in H as (t & Ht & H).
  apply bind_Ok in H as (d & Hd & H). simpl in H. injection H as <- <-.
  unfold parents_of, bind_backward. rewrite list_lookup_alter_eq.
  by rewrite lookup_app_r, Nat.sub_diag by lia.
Qed.

Lemma Tensor_unary_parents forward tag sub local self (σ : store) out σ' :
  Tensor_unary forward tag sub local self σ = Ok (out, σ') →
  parents_of σ' out = Some (list_to_set [self]).
Proof.
  unfold Tensor_unary.
  intros H. apply bind_Ok in H as (s & Hs & H).
  apply bind_Ok in H as (d & Hd & H). simpl in H. injection H as <- <-.
  unfold parents_of, bind_backward. rewrite list_lookup_alter_eq.
  by rewrite lookup_app_r, Nat.sub_diag by lia.
Qed.

Lemma traverse_parentless depth (σ : store) t n :
  σ !! t = Some n → _prev n = ∅ → _traverse_children (S depth) σ t = Ok [t].
Proof.
  intros Hn Hp. unfold _traverse_children. simpl.
  destruct (decide (t ∈ (∅ : gset nat))) as [Hin|_]; [by apply not_elem_of_empty in Hin|].
  unfold get. rewrite Hn. simpl. rewrite Hp, elements_empty. done.
Qed.

Lemma clear_grad_other node (σ σ' : store) t :
  clear_grad node σ = Ok σ' → t ≠ node → σ' !! t = σ !! t.
Proof.
  unfold clear_grad. intros H Hne. apply bind_Ok in H as (n & _ & [= <-]).
  by rewrite list_lookup_insert_ne.
Qed.

Lemma update_other lr node (σ σ' : store) t :
  update lr node σ = Ok σ' → t ≠ node → σ' !! t = σ !! t.
Proof.
  unfold update. intros H Hne. apply bind_Ok in H as (n & _ & H).
  destruct (req_grad n); [|by injection H as <-].
  apply bind_Ok in H as (d & _ & [= <-]). by rewrite list_lookup_insert_ne.
Qed.

Lemma for_each_other {A} (f : A → store → result store) l (σ σ' : store) t :
  (∀ x s s', f x s = Ok s' → x ∈ l → s' !! t = s !! t) →
  for_each f l σ = Ok σ' → σ' !! t = σ !! t.
Proof.
  revert σ. induction l as [|x l IH]; intros σ Hf; simpl.
  - by intros [= <-].
  - intros H. apply bind_Ok in H as (s1 & H1 & H).
    rewrite (IH s1); [| |done].
    + eapply Hf; [done|]. by left.
    + intros y s s' Hy Hin. eapply Hf; [done|]. by right.
Qed.

(** C1 (the code departs from the claim).  The tensor [matmul] returns has
    an empty parent set: traversal from it yields the tensor alone, and
    [zero_grad] and [step] called on it leave every other tensor of the
    store, the two operands [self] and [other] included, as it was. *)
Theorem matmul_output_has_no_parents depth self other (σ : store) out σ' :
  Tensor_matmul self other σ = Ok (out, σ') →
  parents_of σ' out = Some ∅
  ∧ _traverse_children (S depth) σ' out = Ok [out]
  ∧ self ≠ out ∧ (promote other σ).1 ≠ out
  ∧ (∀ σ'' t, t ≠ out → zero_grad (S depth) out σ' = Ok σ'' → σ'' !! t = σ' !! t)
  ∧ (∀ lr σ'' t, t ≠ out → step (S depth) out lr σ' = Ok σ'' → σ'' !! t = σ' !! t).
Proof.
  intros H. apply Tensor_matmul_inv in H as (n & Hn & Hp & Hlt & Hlt').
  pose proof (traverse_parentless depth _ _ _ Hn Hp) as Ht.
  split_and!.
  - unfold parents_of. by rewrite Hn, <- Hp.
  - done.
  - lia.
  - lia.
  - intros σ'' t Hne. unfold zero_grad. rewrite Ht. cbn [mbind result_bind].
    apply for_each_other. intros x s s' Hx Hin.
    apply (clear_grad_other _ _ _ _ Hx).
    revert Hin. cbn. rewrite !elem_of_cons, elem_of_nil. intros [->| [->|[]]]; done.
  - intros lr σ'' t Hne. unfold step. rewrite Ht. cbn [mbind result_bind].
    apply for_each_other. intros x s s' Hx Hin.
    apply (update_other _ _ _ _ _ Hx).
    revert Hin. cbn. rewrite !elem_of_cons, elem_of_nil. intros [->| [->|[]]]; done.
Qed.

Lemma matmul_output_has_no_parents_witness :
  ∃ out σ', Tensor_matmul 0 (OTensor 1) two_matrices = Ok (out, σ')
    ∧ parents_of σ' out = Some ∅
    ∧ _traverse_children 1 σ' out = Ok [out].
Proof.
  eexists _, _. split; [vm_compute; reflexivity|].
  pose proof (matmul_output_has_no_parents 0 0 (OTensor 1) two_matrices _ _ eq_refl)
    as (H1 & H2 & _).
  split; [exact H1 | exact H2].
Defined.

(** ** C2: [reshape_gradient] *)

(** The padding loop does not return when the target has more axes than the
    gradient: whatever the fuel, it runs out. *)
Lemma pad_target_shape_diverges fuel glen target_shape keepdims :
  glen < length target_shape →
  pad_target_shape fuel glen target_shape keepdims = None.
Proof.
  revert target_shape keepdims.
  induction fuel as [|fuel IH]; intros ts kd Hlt; simpl;
    (destruct (decide (length ts = glen)); [lia|]); [done|].
  apply IH. simpl. lia.
Qed.

(** With [length target_shape ≤ glen] the padding loop returns within
    [glen] iterations. *)
Lemma pad_target_shape_returns fuel glen target_shape keepdims :
  length target_shape ≤ glen → glen - length target_shape ≤ fuel →
  pad_target_shape fuel glen target_shape keepdims
  = Some (replicate (glen - length target_shape) 1 ++ target_shape,
          if decide (length target_shape = glen) then keepdims else false).
Proof.
  revert target_shape keepdims.
  induction fuel as [|fuel IH]; intros ts kd Hle Hfuel; simpl.
  - assert (length ts = glen) as Heq by lia.
    rewrite !decide_True by done. by rewrite Heq, Nat.sub_diag.
  - destruct (decide (length ts = glen)) as [Heq|Hne].
    + by rewrite Heq, Nat.sub_diag.
    + rewrite IH by (simpl; lia). f_equal. f_equal.
      * replace (glen - length ts) with (S (glen - length (1 :: ts)))
          by (simpl; lia).
        rewrite replicate_S_end, <- app_assoc. done.
      * by case_decide.
Qed.

Lemma elem_of_broadcast_axes k i gshape tshape :
  k ∈ broadcast_axes i gshape tshape ↔
  ∃ j g t, k = i + j ∧ gshape !! j = Some g ∧ tshape !! j = Some t
           ∧ t = 1 ∧ g ≠ 1.
Proof.
  revert i tshape. induction gshape as [|g gs IH]; intros i [|t ts]; simpl.
  - rewrite elem_of_nil. split; [done|]. by intros (j & ? & ? & _ & [=] & _).
  - rewrite elem_of_nil. split; [done|]. by intros (j & ? & ? & _ & [=] & _).
  - rewrite elem_of_nil. split; [done|]. by intros (j & ? & ? & _ & _ & [=] & _).
  - rewrite elem_of_app, IH. split.
    + intros [Hk | (j & g' & t' & -> & Hg & Ht & H)].
      * case_bool_decide as Hc; [|by apply elem_of_nil in Hk].
        apply list_elem_of_singleton in Hk as ->.
        exists 0, g, t. rewrite Nat.add_0_r. by destruct Hc.
      * exists (S j), g', t'. split; [lia|done].
    + intros ([|j] & g' & t' & -> & Hg & Ht & H1 & H2); simpl in Hg, Ht.
      * left. injection Hg as <-. injection Ht as <-.
        rewrite bool_decide_eq_true_2 by done.
        apply list_elem_of_singleton. lia.
      * right. exists j, g', t'. split; [lia|done].
Qed.

Lemma broadcast_axes_NoDup i gshape tshape : NoDup (broadcast_axes i gshape tshape).
Proof.
  revert i tshape. induction gshape as [|g gs IH]; intros i [|t ts]; simpl;
    try apply NoDup_nil_2.
  apply NoDup_app. split_and!; [|  |apply IH].
  - case_bool_decide; [apply NoDup_singleton | apply NoDup_nil_2].
  - intros x Hx Hx'. apply elem_of_broadcast_axes in Hx' as (j & _ & _ & -> & _).
    case_bool_decide; [|by apply elem_of_nil in Hx].
    apply list_elem_of_singleton in Hx. lia.
Qed.

Lemma normalize_axes_nat n (l : list nat) :
  NoDup l → Forall (λ k, k < n) l → normalize_axes n (Z.of_nat <$> l) = Ok l.
Proof.
  induction 1 as [|k l Hk Hnd IH]; intros Hlt; [done|].
  apply Forall_cons in Hlt as [Hkn Hlt]. cbn [fmap list_fmap normalize_axes].
  unfold normalize_axis. rewrite decide_True by lia.
  cbn [mbind result_bind]. fold (fmap (M:=list) Z.of_nat l). rewrite IH by done.
  cbn [mbind result_bind]. rewrite Nat2Z.id.
  by rewrite bool_decide_eq_false_2.
Qed.

Lemma squash_broadcast_axes (axes : list nat) i gshape tshape :
  Forall2 (λ t g, t = g ∨ t = 1) tshape gshape →
  (∀ j g t, gshape !! j = Some g → tshape !! j = Some t →
            i + j ∈ axes ↔ t = 1 ∧ g ≠ 1) →
  squash axes true 1 i gshape = tshape.
Proof.
  intros H. revert i. induction H as [|t g ts gs Htg _ IH]; intros i Hax; [done|].
  simpl. rewrite (IH (S i)).
  - pose proof (Hax 0 g t eq_refl eq_refl) as H0. rewrite Nat.add_0_r in H0.
    case_bool_decide as Hin; simpl; f_equal.
    + apply H0 in Hin as [-> _]. done.
    + destruct Htg as [->| ->]; [done|].
      destruct (decide (g = 1)) as [->|Hg]; [done|]. exfalso. apply Hin, H0. done.
  - intros j g' t' Hg Ht. rewrite <- (Hax (S j) g' t') by done.
    by replace (S i + j) with (i + S j) by lia.
Qed.

(** When the target has as many axes as the gradient and broadcasts to it,
    the result has the target's shape. *)
Lemma reshape_gradient_same_rank g target_shape :
  Forall2 (λ t n, t = n ∨ t = 1) target_shape (shape g) →
  ∃ r, reshape_gradient (NdArr g) target_shape = Ok r ∧ shape r = target_shape.
Proof.
  intros Hb. apply Forall2_length in Hb as Hlen.
  unfold reshape_gradient. cbn [shape_attr mbind result_bind as_array].
  case_decide as Heq; [by exists g|].
  case_decide as Hnil.
  { subst target_shape. destruct (shape g); [done|discriminate]. }
  rewrite pad_target_shape_returns by lia.
  rewrite Hlen, Nat.sub_diag, decide_True by done. cbn [replicate app].
  unfold np_sum.
  rewrite normalize_axes_nat.
  - cbn [mbind result_bind]. eexists. split; [done|].
    unfold sum_over, tabulate, reduced_shape. cbn [shape].
    apply squash_broadcast_axes; [done|].
    intros j n t Hn Ht. rewrite elem_of_broadcast_axes. split.
    + intros (j' & n' & t' & Hj & Hn' & Ht' & H1 & H2).
      assert (j' = j) as -> by lia. split; congruence.
    + intros [H1 H2]. by exists j, n, t.
  - apply broadcast_axes_NoDup.
  - apply Forall_forall. intros k Hk.
    apply elem_of_broadcast_axes in Hk as (j & n & t & -> & Hn & _).
    apply lookup_lt_Some in Hn. unfold ndim. lia.
Qed.

(** C2 (the code departs from the claim).  The target shapes [(2,1)],
    [(1,)] and [(3,)] broadcast to the gradient shapes [(4,2,3)], [(2,3)]
    and [(1,3)]; on all-ones gradients of these shapes [reshape_gradient]
    returns arrays of shapes [(2,)], [()] and [(1,3)].  The entries are the
    expected counts, the shapes are not the targets. *)
Theorem reshape_gradient_misses_target_shape :
  broadcasts_to [2; 1] [4; 2; 3] = true
  ∧ reshape_gradient (NdArr (np_ones [4; 2; 3])) [2; 1]
    = Ok (int_array [2] [12; 12]%Z)
  ∧ broadcasts_to [1] [2; 3] = true
  ∧ reshape_gradient (NdArr (np_ones [2; 3])) [1] = Ok (int_array [] [6]%Z)
  ∧ broadcasts_to [3] [1; 3] = true
  ∧ reshape_gradient (NdArr (np_ones [1; 3])) [3]
    = Ok (int_array [1; 3] [1; 1; 1]%Z).
Proof. compute_done. Qed.

(** ** C3: [zero_grad] *)

Lemma clear_grad_self node (σ σ' : store) :
  clear_grad node σ = Ok σ' → grad_of σ' node = Some (PyInt 0).
Proof.
  unfold clear_grad, grad_of. intros H. apply bind_Ok in H as (n & Hn & [= <-]).
  apply get_Ok, lookup_lt_Some in Hn.
  by rewrite list_lookup_insert_eq.
Qed.

Lemma for_each_clear_grad l (σ σ' : store) t :
  for_each clear_grad l σ = Ok σ' →
  t ∈ l ∨ grad_of σ t = Some (PyInt 0) →
  grad_of σ' t = Some (PyInt 0).
Proof.
  revert σ. induction l as [|x l IH]; intros σ; simpl.
  - intros [= <-] [Hin|Hg]; [by apply elem_of_nil in Hin | done].
  - intros H Ht. apply bind_Ok in H as (s1 & H1 & H).
    apply (IH s1 H).
    destruct (decide (t = x)) as [->|Hne].
    + right. by apply (clear_grad_self _ σ).
    + destruct Ht as [Hin|Hg].
      * left. apply elem_of_cons in Hin as [?|?]; [done|done].
      * right. unfold grad_of. by rewrite (clear_grad_other _ _ _ _ H1 Hne).
Qed.

(** C3 (the code departs from the claim).  After [zero_grad] the gradient
    of the root and of every traversed tensor is the Python integer [0]:
    it is not an array and has no shape. *)
Theorem zero_grad_binds_python_int depth self (σ σ' : store) :
  zero_grad depth self σ = Ok σ' →
  ∃ children, _traverse_children depth σ self = Ok children
    ∧ ∀ t, t ∈ self :: children →
        grad_of σ' t = Some (PyInt 0)
        ∧ (∀ a, grad_of σ' t ≠ Some (NdArr a))
        ∧ (grad_of σ' t ≫= λ g, Some (shape_attr g)) = Some (Err AttributeError).
Proof.
  unfold zero_grad. intros H. apply bind_Ok in H as (children & Hc & H).
  exists children. split; [done|]. intros t Ht.
  assert (grad_of σ' t = Some (PyInt 0)) as Hg.
  { apply (for_each_clear_grad _ _ _ _ H). left.
    rewrite elem_of_reverse. done. }
  rewrite Hg. split_and!; [done| |done]. intros a [=].
Qed.

Lemma zero_grad_binds_python_int_witness :
  ∃ σ', zero_grad 1 0 one_vector = Ok σ'
    ∧ data_of σ' 0 = Some (int_array [2] [1; 2]%Z)
    ∧ grad_of σ' 0 = Some (PyInt 0).
Proof.
  eexists. split; [vm_compute; reflexivity|]. split; [compute_done|].
  destruct (zero_grad_binds_python_int 1 0 one_vector _ eq_refl)
    as (children & _ & H).
  apply (H 0). by left.
Defined.

(** ** C4: [stack] *)

(** C4 (the code departs from the claim).  With [axis=1] and the upstream
    gradient [[1,2],[3,4]], the slices at index 0 and 1 along axis 1 are
    [[1,3]] and [[2,4]]; the backward rule adds the slices along axis 0,
    [[1,2]] and [[3,4]]. *)
Theorem stack_backward_slices_axis_0 depth :
  stack_axis1_backward (4 + depth)
  = Ok (Some (NdArr (int_array [2] [1; 2]%Z)),
        Some (NdArr (int_array [2] [3; 4]%Z)),
        Some (NdArr upstream))
  ∧ np_take upstream 0 1 = int_array [2] [1; 3]%Z
  ∧ np_take upstream 1 1 = int_array [2] [2; 4]%Z
  ∧ np_getitem upstream 0 = Ok (int_array [2] [1; 2]%Z)
  ∧ np_getitem upstream 1 = Ok (int_array [2] [3; 4]%Z).
Proof. compute_done. Qed.

(** With operands of three elements the slice along axis 0 has the wrong
    shape and the in-place addition raises. *)
Lemma stack_backward_axis1_raises depth :
  stack_axis1_three (2 + depth) = Err ValueError.
Proof. compute_done. Qed.

(** ** C5: [sum] *)

(** C5 (the code departs from the claim).  For a tensor of shape [(2,3)]
    summed over its trailing axis, [backward] raises [ValueError]: the
    upstream gradient of shape [(2,)] does not broadcast into [(2,3)].
    Over the leading axis and over all axes it succeeds. *)
Theorem sum_backward_trailing_axis_raises depth :
  sum_then_backward (2 + depth) (AxInt 1) = Err ValueError
  ∧ sum_then_backward (2 + depth) (AxInt (-1)) = Err ValueError
  ∧ sum_then_backward (2 + depth) (AxInt 0) = Ok (Some (NdArr (np_ones [2; 3])))
  ∧ sum_then_backward (2 + depth) AxNone = Ok (Some (NdArr (np_ones [2; 3]))).
Proof. compute_done. Qed.

(** On a square tensor the addition does not raise but lands on the wrong
    elements: with upstream gradient [[1,2]] for the row sums, row [i] of
    [x] should receive [i+1]; every row receives [[1,2]]. *)
Lemma sum_backward_square_misplaces depth :
  sum_axis1_square (4 + depth)
  = Ok (Some (NdArr (int_array [2; 2] [1; 2; 1; 2]%Z))).
Proof. compute_done. Qed.

(** ** C6: [step] *)

Lemma update_Ok lr node (σ σ' : store) :
  update lr node σ = Ok σ' ↔
  ∃ n, σ !! node = Some n
       ∧ if req_grad n
         then ∃ d, updated lr n d ∧ σ' = <[node := set_data d n]> σ
         else σ' = σ.
Proof.
  unfold update, updated. rewrite bind_Ok. split.
  - intros (n & Hn & H). apply get_Ok in Hn. exists n. split; [done|].
    revert H. destruct (req_grad n); [|by intros [= <-]].
    intros H. apply bind_Ok in H as (d & Hd & [= <-]). by exists d.
  - intros (n & Hn & H). exists n. split; [by apply get_Ok|].
    revert H. destruct (req_grad n); [|by intros ->].
    intros (d & -> & ->). done.
Qed.

(** A pass of the update loop over distinct tensors updates each trainable
    one of them once and nothing else. *)
Lemma for_each_update_NoDup lr l (σ σ' : store) :
  NoDup l → for_each (update lr) l σ = Ok σ' →
  ∀ t n, σ !! t = Some n →
    if decide (t ∈ l ∧ req_grad n = true)
    then ∃ d, updated lr n d ∧ σ' !! t = Some (set_data d n)
    else σ' !! t = Some n.
Proof.
  intros Hnd. revert σ. induction Hnd as [|x l Hx Hnd IH]; intros σ; cbn [for_each].
  - intros [= <-] t n Hn. case_decide as H; [|done].
    destruct H as [H _]. by apply elem_of_nil in H.
  - intros H t n Hn. apply bind_Ok in H as (s1 & H1 & H).
    apply update_Ok in H1 as (nx & Hnx & H1).
    destruct (decide (t = x)) as [->|Hne].
    + assert (nx = n) as -> by congruence.
      destruct (req_grad n) eqn:Hr.
      * destruct H1 as (d & Hd & ->).
        rewrite decide_True by (split; [by left|done]).
        exists d. split; [done|].
        specialize (IH _ H x (set_data d n)).
        rewrite decide_False in IH by (by intros [? _]).
        apply IH. apply list_lookup_insert_eq. by eapply lookup_lt_Some.
      * subst s1. rewrite decide_False by (by intros [_ ?]).
        specialize (IH _ H x n Hn). by rewrite decide_False in IH by (by intros [? _]).
    + assert (s1 !! t = Some n) as Hn1.
      { destruct (req_grad nx); [|by subst].
        destruct H1 as (d & _ & ->). by rewrite list_lookup_insert_ne. }
      specialize (IH _ H t n Hn1).
      destruct (decide (t ∈ l ∧ req_grad n = true)) as [[Hin Hr]|Hnot].
      * rewrite decide_True by (split; [by right|done]). done.
      * rewrite decide_False; [done|]. intros [Hin Hr]. apply Hnot.
        split; [|done]. by apply elem_of_cons in Hin as [?|?].
Qed.

(** C6 (the code departs from the claim).  [step] changes values only and
    leaves every gradient as it was; a tensor that is not traversed or not
    trainable is untouched; a trainable traversed tensor other than the
    root is updated once; the root, listed at the head of [topo] and again
    as the last tensor of the traversal, is updated twice when it is
    trainable. *)
Theorem step_updates_root_twice depth self lr (σ σ' : store) :
  step depth self lr σ = Ok σ' →
  ∃ topo, _traverse_children depth σ self = Ok topo
    ∧ ∀ t n, σ !! t = Some n →
        if decide (t ∈ topo ∧ req_grad n = true)
        then if decide (t = self)
             then ∃ d1 d2, updated lr n d1 ∧ updated lr (set_data d1 n) d2
                           ∧ σ' !! t = Some (set_data d2 n)
             else ∃ d, updated lr n d ∧ σ' !! t = Some (set_data d n)
        else σ' !! t = Some n.
Proof.
  unfold step. intros H. apply bind_Ok in H as (topo & Ht & H).
  exists topo. split; [done|].
  apply traverse_root_last in Ht as (Hnd & l & -> & Hnl).
  replace (reverse ([self] ++ l ++ [self])) with ((self :: reverse l) ++ [self]) in H
    by (by rewrite !reverse_app, reverse_singleton).
  rewrite for_each_app in H. apply bind_Ok in H as (σ1 & H1 & H2).
  simpl in H2. apply bind_Ok in H2 as (σ2 & H2 & [= ->]).
  assert (NoDup (self :: reverse l)) as Hnd1.
  { apply NoDup_cons. split; [by rewrite elem_of_reverse|].
    rewrite reverse_Permutation. by apply NoDup_app in Hnd as (? & _ & _). }
  pose proof (for_each_update_NoDup lr _ _ _ Hnd1 H1) as Hfirst.
  apply update_Ok in H2 as (n1 & Hn1 & H2).
  intros t n Hn. specialize (Hfirst t n Hn).
  assert (t ∈ self :: reverse l ↔ t ∈ l ++ [self]) as Hmem.
  { rewrite elem_of_cons, elem_of_reverse, elem_of_app, list_elem_of_singleton. tauto. }
  destruct (decide (t = self)) as [->|Hne].
  - destruct (req_grad n) eqn:Hr.
    + rewrite decide_True in Hfirst by (split; [by left|done]).
      rewrite decide_True by (split; [by apply Hmem; left|done]).
      destruct Hfirst as (d1 & Hd1 & Hs1).
      assert (n1 = set_data d1 n) as -> by congruence.
      simpl in H2. rewrite Hr in H2. destruct H2 as (d2 & Hd2 & ->).
      exists d1, d2. split_and!; [done|done|].
      apply list_lookup_insert_eq. by eapply lookup_lt_Some.
    + rewrite decide_False in Hfirst by (by intros [_ ?]).
      rewrite decide_False by (by intros [_ ?]).
      assert (n1 = n) as -> by congruence. rewrite Hr in H2. by subst.
  - assert (σ' !! t = σ1 !! t) as ->.
    { destruct (req_grad n1); [|by subst].
      destruct H2 as (d & _ & ->). by rewrite list_lookup_insert_ne. }
    destruct (decide (t ∈ self :: reverse l ∧ req_grad n = true)) as [[Hin Hr]|Hnot].
    + rewrite decide_True by (split; [by apply Hmem|done]). done.
    + rewrite decide_False; [done|]. intros [Hin Hr]. apply Hnot.
      split; [by apply Hmem|done].
Qed.

Lemma step_updates_root_twice_witness :
  step 1 0 (qfrac 1 10) trained_scalar = Ok stepped_scalar
  ∧ data_of trained_scalar 0 = Some (scalar_array 5)
  ∧ grad_of trained_scalar 0 = Some (NdArr (scalar_array 1))
  ∧ data_of stepped_scalar 0 = Some (np_scalar (qfrac 24 5))
  ∧ ∃ topo, _traverse_children 1 trained_scalar 0 = Ok topo
      ∧ ∀ t n, trained_scalar !! t = Some n →
          if decide (t ∈ topo ∧ req_grad n = true)
          then if decide (t = 0)
               then ∃ d1 d2, updated (qfrac 1 10) n d1
                             ∧ updated (qfrac 1 10) (set_data d1 n) d2
                             ∧ stepped_scalar !! t = Some (set_data d2 n)
               else ∃ d, updated (qfrac 1 10) n d
                         ∧ stepped_scalar !! t = Some (set_data d n)
          else stepped_scalar !! t = Some n.
Proof.
  assert (step 1 0 (qfrac 1 10) trained_scalar = Ok stepped_scalar) as Hs
    by (vm_compute; reflexivity).
  split; [exact Hs|]. split; [compute_done|]. split; [compute_done|].
  split; [compute_done|].
  exact (step_updates_root_twice 1 0 (qfrac 1 10) trained_scalar stepped_scalar Hs).
Defined.

(** The same on the program: from value 5, gradient 1 and learning rate
    1/10 the value becomes 24/5; one update gives 49/10. *)
Lemma step_on_trainable_root_value depth :
  step_on_trainable_root (1 + depth)
  = Ok (Some (NdArr (scalar_array 1)), Some (np_scalar (qfrac 24 5)))
  ∧ (qz 5 - qz 1 * qfrac 1 10)%Qc = qfrac 49 10
  ∧ (qz 5 - qz 1 * qfrac 1 10 - qz 1 * qfrac 1 10)%Qc = qfrac 24 5.
Proof. compute_done. Qed.

(** ** C7: the reflected power *)

(** C7 (the code departs from the claim).  For a plain number [c] the call
    [Tensor.__rpow__(a, c)] evaluates [c ** a], which Python resolves to
    [Tensor.__rpow__(a, c)] again: whatever the number of frames left, the
    call ends in [RecursionError] and returns no tensor.  With a tensor in
    place of [c] the assertion of [__pow__] fails. *)
Theorem rpow_never_returns np_power depth self (σ : store) :
  (∀ c, Tensor_rpow np_power depth self (BaseNum c) σ = Err RecursionError)
  ∧ (∀ a, Tensor_rpow np_power (S depth) self (BaseTensor a) σ = Err AssertionError).
Proof.
  split; [|intros a; by destruct depth].
  intros c. destruct depth as [|depth]; [done|]. simpl.
  induction depth as [|depth IH]; [done | exact IH].
Qed.

(** ** A tensor used as both operands: the two examples *)

(** The two programs of the specification, run: [x = 3.0; y = x + x]
    leaves [x.grad = 2], and [x = 2.0; y = x * x] leaves [x.grad = 4].
    The rule for any tensor is proved further down. *)
Lemma diamond_scalar_examples depth :
  diamond_add (2 + depth) = Ok (Some (NdArr (scalar_array 2)))
  ∧ diamond_mul (2 + depth) = Ok (Some (NdArr (scalar_array 4))).
Proof. compute_done. Qed.

(** ** C9: the two assertions *)

Lemma bind_Err {A B} (m : result A) (f : A → result B) e :
  m ≫= f = Err e → m = Err e ∨ ∃ a, m = Ok a ∧ f a = Err e.
Proof.
  destruct m as [a|e']; simpl; intros H.
  - right. by exists a.
  - injection H as ->. by left.
Qed.

Lemma get_raises (σ : store) t e : get σ t = Err e → e = NoSuchObject.
Proof. unfold get. destruct (σ !! t); by intros [=]. Qed.

Lemma np_binary_raises f a b e : np_binary f a b = Err e → e = ValueError.
Proof. unfold np_binary. destruct (broadcast_shapes _ _); by intros [=]. Qed.

Lemma normalize_axis_raises n z e : normalize_axis n z = Err e → e = AxisError.
Proof. unfold normalize_axis. repeat case_decide; by intros [=]. Qed.

Lemma normalize_axes_raises n zs e :
  normalize_axes n zs = Err e → e = AxisError ∨ e = ValueError.
Proof.
  induction zs as [|z zs IH]; simpl; [by intros [=]|].
  intros H. apply bind_Err in H as [H'|(k & _ & H')].
  { left. by eapply normalize_axis_raises. }
  apply bind_Err in H' as [H|(ks & _ & H)]; [by apply IH|].
  case_bool_decide; [|done]. injection H as <-. by right.
Qed.

Lemma np_sum_raises a axis keepdims e :
  np_sum a axis keepdims = Err e → e = AxisError ∨ e = ValueError.
Proof.
  unfold np_sum. destruct axis as [|z|zs]; [by intros [=]| |].
  - case_bool_decide; [by intros [=]|]. intros Hs.
    apply bind_Err in Hs as [Hs'|(k & _ & [=])]. left. by eapply normalize_axis_raises.
  - intros Hs. apply bind_Err in Hs as [Hs'|(k & _ & [=])]. by eapply normalize_axes_raises.
Qed.

Lemma np_max_axis1_raises a e :
  np_max_axis1 a = Err e → e = AxisError ∨ e = ValueError.
Proof.
  unfold np_max_axis1. destruct (shape a) as [|? [|c ?]]; [intros [= <-]; by left..|].
  case_decide; intros [=]. by right.
Qed.

Lemma normalize_indices_raises n zs e : normalize_indices n zs = Err e → e = IndexError.
Proof.
  induction zs as [|z zs IH]; simpl; [by intros [=]|].
  intros H. apply bind_Err in H as [H'|(k & _ & H')].
  { revert H'. unfold normalize_index. repeat case_decide; by intros [=]. }
  apply bind_Err in H' as [H|(ks & _ & [=])]. by apply IH.
Qed.

Lemma one_hot_raises s target e : one_hot s target = Err e → e = IndexError.
Proof.
  unfold one_hot. destruct target; try by intros [=].
  destruct s as [|n [|c s']]; [by intros [=]..|].
  intros H. apply bind_Err in H as [H'|(cols & _ & H')].
  { by eapply normalize_indices_raises. }
  case_decide; [done | by injection H' as <-].
Qed.

Lemma Tensor_unary_raises forward tag sub local self (σ : store) e :
  Tensor_unary forward tag sub local self σ = Err e →
  e = NoSuchObject ∨ ∃ d, forward d = Err e.
Proof.
  unfold Tensor_unary. intros H. apply bind_Err in H as [H'|(s & _ & H')].
  { left. by eapply get_raises. }
  apply bind_Err in H' as [H|(d & _ & [=])]. right. by eexists.
Qed.

Section Assertions.

Variables np_exp np_log : Qc → Qc.
Variable np_power : Qc → pynum → Qc.

Lemma cross_entropy_body_raises self target (σ : store) e :
  cross_entropy_loss np_exp np_log self target σ = Err e →
  is_1d_ndarray target = true → e ≠ AssertionError.
Proof.
  unfold cross_entropy_loss. intros H Ht. rewrite Ht in H.
  cbn [py_assert mbind result_bind] in H.
  repeat
    (apply bind_Err in H as [H|(? & _ & H)];
     [ first [ apply get_raises in H as ->
             | apply np_max_axis1_raises in H as [-> | ->]
             | apply np_binary_raises in H as ->
             | apply np_sum_raises in H as [-> | ->]
             | apply one_hot_raises in H as -> ]; done | ]).
  done.
Qed.

(** C9, amended.  [__pow__] raises [AssertionError] exactly when the
    exponent is not a Python [int] or [float]; [cross_entropy_loss]
    raises it exactly when the target is not an array with one axis,
    whatever the type of its elements.  In both the assertion is the
    first statement, and a call that raises returns no store. *)
Theorem assertions_guard_pow_and_cross_entropy self (σ : store) :
  (∀ other, Tensor_pow np_power self other σ = Err AssertionError
            ↔ isinstance_int_float other = None)
  ∧ (∀ target, cross_entropy_loss np_exp np_log self target σ = Err AssertionError
               ↔ is_1d_ndarray target = false).
Proof.
  split.
  - intros other. unfold Tensor_pow.
    destruct (isinstance_int_float other) as [e|]; [|done].
    split; [|done]. intros H.
    apply Tensor_unary_raises in H as [[=]|(d & [=])].
  - intros target. split.
    + intros H. destruct (is_1d_ndarray target) eqn:Ht; [|done].
      by apply cross_entropy_body_raises in H.
    + intros Ht. unfold cross_entropy_loss. by rewrite Ht.
Qed.

End Assertions.

(** C9, as stated, fails: a 1-d array of floats is not an index array, yet
    it passes the assertion; the call raises [IndexError] when the array is
    used as an index. *)
Lemma cross_entropy_accepts_float_target :
  index_array_1d float_target = false
  ∧ ∀ np_exp np_log,
      cross_entropy_loss np_exp np_log 0 float_target two_matrices = Err IndexError
      ∧ cross_entropy_loss np_exp np_log 0 float_target two_matrices
        ≠ Err AssertionError.
Proof.
  split; [done|]. intros np_exp np_log.
  assert (cross_entropy_loss np_exp np_log 0 float_target two_matrices
          = Err IndexError) as ->; [vm_compute; reflexivity | done].
Qed.

(** ** Arrays: indices and [tabulate] *)


Lemma lookup_bind_block {A B} (f : A → list B) m (l : list A) i k x :
  (∀ x, length (f x) = m) → l !! i = Some x → k < m →
  (l ≫= f) !! (i * m + k) = f x !! k.
Proof.
  intros Hlen. revert i. induction l as [|x0 l IH]; intros i Hi Hk; [done|].
  rewrite bind_cons. destruct i as [|i]; simpl in *.
  - injection Hi as ->. rewrite lookup_app_l; [done|]. by rewrite Hlen.
  - rewrite lookup_app_r; rewrite Hlen; [|lia].
    replace (m + i * m + k - m) with (i * m + k) by lia. by apply IH.
Qed.



Lemma bind_length_block {A B} (f : A → list B) m (l : list A) :
  (∀ x, length (f x) = m) → length (l ≫= f) = length l * m.
Proof.
  intros Hlen. induction l as [|x l IH]; [done|].
  rewrite bind_cons, length_app, Hlen, IH. simpl. lia.
Qed.

Lemma indices_length s : length (indices s) = size_of s.
Proof.
  induction s as [|n s IH]; simpl; [done|].
  rewrite (bind_length_block _ (size_of s)), length_seq; [done|].
  intros i. by rewrite length_fmap.
Qed.

Lemma elem_of_indices_cons n s j :
  j ∈ indices (n :: s) ↔ ∃ i r, j = i :: r ∧ i < n ∧ r ∈ indices s.
Proof.
  simpl. rewrite list_elem_of_bind. split.
  - intros (i & Hj & Hi). apply list_elem_of_fmap in Hj as (r & -> & Hr).
    apply elem_of_seq in Hi. exists i, r. split_and!; [done|lia|done].
  - intros (i & r & -> & Hi & Hr). exists i. split.
    + apply list_elem_of_fmap. by exists r.
    + apply elem_of_seq. lia.
Qed.

Lemma ravel_lt s j : j ∈ indices s → ravel s j < size_of s.
Proof.
  revert j. induction s as [|n s IH]; intros j Hj.
  - simpl. lia.
  - apply elem_of_indices_cons in Hj as (i & r & -> & Hi & Hr).
    specialize (IH r Hr). simpl. nia.
Qed.

(** The row-major offset of an index is its position among the indices. *)
Lemma lookup_indices_ravel s j : j ∈ indices s → indices s !! ravel s j = Some j.
Proof.
  revert j. induction s as [|n s IH]; intros j Hj.
  - apply list_elem_of_singleton in Hj as ->. done.
  - apply elem_of_indices_cons in Hj as (i & r & -> & Hi & Hr).
    cbn [indices ravel].
    rewrite (lookup_bind_block _ (size_of s) _ i _ i).
    + rewrite list_lookup_fmap, (IH r Hr). done.
    + intros x. by rewrite length_fmap, indices_length.
    + apply lookup_seq. lia.
    + by apply ravel_lt.
Qed.

(** Reading a tabulated array at an index of its shape. *)
Lemma item_tabulate s f j : j ∈ indices s → item (tabulate s f) j = f j.
Proof.
  intros Hj. unfold item, tabulate. simpl.
  by rewrite list_lookup_fmap, (lookup_indices_ravel s j Hj).
Qed.

Lemma tabulate_ext s f g :
  (∀ j, j ∈ indices s → f j = g j) → tabulate s f = tabulate s g.
Proof.
  intros H. unfold tabulate. f_equal. apply Forall_fmap_ext, Forall_forall. done.
Qed.

Lemma item_np_zeros s j : item (np_zeros s) j = qz 0.
Proof.
  unfold item, np_zeros, np_full. simpl.
  destruct (replicate _ _ !! _) as [x|] eqn:H; [|done].
  by apply lookup_replicate in H as [-> _].
Qed.

(** ** Traversal and backward pass of a sum of leaves *)


(** [build_topo] on a leaf appends it unless it was visited. *)
Lemma build_topo_leaf depth (σ : store) c st :
  leaf_like σ c →
  ∃ st', build_topo (S depth) σ c st = Ok st'
         ∧ (st'.1 = st.1 ∨ st'.1 = st.1 ++ [c]).
Proof.
  intros (n & Hn & _ & Hp). simpl.
  destruct (decide (c ∈ st.2)); [by eauto|].
  unfold get. rewrite Hn. simpl. rewrite Hp, elements_empty. simpl. eauto.
Qed.

Lemma for_each_build_topo_leaves depth (σ : store) cs st :
  Forall (leaf_like σ) cs →
  ∃ l vis, for_each (build_topo (S depth) σ) cs st = Ok (st.1 ++ l, vis)
           ∧ Forall (λ c, c ∈ cs) l.
Proof.
  intros Hcs. revert st. induction Hcs as [|c cs Hc Hcs IH]; intros st.
  - exists [], st.2. simpl. rewrite app_nil_r. by destruct st.
  - destruct (build_topo_leaf depth σ c st Hc) as (st' & Hst' & Hl).
    destruct (IH st') as (l & vis & Hfe & Hin).
    cbn [for_each]. rewrite Hst'. cbn [mbind result_bind]. rewrite Hfe.
    assert (Forall (λ c0, c0 ∈ c :: cs) l) as Hin'.
    { eapply Forall_impl; [done|]. intros x Hx. by right. }
    destruct Hl as [-> | ->].
    + by exists l, vis.
    + exists (c :: l), vis. rewrite <- app_assoc. split; [done|].
      constructor; [by left | done].
Qed.

(** The traversal of a sum of leaves lists operands, then the sum. *)
Lemma traverse_sum_of_leaves depth (σ : store) a b y ny :
  σ !! y = Some ny → _prev ny = list_to_set [a; b] →
  leaf_like σ a → leaf_like σ b →
  ∃ l, _traverse_children (S (S depth)) σ y = Ok (l ++ [y])
       ∧ Forall (λ c, c = a ∨ c = b) l.
Proof.
  intros Hy Hp Ha Hb. unfold _traverse_children. rewrite build_topo_S.
  destruct (decide (y ∈ _)) as [Hin|_]; [by apply not_elem_of_empty in Hin|].
  apply get_Ok in Hy as Hy'. rewrite Hy'. cbn [mbind result_bind fst snd].
  assert (∀ c, c ∈ elements (_prev ny) → c = a ∨ c = b) as Hel.
  { intros c Hc. apply elem_of_elements in Hc. rewrite Hp in Hc.
    simpl in Hc. apply elem_of_union in Hc as [Hc|Hc].
    - left. by apply elem_of_singleton in Hc.
    - apply elem_of_union in Hc as [Hc|Hc].
      + right. by apply elem_of_singleton in Hc.
      + by apply not_elem_of_empty in Hc. }
  destruct (for_each_build_topo_leaves depth σ (elements (_prev ny))
              (([], {[y]} ∪ ∅) : list nat * gset nat)) as (l & vis & -> & Hl).
  { apply Forall_forall. intros c Hc. by destruct (Hel c Hc) as [-> | ->]. }
  simpl. exists l. split; [done|].
  eapply Forall_impl; [done|]. intros c Hc. by apply Hel.
Qed.

Lemma for_each_run_backward_leaves (σ : store) l :
  Forall (λ c, ∃ n, σ !! c = Some n ∧ _backward n = back_none) l →
  for_each run_backward l σ = Ok σ.
Proof.
  induction 1 as [|c l (n & Hn & Hb) _ IH]; [done|].
  cbn [for_each].
  assert (run_backward c σ = Ok σ) as ->; [|done].
  unfold run_backward. apply get_Ok in Hn as ->. cbn [mbind result_bind].
  by rewrite Hb.
Qed.



Lemma grad_iadd_Ok t v (σ σ' : store) :
  grad_iadd t v σ = Ok σ' ↔
  ∃ n g, σ !! t = Some n ∧ iadd (grad n) v = Ok g ∧ σ' = <[t := set_grad g n]> σ.
Proof.
  unfold grad_iadd. rewrite bind_Ok. split.
  - intros (n & Hn & H). apply bind_Ok in H as (g & Hg & [= <-]).
    apply get_Ok in Hn. by exists n, g.
  - intros (n & g & Hn & Hg & ->). exists n. split; [by apply get_Ok|].
    by rewrite Hg.
Qed.

(** The closure of [a + b], run in a store where the sum is distinct from
    its operands (which may be one tensor): the two contributions and the
    store they leave. *)
Lemma call_backward_add (σ0 σ' : store) a b y oy na nb :
  a ≠ y → b ≠ y →
  σ0 !! y = Some oy → σ0 !! a = Some na → σ0 !! b = Some nb →
  call_backward (BackAdd a b y) σ0 = Ok σ' ↔
  ∃ ra ga rb gb,
    reshape_gradient (grad oy) (shape (data na)) = Ok ra
    ∧ iadd (grad na) (NdArr ra) = Ok ga
    ∧ reshape_gradient (grad oy) (shape (data nb)) = Ok rb
    ∧ iadd (if decide (b = a) then ga else grad nb) (NdArr rb) = Ok gb
    ∧ σ' = <[b := set_grad gb nb]> (<[a := set_grad ga na]> σ0).
Proof.
  intros Hay Hby Hy Ha Hb. cbn [call_backward].
  apply get_Ok in Hy as Hy'. apply get_Ok in Ha as Ha'.
  rewrite Hy', Ha'. cbn [mbind result_bind].
  assert (∀ ga, get (<[a := set_grad ga na]> σ0) y = Ok oy) as Hy2.
  { intros ga. apply get_Ok. by rewrite list_lookup_insert_ne. }
  assert (∀ ga, get (<[a := set_grad ga na]> σ0) b
                = Ok (if decide (b = a) then set_grad ga na else nb)) as Hb2.
  { intros ga. apply get_Ok. case_decide as Hba.
    - subst b. apply list_lookup_insert_eq. by eapply lookup_lt_Some.
    - by rewrite list_lookup_insert_ne. }
  assert (∀ ga, data (if decide (b = a) then set_grad ga na else nb) = data nb) as Hd.
  { intros ga. case_decide; [|done]. subst b. simpl. congruence. }
  split.
  - intros H. apply bind_Ok in H as (ra & Hra & H).
    apply bind_Ok in H as (σa & Hσa & H).
    apply grad_iadd_Ok in Hσa as (na' & ga & Hna' & Hga & ->).
    assert (na' = na) as -> by congruence.
    rewrite Hy2, Hb2 in H.
    cbn [mbind result_bind] in H. rewrite Hd in H.
    apply bind_Ok in H as (rb & Hrb & H).
    apply grad_iadd_Ok in H as (tb & gb & Htb & Hgb & ->).
    specialize (Hb2 ga). apply get_Ok in Hb2.
    assert (tb = if decide (b = a) then set_grad ga na else nb) as -> by congruence.
    exists ra, ga, rb, gb. split_and!; [done..| |].
    + revert Hgb. case_decide; [|done]. done.
    + f_equal. case_decide; [|done]. subst b. simpl.
      assert (nb = na) as -> by congruence. done.
  - intros (ra & ga & rb & gb & Hra & Hga & Hrb & Hgb & ->).
    rewrite Hra. cbn [mbind result_bind].
    assert (grad_iadd a (NdArr ra) σ0 = Ok (<[a := set_grad ga na]> σ0)) as ->.
    { apply grad_iadd_Ok. by exists na, ga. }
    cbn [mbind result_bind].
    rewrite Hy2, Hb2.
    cbn [mbind result_bind]. rewrite Hd, Hrb. cbn [mbind result_bind].
    apply grad_iadd_Ok. eexists _, gb. split; [by apply get_Ok, Hb2|]. split.
    + revert Hgb. case_decide; [|done]. done.
    + f_equal. case_decide; [|done]. subst b. simpl.
      assert (nb = na) as -> by congruence. done.
Qed.

Lemma qz_0 : qz 0 = 0%Qc.
Proof. by apply Qc_is_canon. Qed.
Lemma qz_2 : qz 2 = (1 + 1)%Qc.
Proof. by apply Qc_is_canon. Qed.

(** [x += r] on arrays: [r] has to broadcast to the shape of [x]. *)
Lemma iadd_arrays x r g :
  iadd (NdArr x) (NdArr r) = Ok g ↔
  broadcast_shapes (shape x) (shape r) = Some (shape x)
  ∧ g = NdArr (tabulate (shape x)
                 (λ j, (item x j + item r (bcast_index (shape r) j))%Qc)).
Proof.
  unfold iadd, augmented, np_inplace. simpl.
  destruct (broadcast_shapes (shape x) (shape r)) as [s|]; [|split; [done|by intros [? _]]].
  case_decide as Hs; simpl.
  - subst s. split; [by intros [= <-] | by intros [_ ->]].
  - split; [done|]. intros [[=] _]. done.
Qed.

Lemma np_map_tabulate f s h : np_map f (tabulate s h) = tabulate s (λ j, f (h j)).
Proof. unfold np_map, tabulate. simpl. by rewrite <- list_fmap_compose. Qed.

(** Adding the same contribution [r] a second time to a gradient that
    started from zeros doubles it. *)
Lemma iadd_again_doubles s r g1 :
  iadd (NdArr (np_zeros s)) (NdArr r) = Ok g1 →
  iadd g1 (NdArr r) = Ok (twice g1).
Proof.
  intros H. apply iadd_arrays in H as [Hs ->]. simpl in Hs.
  apply iadd_arrays. simpl. split; [done|]. unfold twice. simpl as_array.
  rewrite np_map_tabulate. f_equal. apply tabulate_ext. intros j Hj.
  rewrite item_tabulate by done.
  rewrite item_np_zeros, qz_0, qz_2. ring.
Qed.

(** The same when the contribution is added twice per pass, as for a
    tensor that is both operands. *)
Lemma iadd_pair_again_doubles s r g1 g2 :
  iadd (NdArr (np_zeros s)) (NdArr r) = Ok g1 →
  iadd g1 (NdArr r) = Ok g2 →
  ∃ g3, iadd g2 (NdArr r) = Ok g3 ∧ iadd g3 (NdArr r) = Ok (twice g2).
Proof.
  intros H1 H2. apply iadd_arrays in H1 as [Hs ->]. simpl in Hs.
  apply iadd_arrays in H2 as [_ ->]. simpl.
  eexists. split.
  { apply iadd_arrays. simpl. split; [done|]. done. }
  apply iadd_arrays. simpl. split; [done|]. unfold twice. simpl as_array.
  rewrite np_map_tabulate. f_equal. apply tabulate_ext. intros j Hj.
  rewrite !item_tabulate by done.
  rewrite item_np_zeros, qz_0, qz_2. ring.
Qed.

(** ** C10: calling [backward] twice *)

Lemma fresh_leaf_like σ t : fresh_leaf σ t → leaf_like σ t.
Proof. intros (n & ? & ? & ? & _). by exists n. Qed.

Lemma leaf_is_not_sum (σ : store) t y ny a b :
  leaf_like σ t → σ !! y = Some ny → _backward ny = BackAdd a b y → t ≠ y.
Proof.
  intros (n & Hn & Hb & _) Hy Hyb ->.
  assert (n = ny) as -> by congruence. congruence.
Qed.

(** The store after the closure of a sum of two leaves has run. *)
Lemma lookups_after_add (σ0 : store) a b ga gb na nb :
  σ0 !! a = Some na → σ0 !! b = Some nb →
  let σ' : store := <[b := set_grad gb nb]> (<[a := set_grad ga na]> σ0) in
  σ' !! b = Some (set_grad gb nb)
  ∧ σ' !! a = Some (if decide (b = a) then set_grad gb nb else set_grad ga na)
  ∧ ∀ t, t ≠ a → t ≠ b → σ' !! t = σ0 !! t.
Proof.
  intros Ha Hb σ'. apply lookup_lt_Some in Ha as Hla. apply lookup_lt_Some in Hb as Hlb.
  subst σ'. split_and!.
  - apply list_lookup_insert_eq. by rewrite length_insert.
  - case_decide as Hba.
    + subst b. apply list_lookup_insert_eq. by rewrite length_insert.
    + rewrite list_lookup_insert_ne by done. by apply list_lookup_insert_eq.
  - intros t Hta Htb. by rewrite !list_lookup_insert_ne.
Qed.

(** [backward] on a sum of leaves: the root's gradient is rebound to ones,
    the closure of the sum runs, the closures of the leaves do nothing. *)
Lemma backward_sum_of_leaves depth (σ : store) a b y ny :
  σ !! y = Some ny → _backward ny = BackAdd a b y →
  _prev ny = list_to_set [a; b] →
  leaf_like σ a → leaf_like σ b →
  backward (2 + depth) y σ
  = call_backward (BackAdd a b y)
      (<[y := set_grad (NdArr (np_ones (shape (data ny)))) ny]> σ).
Proof.
  intros Hy Hyb Hyp Ha Hb. unfold backward.
  destruct (traverse_sum_of_leaves depth σ a b y ny) as (l & Hl & Hin); [done..|].
  cbn [Nat.add]. rewrite Hl. cbn [mbind result_bind].
  apply get_Ok in Hy as Hy'. rewrite Hy'. cbn [mbind result_bind].
  rewrite reverse_snoc. cbn [for_each].
  set (σ0 := <[y := _]> σ).
  assert (a ≠ y) as Hay by (by eapply leaf_is_not_sum).
  assert (b ≠ y) as Hby by (by eapply leaf_is_not_sum).
  destruct Ha as (na & Hna & Hnab & _). destruct Hb as (nb & Hnb & Hnbb & _).
  assert (σ0 !! y = Some (set_grad (NdArr (np_ones (shape (data ny)))) ny)) as Hy0.
  { apply list_lookup_insert_eq. by eapply lookup_lt_Some. }
  assert (σ0 !! a = Some na) as Ha0 by (subst σ0; by rewrite list_lookup_insert_ne).
  assert (σ0 !! b = Some nb) as Hb0 by (subst σ0; by rewrite list_lookup_insert_ne).
  assert (run_backward y σ0 = call_backward (BackAdd a b y) σ0) as ->.
  { unfold run_backward. apply get_Ok in Hy0 as ->. cbn [mbind result_bind].
    simpl. by rewrite Hyb. }
  destruct (call_backward (BackAdd a b y) σ0) as [σ'|e] eqn:Hc; [|done].
  cbn [mbind result_bind]. apply for_each_run_backward_leaves.
  apply (call_backward_add σ0 σ' a b y _ na nb Hay Hby Hy0 Ha0 Hb0) in Hc
    as (ra & ga & rb & gb & _ & _ & _ & _ & ->).
  destruct (lookups_after_add σ0 a b ga gb na nb Ha0 Hb0) as (Hlb & Hla & _).
  apply Forall_forall. intros c Hc. rewrite elem_of_reverse in Hc.
  rewrite Forall_forall in Hin. destruct (Hin c Hc) as [-> | ->].
  - eexists. split; [exact Hla|]. by case_decide.
  - eexists. split; [exact Hlb|]. done.
Qed.

(** The sum of leaves, directly: for a root [y = a + b] whose operands
    are fresh leaves (the same leaf or two), a second call of [backward]
    with no [zero_grad] in between succeeds when the first did, leaves the
    gradient of the root as it was and leaves each operand's gradient at
    exactly twice its value after the first call.  The statement for any
    root is proved further down. *)
Lemma sum_of_leaves_backward_twice depth (σ σ1 : store) a b y :
  sum_of σ a b y → fresh_leaf σ a → fresh_leaf σ b →
  backward (2 + depth) y σ = Ok σ1 →
  ∃ σ2, backward (2 + depth) y σ1 = Ok σ2
    ∧ grad_of σ2 y = grad_of σ1 y
    ∧ grad_of σ2 a = twice <$> grad_of σ1 a
    ∧ grad_of σ2 b = twice <$> grad_of σ1 b.
Proof.
  intros (ny & Hy & Hyb & Hyp) Hfa Hfb H1.
  pose proof (fresh_leaf_like _ _ Hfa) as Hla.
  pose proof (fresh_leaf_like _ _ Hfb) as Hlb.
  assert (a ≠ y) as Hay by (by eapply leaf_is_not_sum).
  assert (b ≠ y) as Hby by (by eapply leaf_is_not_sum).
  rewrite (backward_sum_of_leaves depth σ a b y ny) in H1 by done.
  destruct Hfa as (na & Hna & Hnab & Hnap & Hnag).
  destruct Hfb as (nb & Hnb & Hnbb & Hnbp & Hnbg).
  set (oy := set_grad (NdArr (np_ones (shape (data ny)))) ny) in *.
  set (σ0 := <[y := oy]> σ) in *.
  assert (σ0 !! y = Some oy) as Hy0.
  { apply list_lookup_insert_eq. by eapply lookup_lt_Some. }
  assert (σ0 !! a = Some na) as Ha0 by (subst σ0; by rewrite list_lookup_insert_ne).
  assert (σ0 !! b = Some nb) as Hb0 by (subst σ0; by rewrite list_lookup_insert_ne).
  apply (call_backward_add σ0 σ1 a b y oy na nb Hay Hby Hy0 Ha0 Hb0) in H1
    as (ra & ga & rb & gb & Hra & Hga & Hrb & Hgb & ->).
  destruct (lookups_after_add σ0 a b ga gb na nb Ha0 Hb0) as (Hb1 & Ha1 & Hother).
  set (σ1 := <[b := set_grad gb nb]> (<[a := set_grad ga na]> σ0)) in *.
  assert (σ1 !! y = Some oy) as Hy1 by (rewrite Hother; done).
  set (na1 := if decide (b = a) then set_grad gb nb else set_grad ga na) in *.
  assert (data na1 = data na ∧ _backward na1 = back_none ∧ _prev na1 = ∅) as (Hd1 & Hbk1 & Hp1).
  { subst na1. case_decide as Hba; [|done]. subst b.
    assert (nb = na) as -> by congruence. done. }
  rewrite (backward_sum_of_leaves depth σ1 a b y oy); [|done|done|done|..].
  2: { by exists na1. }
  2: { by exists (set_grad gb nb). }
  replace (set_grad (NdArr (np_ones (shape (data oy)))) oy) with oy by done.
  set (σ0' := <[y := oy]> σ1).
  assert (σ0' !! y = Some oy) as Hy0'.
  { apply list_lookup_insert_eq. by eapply lookup_lt_Some. }
  assert (σ0' !! a = Some na1) as Ha0' by (subst σ0'; by rewrite list_lookup_insert_ne).
  assert (σ0' !! b = Some (set_grad gb nb)) as Hb0'
    by (subst σ0'; by rewrite list_lookup_insert_ne).
  (* the contributions of the second pass *)
  assert (∃ ga' gb',
    iadd (grad na1) (NdArr ra) = Ok ga'
    ∧ iadd (if decide (b = a) then ga' else gb) (NdArr rb) = Ok gb'
    ∧ gb' = twice gb
    ∧ (if decide (b = a) then gb' else ga') = twice (grad na1))
    as (ga' & gb' & Hga' & Hgb' & Hgb2 & Hga2).
  { subst na1. destruct (decide (b = a)) as [Hba|Hba].
    - subst b. assert (nb = na) as -> by congruence.
      assert (rb = ra) as -> by congruence.
      rewrite Hnag in Hga.
      destruct (iadd_pair_again_doubles _ _ _ _ Hga Hgb) as (g3 & Hg3 & Hg4).
      exists g3, (twice gb). simpl. done.
    - rewrite Hnbg in Hgb. rewrite Hnag in Hga.
      exists (twice ga), (twice gb). simpl. split_and!; [|  |done|done].
      + by eapply iadd_again_doubles.
      + by eapply iadd_again_doubles. }
  eexists. split.
  { apply (call_backward_add σ0' _ a b y oy na1 (set_grad gb nb) Hay Hby Hy0' Ha0' Hb0').
    exists ra, ga', rb, gb'. rewrite Hd1. split_and!; done. }
  destruct (lookups_after_add σ0' a b ga' gb' na1 (set_grad gb nb) Ha0' Hb0')
    as (Hb2 & Ha2 & Hother2).
  unfold grad_of. rewrite Hb2, Ha2, Ha1, Hb1, Hy1, Hother2, Hy0' by done.
  simpl. split_and!; [done| |by rewrite Hgb2].
  f_equal. revert Hga2. subst na1. by case_decide.
Qed.


(** * Further properties of the code *)

(** ** Arrays: indices are the tuples below the shape *)

Lemma elem_of_indices s j : j ∈ indices s ↔ Forall2 lt j s.
Proof.
  revert j. induction s as [|n s IH]; intros j.
  - simpl. rewrite list_elem_of_singleton. split.
    + intros ->. constructor.
    + by intros ->%Forall2_nil_inv_r.
  - rewrite elem_of_indices_cons. split.
    + intros (i & r & -> & Hi & Hr). constructor; [done|]. by apply IH.
    + intros H. apply Forall2_cons_inv_r in H as (i & r & Hi & Hr & ->).
      exists i, r. split_and!; [done|done|]. by apply IH.
Qed.

Lemma NoDup_indices s : NoDup (indices s).
Proof.
  induction s as [|n s IH]; simpl; [apply NoDup_singleton|].
  apply NoDup_bind.
  - intros i1 i2 j _ _ H1 H2.
    apply list_elem_of_fmap in H1 as (r1 & -> & _).
    apply list_elem_of_fmap in H2 as (r2 & [= ->] & _). done.
  - intros i _. apply NoDup_fmap_2; [|done]. by intros r1 r2 [=].
  - apply NoDup_seq.
Qed.

(** The index at position [k] has offset [k]. *)
Lemma ravel_lookup_indices s k j : indices s !! k = Some j → ravel s j = k.
Proof.
  intros Hk. assert (j ∈ indices s) as Hj by (by eapply list_elem_of_lookup_2).
  eapply NoDup_lookup; [apply NoDup_indices| |done].
  by apply lookup_indices_ravel.
Qed.

Lemma tabulate_item a : wf_array a → tabulate (shape a) (item a) = a.
Proof.
  unfold wf_array. destruct a as [s xs]. simpl. intros Hlen.
  unfold tabulate. f_equal. apply list_eq. intros k.
  rewrite list_lookup_fmap.
  destruct (indices s !! k) as [j|] eqn:Hj; simpl.
  - unfold item. simpl. rewrite (ravel_lookup_indices s k j Hj).
    apply lookup_lt_Some in Hj. rewrite indices_length in Hj.
    destruct (xs !! k) eqn:Hx; [done|].
    apply lookup_ge_None in Hx. lia.
  - apply lookup_ge_None in Hj. rewrite indices_length in Hj.
    symmetry. apply lookup_ge_None. lia.
Qed.

Lemma wf_tabulate s f : wf_array (tabulate s f).
Proof. unfold wf_array, tabulate. simpl. by rewrite length_fmap, indices_length. Qed.

Lemma wf_np_full s x : wf_array (np_full s x).
Proof. unfold wf_array, np_full. simpl. by rewrite length_replicate. Qed.

Lemma wf_np_map f a : wf_array a → wf_array (np_map f a).
Proof. unfold wf_array, np_map. simpl. by rewrite length_fmap. Qed.

Lemma item_np_full s x j : j ∈ indices s → item (np_full s x) j = x.
Proof.
  intros Hj. unfold item, np_full. simpl.
  rewrite lookup_replicate_2; [done|]. by apply ravel_lt.
Qed.

Lemma item_np_map f a j :
  wf_array a → j ∈ indices (shape a) → item (np_map f a) j = f (item a j).
Proof.
  intros Hwf Hj. unfold item, np_map. simpl. rewrite list_lookup_fmap.
  destruct (elems a !! _) eqn:Hx; [done|].
  apply lookup_ge_None in Hx. apply ravel_lt in Hj. unfold wf_array in Hwf. lia.
Qed.

Lemma np_map_as_tabulate f a :
  wf_array a → np_map f a = tabulate (shape a) (λ j, f (item a j)).
Proof. intros Hwf. by rewrite <- np_map_tabulate, tabulate_item. Qed.

(** *** Broadcasting an array to its own shape, or a 0-d array to any *)

Lemma bcast_index_self s j : j ∈ indices s → bcast_index s j = j.
Proof.
  rewrite elem_of_indices. intros H. unfold bcast_index.
  rewrite (Forall2_length _ _ _ H), Nat.sub_diag, drop_0.
  induction H as [|i n j s Hi _ IH]; [done|]. simpl. rewrite IH.
  case_decide; [|done]. f_equal. lia.
Qed.

Lemma bcast_index_nil j : bcast_index [] j = [].
Proof. done. Qed.

Lemma broadcast_rev_refl s : broadcast_rev s s = Some s.
Proof.
  induction s as [|n s IH]; [done|]. simpl. rewrite IH. simpl.
  by rewrite decide_True.
Qed.

Lemma broadcast_shapes_refl s : broadcast_shapes s s = Some s.
Proof.
  unfold broadcast_shapes. rewrite broadcast_rev_refl. simpl.
  by rewrite reverse_involutive.
Qed.

Lemma broadcast_shapes_nil_r s : broadcast_shapes s [] = Some s.
Proof.
  unfold broadcast_shapes. rewrite reverse_nil.
  destruct (reverse s) eqn:Hr; simpl; by rewrite <- Hr, reverse_involutive.
Qed.

(** ** Sums *)

Lemma sum_list_zero {B} (J : list B) : sum_list ((λ _, qz 0) <$> J) = qz 0.
Proof.
  induction J as [|j J IH]; [done|]. cbn [fmap list_fmap]. fold (fmap (M:=list) (λ _ : B, qz 0) J).
  unfold sum_list in *. simpl. rewrite IH, qz_0. ring.
Qed.

Lemma sum_list_cons x l : sum_list (x :: l) = (x + sum_list l)%Qc.
Proof. done. Qed.

(** Adding [x] to the one term selected by [b]. *)
Lemma sum_list_pick {B} `{EqDecision B} (g : B → Qc) (b : B) (x : Qc) (J : list B) :
  NoDup J →
  sum_list ((λ j, if decide (b = j) then x + g j else g j)%Qc <$> J)
  = ((if decide (b ∈ J) then x else qz 0) + sum_list (g <$> J))%Qc.
Proof.
  induction 1 as [|j J Hj Hnd IH].
  - rewrite decide_False by (by intros ?%elem_of_nil). unfold sum_list. simpl.
    rewrite qz_0. ring.
  - rewrite !fmap_cons, !sum_list_cons, IH.
    destruct (decide (b = j)) as [->|Hne].
    + rewrite (decide_True (P:=j ∈ j :: J)) by (by left).
      rewrite (decide_False (P:=j ∈ J)) by done.
      rewrite qz_0. ring.
    + destruct (decide (b ∈ J)) as [Hin|Hnin].
      * rewrite (decide_True (P:=b ∈ j :: J)) by (by right). ring.
      * rewrite (decide_False (P:=b ∈ j :: J)); [ring|].
        intros [?|?]%elem_of_cons; done.
Qed.

(** Summing the classes of a partition sums everything. *)
Lemma sum_partition {A B} `{EqDecision B} (f : A → Qc) (p : A → B)
    (I : list A) (J : list B) :
  NoDup J → (∀ i, i ∈ I → p i ∈ J) →
  sum_list ((λ j, sum_list (f <$> filter (λ i, p i = j) I)) <$> J)
  = sum_list (f <$> I).
Proof.
  intros Hnd. induction I as [|i I IH]; intros Hp.
  - simpl. apply sum_list_zero.
  - rewrite fmap_cons, sum_list_cons, <- IH
      by (intros i' Hi'; apply Hp; by right).
    set (g := λ j, sum_list (f <$> filter (λ i', p i' = j) I)).
    transitivity
      (sum_list ((λ j, if decide (p i = j) then f i + g j else g j)%Qc <$> J)).
    + f_equal. apply list_fmap_ext. intros _ j _.
      rewrite filter_cons. by case_decide.
    + rewrite sum_list_pick by done.
      rewrite decide_True; [done|]. apply Hp. by left.
Qed.

(** ** Reductions *)

Lemma squash_lt axes keepdims i (idx s : list nat) :
  Forall2 lt idx s →
  Forall2 lt (squash axes keepdims 0 i idx) (squash axes keepdims 1 i s).
Proof.
  intros H. revert i. induction H as [|j n idx s Hj _ IH]; intros i; [constructor|].
  simpl. apply Forall2_app; [|apply IH].
  case_bool_decide; [destruct keepdims|]; repeat constructor; done || lia.
Qed.

Lemma project_indices axes keepdims s i :
  i ∈ indices s → project axes keepdims i ∈ indices (reduced_shape axes keepdims s).
Proof. rewrite !elem_of_indices. apply squash_lt. Qed.

(** A reduction keeps the total of the array. *)
Lemma sum_over_total axes keepdims a :
  wf_array a →
  sum_list (elems (sum_over axes keepdims a)) = sum_list (elems a).
Proof.
  intros Hwf. unfold sum_over, tabulate. simpl.
  rewrite (sum_partition (item a) (project axes keepdims)).
  - exact (f_equal (λ b, sum_list (elems b)) (tabulate_item a Hwf)).
  - apply NoDup_indices.
  - intros i. apply project_indices.
Qed.

(** X2.  A target with more axes than the gradient makes the padding loop
    run for ever: the call does not return. *)
Theorem reshape_gradient_longer_target_diverges g target_shape :
  ndim g < length target_shape →
  reshape_gradient (NdArr g) target_shape = Err NonTermination.
Proof.
  intros Hlt. unfold reshape_gradient, ndim in *. cbn [shape_attr mbind result_bind].
  rewrite decide_False by (intros Heq; rewrite Heq in Hlt; lia).
  rewrite decide_False by (intros ->; simpl in Hlt; lia).
  by rewrite pad_target_shape_diverges.
Qed.

Lemma reshape_gradient_longer_target_diverges_witness :
  ndim (np_ones [3]) < length [1; 3]
  ∧ reshape_gradient (NdArr (np_ones [3])) [1; 3] = Err NonTermination.
Proof.
  assert (ndim (np_ones [3]) < length [1; 3]) as H by (compute; lia).
  split; [exact H|]. exact (reshape_gradient_longer_target_diverges _ _ H).
Defined.

(** X3.  [reshape_gradient_same_rank] for a gradient of shape [(2, 3)] and
    the target [(2, 1)]. *)
Lemma reshape_gradient_same_rank_witness :
  Forall2 (λ t n, t = n ∨ t = 1) [2; 1] (shape (np_ones [2; 3]))
  ∧ ∃ r, reshape_gradient (NdArr (np_ones [2; 3])) [2; 1] = Ok r ∧ shape r = [2; 1].
Proof.
  assert (Forall2 (λ t n, t = n ∨ t = 1) [2; 1] (shape (np_ones [2; 3]))) as H.
  { constructor; [by left|]. constructor; [by right|]. constructor. }
  split; [exact H|]. exact (reshape_gradient_same_rank _ _ H).
Defined.

(** ** [sum] *)

Lemma squash_all {A} n (one : A) i (l : list A) :
  i + length l ≤ n → squash (seq 0 n) false one i l = [].
Proof.
  revert i. induction l as [|x l IH]; intros i Hle; [done|].
  simpl in *. rewrite bool_decide_eq_true_2 by (apply elem_of_seq; lia).
  simpl. apply IH. lia.
Qed.

Lemma np_sum_all a :
  wf_array a → np_sum a AxNone false = Ok (np_scalar (sum_list (elems a))).
Proof.
  intros Hwf. unfold np_sum. f_equal.
  pose proof (sum_over_total (seq 0 (ndim a)) false a Hwf) as Ht.
  unfold sum_over, reduced_shape in *. rewrite squash_all in * by (unfold ndim; lia).
  unfold tabulate, np_scalar in *. simpl in *. f_equal. f_equal.
  rewrite <- Ht, qz_0. ring.
Qed.

Lemma alloc_backward (σ : store) n c :
  bind_backward (length σ) c (σ ++ [n]) = σ ++ [set_backward c n].
Proof.
  unfold bind_backward. apply list_eq. intros k.
  destruct (decide (k = length σ)) as [->|Hne].
  - rewrite list_lookup_alter_eq, !lookup_app_r, Nat.sub_diag by lia. done.
  - rewrite list_lookup_alter_ne by done.
    destruct (decide (k < length σ)).
    + by rewrite !lookup_app_l by lia.
    + rewrite !lookup_app_r by lia.
      destruct (k - length σ) as [|k'] eqn:Hk; [lia|done].
Qed.

(** ** [T] *)

Lemma np_T_involutive a : wf_array a → np_T (np_T a) = a.
Proof.
  intros Hwf. transitivity (tabulate (shape a) (item a)); [|by apply tabulate_item].
  unfold np_T at 1. replace (shape (np_T a)) with (reverse (shape a)) by done.
  rewrite reverse_involutive. apply tabulate_ext. intros j Hj.
  unfold np_T. rewrite item_tabulate.
  - by rewrite reverse_involutive.
  - apply elem_of_indices, Forall2_reverse. by apply elem_of_indices.
Qed.

Lemma Tensor_T_Ok x (σ : store) n :
  σ !! x = Some n →
  ∃ σ' ny, Tensor_T x σ = Ok (length σ, σ')
    ∧ σ' !! length σ = Some ny
    ∧ data ny = np_T (data n) ∧ _prev ny = {[x]}
    ∧ ∀ t, t < length σ → σ' !! t = σ !! t.
Proof.
  intros Hn. unfold Tensor_T. apply get_Ok in Hn as ->. cbn [mbind result_bind].
  unfold Tensor_init. rewrite alloc_backward. eexists _, _.
  split; [done|]. split; [by rewrite lookup_app_r, Nat.sub_diag by lia|].
  split; [done|]. split; [simpl; by rewrite union_empty_r_L|].
  intros t Ht. by rewrite lookup_app_l.
Qed.

(** X5.  Transposing a tensor twice succeeds and gives a tensor with the
    data of the first; each transposition records its operand as the only
    parent and leaves the operand as it was. *)
Theorem transpose_twice_restores_data x (σ : store) n :
  σ !! x = Some n → wf_array (data n) →
  ∃ y σ1 z σ2,
    Tensor_T x σ = Ok (y, σ1) ∧ Tensor_T y σ1 = Ok (z, σ2)
    ∧ data_of σ2 z = Some (data n)
    ∧ parents_of σ1 y = Some {[x]} ∧ parents_of σ2 z = Some {[y]}
    ∧ σ2 !! x = Some n.
Proof.
  intros Hn Hwf. apply lookup_lt_Some in Hn as Hlt.
  destruct (Tensor_T_Ok x σ n Hn) as (σ1 & ny & H1 & Hy & Hdy & Hpy & Hf1).
  destruct (Tensor_T_Ok _ σ1 ny Hy) as (σ2 & nz & H2 & Hz & Hdz & Hpz & Hf2).
  apply lookup_lt_Some in Hy as Hlt1.
  exists (length σ), σ1, (length σ1), σ2. split_and!; [done|done|..].
  - unfold data_of. rewrite Hz. simpl. by rewrite Hdz, Hdy, np_T_involutive.
  - unfold parents_of. by rewrite Hy, <- Hpy.
  - unfold parents_of. by rewrite Hz, <- Hpz.
  - rewrite Hf2, Hf1 by lia. done.
Qed.

Lemma transpose_twice_restores_data_witness :
  ∃ y σ1 z σ2,
    Tensor_T 0 two_matrices = Ok (y, σ1) ∧ Tensor_T y σ1 = Ok (z, σ2)
    ∧ data_of σ2 z = Some (int_array [2; 2] [1; 2; 3; 4]%Z).
Proof.
  assert (two_matrices !! 0 = Some (MkTensor (int_array [2; 2] [1; 2; 3; 4]%Z) ""
            (NdArr (np_zeros [2; 2])) true false None back_none ∅ (Tag "")))
    as Hn by reflexivity.
  assert (wf_array (int_array [2; 2] [1; 2; 3; 4]%Z)) as Hwf by reflexivity.
  destruct (transpose_twice_restores_data 0 two_matrices _ Hn Hwf)
    as (y & σ1 & z & σ2 & H1 & H2 & H3 & _).
  by exists y, σ1, z, σ2.
Defined.

(** ** What [backward] and [step] leave alone *)

Lemma set_grad_same n : set_grad (grad n) n = n.
Proof. by destruct n. Qed.

Lemma set_data_same n : set_data (data n) n = n.
Proof. by destruct n. Qed.

Lemma grads_moved_refl σ : grads_moved σ σ.
Proof.
  split; [done|]. intros t n Hn. exists (grad n).
  rewrite set_grad_same. split; [done|]. intros a ->. by exists a.
Qed.

Lemma grads_moved_trans σ1 σ2 σ3 :
  grads_moved σ1 σ2 → grads_moved σ2 σ3 → grads_moved σ1 σ3.
Proof.
  intros [Hl1 H1] [Hl2 H2]. split; [congruence|].
  intros t n Hn. destruct (H1 t n Hn) as (g & Hg & Hs).
  destruct (H2 t _ Hg) as (g' & Hg' & Hs'). exists g'. split; [done|].
  intros a Ha. destruct (Hs a Ha) as (a' & -> & Ha').
  destruct (Hs' a' eq_refl) as (a'' & -> & Ha''). exists a''. split; [done|congruence].
Qed.

Lemma np_inplace_shape f a b r : np_inplace f a b = Ok r → shape r = shape a.
Proof.
  unfold np_inplace. destruct (broadcast_shapes _ _) as [s|]; [|done].
  case_decide; [|done]. by intros [= <-].
Qed.

Lemma augmented_array f fz a v g :
  augmented f fz (NdArr a) v = Ok g → ∃ a', g = NdArr a' ∧ shape a' = shape a.
Proof.
  simpl. intros (r & Hr & ->)%fmap_Ok. exists r. split; [done|].
  by eapply np_inplace_shape.
Qed.

Lemma grad_update_moved f fz t v (σ σ' : store) :
  (n ← get σ t; g ← augmented f fz (grad n) v; Ok (<[t := set_grad g n]> σ)) = Ok σ' →
  grads_moved σ σ'.
Proof.
  intros (n & Hn%get_Ok & (g & Hg & [= <-])%bind_Ok)%bind_Ok.
  split; [by rewrite length_insert|]. intros u m Hm.
  destruct (decide (u = t)) as [->|Hne].
  - assert (m = n) as -> by congruence. exists g. split.
    + apply list_lookup_insert_eq. by eapply lookup_lt_Some.
    + intros a Ha. rewrite Ha in Hg. by eapply augmented_array.
  - exists (grad m). rewrite set_grad_same, list_lookup_insert_ne by done.
    split; [done|]. intros a ->. by exists a.
Qed.

Lemma grad_iadd_moved t v (σ σ' : store) : grad_iadd t v σ = Ok σ' → grads_moved σ σ'.
Proof. apply grad_update_moved. Qed.

Lemma grad_isub_moved t v (σ σ' : store) : grad_isub t v σ = Ok σ' → grads_moved σ σ'.
Proof. apply grad_update_moved. Qed.

(** Every closure only adds to gradients. *)
Lemma call_backward_moved c (σ σ' : store) :
  call_backward c σ = Ok σ' → grads_moved σ σ'.
Proof.
  destruct c; cbn [call_backward]; intros H;
    repeat
      match type of H with
      | grad_iadd _ _ _ = Ok _ => apply grad_iadd_moved in H
      | grad_isub _ _ _ = Ok _ => apply grad_isub_moved in H
      | (if ?b then _ else _) = Ok _ => destruct b
      | Ok _ = Ok _ => injection H as <-
      | (grad_iadd ?t ?v ?s ≫= _) = Ok _ =>
          let s' := fresh "s" in let Hm := fresh "Hm" in
          apply bind_Ok in H as (s' & Hm%grad_iadd_moved & H);
          eapply grads_moved_trans; [exact Hm|]; clear Hm
      | (_ ≫= _) = Ok _ => apply bind_Ok in H as (? & _ & H)
      end;
    try done; apply grads_moved_refl.
Qed.

Lemma for_each_moved {A} (f : A → store → result store) l (σ σ' : store) :
  (∀ x s s', f x s = Ok s' → grads_moved s s') →
  for_each f l σ = Ok σ' → grads_moved σ σ'.
Proof.
  intros Hf. revert σ. induction l as [|x l IH]; intros σ; simpl.
  - intros [= <-]. apply grads_moved_refl.
  - intros (s1 & H1 & H)%bind_Ok.
    eapply grads_moved_trans; [by eapply Hf | by apply IH].
Qed.

Lemma run_backward_moved node (σ σ' : store) :
  run_backward node σ = Ok σ' → grads_moved σ σ'.
Proof.
  unfold run_backward. intros (n & _ & H)%bind_Ok. by eapply call_backward_moved.
Qed.

(** X6.  [backward] changes gradients and nothing else: the store keeps its
    length and every tensor keeps its value, flags, parents and closure. *)
Theorem backward_changes_gradients_only depth self (σ σ' : store) :
  backward depth self σ = Ok σ' →
  length σ' = length σ
  ∧ ∀ t n, σ !! t = Some n → ∃ g, σ' !! t = Some (set_grad g n).
Proof.
  unfold backward. intros (topo & _ & (s & Hs%get_Ok & H)%bind_Ok)%bind_Ok.
  apply (for_each_moved _ _ _ _ run_backward_moved) in H as [Hl H].
  rewrite length_insert in Hl. split; [done|]. intros t n Hn.
  destruct (decide (t = self)) as [->|Hne].
  - assert (n = s) as -> by congruence.
    destruct (H self (set_grad (NdArr (np_ones (shape (data s)))) s)) as (g & Hg & _).
    { apply list_lookup_insert_eq. by eapply lookup_lt_Some. }
    by exists g.
  - destruct (H t n) as (g & Hg & _); [by rewrite list_lookup_insert_ne|].
    by exists g.
Qed.

Lemma backward_changes_gradients_only_witness :
  ∃ σ', backward 2 2 broadcast_sum_store = Ok σ'
    ∧ length σ' = length broadcast_sum_store
    ∧ data_of σ' 1 = data_of broadcast_sum_store 1.
Proof.
  eexists.
  destruct (backward_changes_gradients_only 2 2 broadcast_sum_store _ eq_refl)
    as [Hl H].
  split; [reflexivity|]. split; [exact Hl|].
  destruct (broadcast_sum_store !! 1) as [n|] eqn:Hn; [|by vm_compute in Hn].
  destruct (H 1 n Hn) as (g & Hg). unfold data_of. by rewrite Hg, Hn.
Defined.

Lemma grads_shaped_moved σ σ' : grads_shaped σ → grads_moved σ σ' → grads_shaped σ'.
Proof.
  intros Hs [Hl Hm] t n' Hn'.
  destruct (σ !! t) as [n|] eqn:Hn.
  - destruct (Hm t n Hn) as (g & Hg & Hsh).
    assert (n' = set_grad g n) as -> by congruence.
    destruct (Hs t n Hn) as (a & Ha & Hsa).
    destruct (Hsh a Ha) as (a' & -> & Ha'). exists a'. split; [done|].
    simpl. congruence.
  - apply lookup_ge_None in Hn. apply lookup_lt_Some in Hn'. lia.
Qed.

Lemma data_moved_refl σ : data_moved σ σ.
Proof.
  split; [done|]. intros t n Hn. exists (data n). by rewrite set_data_same.
Qed.

Lemma data_moved_trans σ1 σ2 σ3 :
  data_moved σ1 σ2 → data_moved σ2 σ3 → data_moved σ1 σ3.
Proof.
  intros [Hl1 H1] [Hl2 H2]. split; [congruence|].
  intros t n Hn. destruct (H1 t n Hn) as (d & Hd & Hs).
  destruct (H2 t _ Hd) as (d' & Hd' & Hs'). exists d'. split; [done|].
  simpl in Hs'. congruence.
Qed.

Lemma update_moved lr node (σ σ' : store) :
  update lr node σ = Ok σ' → data_moved σ σ'.
Proof.
  intros (n & Hn & H)%update_Ok. revert H.
  destruct (req_grad n); [|intros ->; apply data_moved_refl].
  intros (d & Hd & ->). split; [by rewrite length_insert|].
  intros u m Hm. destruct (decide (u = node)) as [->|Hne].
  - assert (m = n) as -> by congruence. exists d. split.
    + apply list_lookup_insert_eq. by eapply lookup_lt_Some.
    + by eapply np_inplace_shape.
  - exists (data m). by rewrite set_data_same, list_lookup_insert_ne.
Qed.

Lemma for_each_update_moved lr l (σ σ' : store) :
  for_each (update lr) l σ = Ok σ' → data_moved σ σ'.
Proof.
  revert σ. induction l as [|x l IH]; intros σ; simpl.
  - intros [= <-]. apply data_moved_refl.
  - intros (s1 & H1 & H)%bind_Ok.
    eapply data_moved_trans; [by eapply update_moved | by apply IH].
Qed.

Lemma grads_shaped_data_moved σ σ' : grads_shaped σ → data_moved σ σ' → grads_shaped σ'.
Proof.
  intros Hs [Hl Hm] t n' Hn'.
  destruct (σ !! t) as [n|] eqn:Hn.
  - destruct (Hm t n Hn) as (d & Hd & Hsh).
    assert (n' = set_data d n) as -> by congruence.
    destruct (Hs t n Hn) as (a & Ha & Hsa).
    exists a. simpl. split; [done|congruence].
  - apply lookup_ge_None in Hn. apply lookup_lt_Some in Hn'. lia.
Qed.

(** X7.  When every gradient is an array of its value's shape, it is so
    again after [backward] and after [step]. *)
Theorem backward_and_step_keep_gradient_shapes depth self (σ : store) :
  grads_shaped σ →
  (∀ σ', backward depth self σ = Ok σ' → grads_shaped σ')
  ∧ (∀ lr σ', step depth self lr σ = Ok σ' → grads_shaped σ').
Proof.
  intros Hs. split.
  - intros σ'. unfold backward.
    intros (topo & _ & (s & Hn%get_Ok & H)%bind_Ok)%bind_Ok.
    apply (for_each_moved _ _ _ _ run_backward_moved) in H.
    eapply grads_shaped_moved; [|done].
    intros t n Ht. destruct (decide (t = self)) as [->|Hne].
    + rewrite list_lookup_insert_eq in Ht by (by eapply lookup_lt_Some).
      injection Ht as <-. by eexists.
    + rewrite list_lookup_insert_ne in Ht by done. by apply (Hs t).
  - intros lr σ'. unfold step. intros (topo & _ & H)%bind_Ok.
    apply for_each_update_moved in H. by eapply grads_shaped_data_moved.
Qed.

Lemma broadcast_sum_store_shaped : grads_shaped broadcast_sum_store.
Proof.
  intros [|[|[|t]]] n; [intros [= <-]; by eexists..|].
  intros H. by vm_compute in H.
Qed.

Lemma backward_and_step_keep_gradient_shapes_witness :
  grads_shaped broadcast_sum_store
  ∧ ∃ σ', backward 2 2 broadcast_sum_store = Ok σ' ∧ grads_shaped σ'.
Proof.
  split; [exact broadcast_sum_store_shaped|]. eexists. split; [reflexivity|].
  exact (proj1 (backward_and_step_keep_gradient_shapes 2 2 _
                  broadcast_sum_store_shaped) _ eq_refl).
Defined.

(** ** Operations only append to the store *)




Lemma get_lt (σ : store) t n : get σ t = Ok n → t < length σ.
Proof. intros H%get_Ok. by eapply lookup_lt_Some. Qed.














Section KernelsGrow.

Variables np_exp np_log : Qc → Qc.
Variable np_power : Qc → pynum → Qc.






End KernelsGrow.



(** ** The traversal of a graph without cycles *)

Lemma ancestor_rank (σ : store) self rank a x :
  ranked σ self rank → ancestor σ self a → ancestor σ a x → rank x ≤ rank a.
Proof.
  intros Hr Ha. induction 1 as [|a b c (n & Hn & Hp) _ IH]; [done|].
  destruct (Hr _ _ _ Ha Hn Hp) as [Hlt _].
  assert (ancestor σ self b) as Hb.
  { eapply rtc_r; [done|]. by exists n. }
  specialize (IH Hb). lia.
Qed.

Lemma parents_older_ranked (σ : store) self : parents_older σ → ranked σ self id.
Proof.
  intros Ho t n p _ Hn Hp. specialize (Ho _ _ _ Hn Hp).
  apply lookup_lt_Some in Hn. simpl. lia.
Qed.

Lemma parents_first_elem (σ : store) topo x p :
  parents_first σ topo → x ∈ topo → parent σ x p → p ∈ topo.
Proof.
  intros Hf (i & Hi)%list_elem_of_lookup Hp.
  destruct (Hf i x p Hi Hp) as (j & _ & Hj). by eapply list_elem_of_lookup_2.
Qed.

Lemma parents_first_closed (σ : store) topo x y :
  parents_first σ topo → x ∈ topo → ancestor σ x y → y ∈ topo.
Proof.
  intros Hf Hx Ha. induction Ha as [|a b c Hp _ IH]; [done|].
  apply IH. by eapply parents_first_elem.
Qed.

Lemma parents_first_snoc (σ : store) topo x :
  parents_first σ topo → (∀ p, parent σ x p → p ∈ topo) →
  parents_first σ (topo ++ [x]).
Proof.
  intros Hf Hx i y p Hi Hp.
  destruct (decide (i < length topo)) as [Hlt|Hge].
  - rewrite lookup_app_l in Hi by done.
    destruct (Hf i y p Hi Hp) as (j & Hj & Hl). exists j. split; [done|].
    rewrite lookup_app_l; [done|lia].
  - rewrite lookup_app_r in Hi by lia.
    apply list_lookup_singleton_Some in Hi as [Hi ->].
    apply Hx in Hp as (j & Hj)%list_elem_of_lookup.
    pose proof (lookup_lt_Some _ _ _ Hj). exists j. split; [lia|].
    by rewrite lookup_app_l.
Qed.

Lemma visit_pre_mono (σ : store) rank b b' st :
  b' ≤ b → visit_pre σ rank b st → visit_pre σ rank b' st.
Proof.
  intros Hb (Hi & Hf & Hp). split_and!; [done..|].
  intros x Hx Hx'. specialize (Hp x Hx Hx'). lia.
Qed.

Lemma visit_pre_after (σ : store) rank b roots st st' :
  visit_pre σ rank b st → visited_from σ roots st st' → visit_pre σ rank b st'.
Proof.
  intros ([Hnd Hsub] & Hf & Hp) (l & Hl & Hv & Hx & Hnd' & Hf').
  split_and!; [split; [done|]|done|].
  - intros x. rewrite Hl, Hv, elem_of_app, elem_of_union, elem_of_list_to_set.
    intros [?|?]; auto.
  - intros x. rewrite Hl, Hv, elem_of_app, elem_of_union, elem_of_list_to_set.
    intros [Hin|Hin] Hnot; [|tauto]. apply Hp; [done|tauto].
Qed.

Lemma visited_from_cons (σ : store) c cs st st1 st2 :
  visited_from σ [c] st st1 → visited_from σ cs st1 st2 →
  visited_from σ (c :: cs) st st2.
Proof.
  intros (l1 & Hl1 & Hv1 & Hx1 & _ & _) (l2 & Hl2 & Hv2 & Hx2 & Hnd & Hf).
  exists (l1 ++ l2). split_and!; [| | |done|done].
  - by rewrite Hl2, Hl1, app_assoc.
  - rewrite Hv2, Hv1, list_to_set_app_L. by rewrite (assoc_L (∪)).
  - intros x. rewrite elem_of_app, Hx1, Hx2, Hl1, elem_of_app. split.
    + intros [[(r & ->%list_elem_of_singleton & Ha) Hn]|[(r & Hr & Ha) Hn]].
      * split; [|done]. exists c. split; [left|done].
      * split; [|tauto]. exists r. split; [by right|done].
    + intros [(r & Hr & Ha) Hn]. apply elem_of_cons in Hr as [->|Hr].
      * left. split; [|done]. exists c. split; [by left|done].
      * destruct (decide (x ∈ l1)) as [Hin|Hout].
        { left. by apply Hx1. }
        right. split; [by exists r|]. tauto.
Qed.

Lemma build_topo_visits (σ : store) self rank :
  ranked σ self rank →
  ∀ depth node st,
    ancestor σ self node → rank node < depth → node < length σ →
    visit_pre σ rank (S (rank node)) st →
    ∃ st', build_topo depth σ node st = Ok st' ∧ visited_from σ [node] st st'.
Proof.
  intros Hr. induction depth as [|depth IH]; intros node st Ha Hd Hlen Hpre; [lia|].
  rewrite build_topo_S. destruct Hpre as ([Hnd Hsub] & Hf & Hpend).
  case_decide as Hv.
  - exists st. split; [done|]. exists []. rewrite app_nil_r. simpl.
    split_and!; [done|by rewrite (right_id_L ∅ (∪))| |done|done].
    assert (node ∈ st.1) as Hin.
    { destruct (decide (node ∈ st.1)) as [|Hout]; [done|].
      specialize (Hpend node Hv Hout). lia. }
    intros x. split; [by intros ?%elem_of_nil|].
    intros [(r & ->%list_elem_of_singleton & Hax) Hn]. destruct Hn.
    by eapply parents_first_closed.
  - destruct (lookup_lt_is_Some_2 σ node Hlen) as [n Hn].
    assert (get σ node = Ok n) as -> by by apply get_Ok.
    cbn [mbind result_bind].
    assert (node ∉ st.1) as Hout by (intros Hin; by apply Hv, Hsub).
    assert (∀ c, c ∈ elements (_prev n) ↔ parent σ node c) as Hcs.
    { intros c. rewrite elem_of_elements. split.
      - intros Hc. by exists n.
      - intros (n' & Hn' & Hc). by simplify_eq. }
    assert (∀ c, parent σ node c →
              rank c < rank node ∧ c < length σ ∧ ancestor σ self c) as Hpar.
    { intros c (n' & Hn' & Hc). destruct (Hr _ _ _ Ha Hn' Hc) as [? ?].
      split_and!; [done|done|]. eapply rtc_r; [done|]. by exists n'. }
    assert (∀ cs s, (∀ c, c ∈ cs → parent σ node c) →
              visit_pre σ rank (rank node) s →
              ∃ s', for_each (build_topo depth σ) cs s = Ok s'
                    ∧ visited_from σ cs s s') as Hloop.
    { induction cs as [|c cs IHcs]; intros s Hlt Hs.
      - exists s. split; [done|]. exists []. rewrite app_nil_r. simpl.
        destruct Hs as ([? ?] & ? & ?).
        split_and!; [done|by rewrite (right_id_L ∅ (∪))| |done|done].
        intros x. split; [by intros ?%elem_of_nil|].
        by intros [(r & ?%elem_of_nil & _) _].
      - destruct (Hpar c) as (Hc & Hcl & Hac); [apply Hlt; left|].
        destruct (IH c s) as (s1 & H1 & Hv1); [done|lia|done| |].
        { eapply visit_pre_mono; [|done]. lia. }
        destruct (IHcs s1) as (s2 & H2 & Hv2).
        { intros c' Hc'. apply Hlt. by right. }
        { by eapply visit_pre_after. }
        exists s2. split; [|by eapply visited_from_cons].
        cbn [for_each]. rewrite H1. cbn [mbind result_bind]. done. }
    destruct (Hloop (elements (_prev n)) (st.1, {[node]} ∪ st.2))
      as (s' & -> & l & Hl & Hvis & Hx & Hnd' & Hf').
    { intros c Hc. by apply Hcs. }
    { split_and!; simpl.
      - split; [done|]. intros x Hx. apply elem_of_union_r. by apply Hsub.
      - done.
      - intros x [->%elem_of_singleton|Hx]%elem_of_union Hx'; [lia|].
        specialize (Hpend x Hx Hx'). lia. }
    cbn [mbind result_bind]. simpl in Hl, Hvis, Hx. eexists. split; [done|].
    assert (node ∉ l) as Hnl.
    { intros [(r & Hrp%Hcs & Har) _]%Hx.
      destruct (Hpar r Hrp) as (Hlt & _ & Hsr).
      pose proof (ancestor_rank _ _ _ _ _ Hr Hsr Har). lia. }
    exists (l ++ [node]). simpl. split_and!.
    + by rewrite Hl, app_assoc.
    + rewrite Hvis, list_to_set_app_L. simpl. rewrite (right_id_L ∅ (∪)).
      rewrite (comm_L (∪) (list_to_set l)), (assoc_L (∪)).
      by rewrite (comm_L (∪) st.2).
    + intros x. rewrite elem_of_app, Hx, list_elem_of_singleton. split.
      * intros [[(r & Hrp%Hcs & Har) Hn']| ->].
        -- split; [|done]. exists node. split; [left|]. by eapply rtc_l.
        -- split; [|done]. exists node. split; [left|done].
      * intros [(r & ->%list_elem_of_singleton & Har) Hn'].
        apply rtc_inv in Har as [->|(c & Hc & Har)]; [by right|].
        left. split; [|done]. exists c. split; [by apply Hcs|done].
    + rewrite Hl. apply NoDup_app. split_and!.
      * by rewrite Hl in Hnd'.
      * intros x Hin ->%list_elem_of_singleton.
        apply elem_of_app in Hin as [?|?]; tauto.
      * apply NoDup_singleton.
    + apply parents_first_snoc; [done|].
      intros p Hp. rewrite Hl. apply elem_of_app.
      destruct (decide (p ∈ st.1)) as [|Hpo]; [by left|]. right.
      apply Hx. split; [|done]. exists p. by split; [apply Hcs|].
Qed.

(** The traversal from [self] returns when the frames exceed the rank of
    [self]; the list is [self] and its ancestors, each once, parents
    first. *)
Lemma traverse_ancestors (σ : store) rank depth self :
  ranked σ self rank → self < length σ → rank self < depth →
  ∃ topo, _traverse_children depth σ self = Ok topo
          ∧ NoDup topo
          ∧ (∀ x, x ∈ topo ↔ ancestor σ self x)
          ∧ parents_first σ topo
          ∧ last topo = Some self.
Proof.
  intros Hr Hlen Hd.
  destruct (build_topo_visits σ self rank Hr depth self ([], ∅)) as (st' & H & Hv);
    [done|done|done| |].
  { split_and!; simpl.
    - split; [apply NoDup_nil_2|]. by intros x ?%elem_of_nil.
    - by intros i x p ?.
    - by intros x ?%not_elem_of_empty. }
  assert (_traverse_children depth σ self = Ok st'.1) as Ht.
  { unfold _traverse_children. by rewrite H. }
  exists st'.1. split; [done|].
  destruct Hv as (l & Hl & _ & Hx & Hnd & Hf). simpl in Hl, Hx.
  split_and!; [done| |done|].
  - intros x. rewrite Hl, Hx. split.
    + by intros [(r & ->%list_elem_of_singleton & Ha) _].
    + intros Ha. split; [|by intros ?%elem_of_nil]. exists self. split; [left|done].
  - apply traverse_root_last in Ht as (_ & l' & -> & _). by rewrite last_snoc.
Qed.

(** X9.  When the graph below [self] has no cycle ([rank] decreases from
    every tensor to its parents; on a store whose parents are older than
    their children the identity is such a rank), the traversal from
    [self] returns as soon as the frames exceed the rank of [self]; the
    list has no duplicates, holds [self] and its ancestors and nothing
    else, lists every tensor after its parents, and ends with [self]. *)
Theorem traverse_children_lists_ancestors (σ : store) rank depth self :
  ranked σ self rank → self < length σ → rank self < depth →
  ∃ topo, _traverse_children depth σ self = Ok topo
          ∧ NoDup topo
          ∧ (∀ x, x ∈ topo ↔ ancestor σ self x)
          ∧ parents_first σ topo
          ∧ last topo = Some self.
Proof.
  apply traverse_ancestors.
Qed.

Lemma broadcast_sum_store_older : parents_older broadcast_sum_store.
Proof.
  intros [|[|[|t]]] n p H; vm_compute in H; [| | |done];
    injection H as <-; simpl.
  - by intros ?%not_elem_of_empty.
  - by intros ?%not_elem_of_empty.
  - intros Hp%elem_of_elements. set (l := elements _) in Hp.
    vm_compute in l. subst l.
    repeat (apply elem_of_cons in Hp as [->|Hp]; [lia|]). by apply elem_of_nil in Hp.
Qed.

Lemma traverse_children_lists_ancestors_witness :
  ∃ topo, _traverse_children 3 broadcast_sum_store 2 = Ok topo
          ∧ NoDup topo
          ∧ (∀ x, x ∈ topo ↔ ancestor broadcast_sum_store 2 x)
          ∧ parents_first broadcast_sum_store topo
          ∧ last topo = Some 2.
Proof.
  apply (traverse_children_lists_ancestors broadcast_sum_store id 3 2).
  - exact (parents_older_ranked _ _ broadcast_sum_store_older).
  - vm_compute. lia.
  - simpl. lia.
Defined.

(** ** One-operand operations on a fresh leaf *)

Lemma qz_1 : qz 1 = 1%Qc.
Proof. by apply Qc_is_canon. Qed.

Lemma mul_by_ones a s :
  wf_array a → s = shape a ∨ s = [] →
  mul_array_val a (NdArr (np_ones s)) = Ok a.
Proof.
  intros Hwf Hs. unfold mul_array_val, np_multiply, np_binary. simpl.
  assert (broadcast_shapes (shape a) s = Some (shape a)) as ->.
  { destruct Hs as [-> | ->];
      [apply broadcast_shapes_refl | apply broadcast_shapes_nil_r]. }
  f_equal. transitivity (tabulate (shape a) (item a)); [|by apply tabulate_item].
  apply tabulate_ext. intros j Hj. rewrite bcast_index_self by done.
  unfold np_ones. rewrite item_np_full.
  - rewrite qz_1. ring.
  - destruct Hs as [-> | ->]; [by rewrite bcast_index_self|].
    rewrite bcast_index_nil. simpl. by left.
Qed.

Lemma iadd_to_zeros a :
  wf_array a → iadd (NdArr (np_zeros (shape a))) (NdArr a) = Ok (NdArr a).
Proof.
  intros Hwf. apply iadd_arrays. simpl. split; [apply broadcast_shapes_refl|].
  f_equal. transitivity (tabulate (shape a) (item a)); [by rewrite tabulate_item|].
  apply tabulate_ext. intros j Hj.
  rewrite bcast_index_self, item_np_zeros, qz_0 by done. ring.
Qed.

Lemma isub_from_zeros a :
  wf_array a →
  isub (NdArr (np_zeros (shape a))) (NdArr a) = Ok (NdArr (np_map Qcopp a)).
Proof.
  intros Hwf. unfold isub, augmented, np_inplace. simpl.
  rewrite broadcast_shapes_refl. rewrite decide_True by done. simpl.
  do 2 f_equal. rewrite (np_map_as_tabulate Qcopp a Hwf).
  apply tabulate_ext. intros j Hj.
  rewrite bcast_index_self, item_np_zeros, qz_0 by done. ring.
Qed.

Lemma np_map_np_map f g a : np_map f (np_map g a) = np_map (λ x, f (g x)) a.
Proof. unfold np_map. simpl. by rewrite <- list_fmap_compose. Qed.

(** The traversal from a tensor whose only parent is a leaf. *)
Lemma traverse_one_leaf_parent depth (σ : store) x y ny :
  σ !! y = Some ny → _prev ny = list_to_set [x] → leaf_like σ x → x ≠ y →
  _traverse_children (S (S depth)) σ y = Ok [x; y].
Proof.
  intros Hy Hp (n & Hn & _ & Hpn) Hxy. unfold _traverse_children.
  rewrite build_topo_S.
  destruct (decide (y ∈ _)) as [Hin|_]; [by apply not_elem_of_empty in Hin|].
  apply get_Ok in Hy as ->. cbn [mbind result_bind fst snd].
  assert (list_to_set [x] =@{gset nat} {[x]}) as Hs
    by (simpl; by rewrite (right_id_L ∅ (∪))).
  rewrite Hp, Hs, elements_singleton.
  cbn [for_each]. rewrite build_topo_S. cbn [fst snd].
  rewrite decide_False.
  2:{ intros [Hin%elem_of_singleton|Hin%not_elem_of_empty]%elem_of_union; done. }
  apply get_Ok in Hn as ->. cbn [mbind result_bind].
  rewrite Hpn, elements_empty. done.
Qed.

(** [y = f(x); y.backward()] for a one-operand operation [f] on a fresh
    leaf [x], when the value of [y] has the shape of [x] or no axes: the
    gradient of [x] is the local factor, negated when the closure
    subtracts. *)
Lemma unary_backward_on_leaf forward tag sub g depth (σ : store) x n d :
  σ !! x = Some n → _backward n = back_none → _prev n = ∅ →
  grad n = NdArr (np_zeros (shape (data n))) →
  wf_array (data n) →
  forward (data n) = Ok d → shape d = shape (data n) ∨ shape d = [] →
  ∃ σ1 σ2,
    Tensor_unary forward tag sub (np_map g) x σ = Ok (length σ, σ1)
    ∧ data_of σ1 (length σ) = Some d
    ∧ backward (2 + depth) (length σ) σ1 = Ok σ2
    ∧ grad_of σ2 x
      = Some (NdArr (np_map (λ v, if sub then (- g v)%Qc else g v) (data n))).
Proof.
  intros Hn Hb Hp Hg Hwf Hf Hsh.
  set (y := length σ).
  set (ny := MkTensor d "" (NdArr (np_zeros (shape d))) false false None
               (BackLocal sub x y (np_map g)) (list_to_set [x]) tag).
  assert (x < y) as Hxy by (by eapply lookup_lt_Some).
  assert (Tensor_unary forward tag sub (np_map g) x σ = Ok (y, σ ++ [ny])) as H1.
  { unfold Tensor_unary. apply get_Ok in Hn as ->. cbn [mbind result_bind].
    rewrite Hf. cbn [mbind result_bind]. unfold Tensor_init.
    by rewrite alloc_backward. }
  assert ((σ ++ [ny]) !! x = Some n) as Hx1 by (by rewrite lookup_app_l).
  assert ((σ ++ [ny]) !! y = Some ny) as Hy1.
  { subst y. by rewrite lookup_app_r, Nat.sub_diag by lia. }
  assert (y < length (σ ++ [ny])) as Hylen by (by eapply lookup_lt_Some).
  set (oy := set_grad (NdArr (np_ones (shape d))) ny).
  set (p := np_map g (data n)).
  assert (wf_array p) as Hwfp by (by apply wf_np_map).
  set (gx := if sub then NdArr (np_map Qcopp p) else NdArr p).
  exists (σ ++ [ny]), (<[x := set_grad gx n]> (<[y := oy]> (σ ++ [ny]))).
  split_and!; [done|unfold data_of; by rewrite Hy1| |].
  - unfold backward.
    rewrite (traverse_one_leaf_parent depth _ x y ny); [|done|done| |lia].
    2:{ by exists n. }
    cbn [mbind result_bind]. apply get_Ok in Hy1 as Hy1'. rewrite Hy1'.
    cbn [mbind result_bind]. change (reverse [x; y]) with [y; x].
    change (set_grad (NdArr (np_ones (shape (data ny)))) ny) with oy.
    set (σ2 := <[y := oy]> (σ ++ [ny])).
    assert (σ2 !! y = Some oy) as Hy2 by (by apply list_lookup_insert_eq).
    assert (σ2 !! x = Some n) as Hx2.
    { subst σ2. rewrite list_lookup_insert_ne by lia. done. }
    apply get_Ok in Hy2 as Hy2'. apply get_Ok in Hx2 as Hx2'.
    assert (run_backward y σ2 = Ok (<[x := set_grad gx n]> σ2)) as Hr1.
    { unfold run_backward. rewrite Hy2'. cbn [mbind result_bind]. simpl _backward.
      cbn [call_backward]. rewrite Hy2', Hx2'. cbn [mbind result_bind].
      simpl grad. fold p. rewrite (mul_by_ones p (shape d)); [|done|].
      2:{ destruct Hsh as [Hsh|Hsh]; [by left|by right]. }
      cbn [mbind result_bind].
      subst gx. destruct sub; unfold grad_isub, grad_iadd; rewrite Hx2';
        cbn [mbind result_bind]; rewrite Hg;
        change (shape (data n)) with (shape p).
      - by rewrite isub_from_zeros.
      - by rewrite iadd_to_zeros. }
    assert (run_backward x (<[x := set_grad gx n]> σ2)
            = Ok (<[x := set_grad gx n]> σ2)) as Hr2.
    { unfold run_backward.
      assert (get (<[x := set_grad gx n]> σ2) x = Ok (set_grad gx n)) as ->.
      { apply get_Ok, list_lookup_insert_eq. by eapply lookup_lt_Some. }
      cbn [mbind result_bind]. simpl _backward. by rewrite Hb. }
    cbn [for_each]. rewrite Hr1. cbn [mbind result_bind]. rewrite Hr2. done.
  - unfold grad_of. rewrite list_lookup_insert_eq.
    2:{ rewrite length_insert. by eapply lookup_lt_Some. }
    simpl. subst gx p. destruct sub; [|done]. by rewrite np_map_np_map.
Qed.

Lemma unary_on_fresh_leaf forward tag sub g depth (σ : store) x n d :
  σ !! x = Some n → fresh_leaf σ x → wf_array (data n) →
  forward (data n) = Ok d → shape d = shape (data n) ∨ shape d = [] →
  ∃ σ1 σ2,
    Tensor_unary forward tag sub (np_map g) x σ = Ok (length σ, σ1)
    ∧ data_of σ1 (length σ) = Some d
    ∧ backward (2 + depth) (length σ) σ1 = Ok σ2
    ∧ grad_of σ2 x
      = Some (NdArr (np_map (λ v, if sub then (- g v)%Qc else g v) (data n))).
Proof.
  intros Hn (n' & Hn' & Hb & Hp & Hg) Hwf Hf Hsh.
  assert (n' = n) as -> by congruence.
  by apply unary_backward_on_leaf.
Qed.

(** X10.  [y = x.relu(); y.backward()] on a fresh leaf [x]: the value of [y]
    is [x] with its elements that are not positive replaced by zero, and
    the gradient of [x] is one where [x] is positive and zero elsewhere. *)
Theorem relu_gradient_is_positive_mask depth (σ : store) x n :
  σ !! x = Some n → fresh_leaf σ x → wf_array (data n) →
  ∃ σ1 σ2,
    Tensor_relu x σ = Ok (length σ, σ1)
    ∧ data_of σ1 (length σ)
      = Some (np_map (λ v, if decide (qz 0 < v)%Qc then v else qz 0) (data n))
    ∧ backward (2 + depth) (length σ) σ1 = Ok σ2
    ∧ grad_of σ2 x
      = Some (NdArr (np_map (λ v, if decide (qz 0 < v)%Qc then qz 1 else qz 0)
                       (data n))).
Proof.
  intros Hn Hx Hwf. unfold Tensor_relu.
  by apply (unary_on_fresh_leaf _ _ false); [..|left].
Qed.

Lemma one_vector_fresh : fresh_leaf one_vector 0.
Proof. eexists. split; [reflexivity|]. by split_and!. Qed.

Lemma relu_gradient_is_positive_mask_witness :
  ∃ σ1 σ2,
    Tensor_relu 0 one_vector = Ok (1, σ1)
    ∧ backward 2 1 σ1 = Ok σ2
    ∧ grad_of σ2 0 = Some (NdArr (int_array [2] [1; 1]%Z)).
Proof.
  destruct (relu_gradient_is_positive_mask 0 one_vector 0 _ eq_refl
              one_vector_fresh eq_refl) as (σ1 & σ2 & H1 & _ & H2 & H3).
  exists σ1, σ2. split; [exact H1|]. split; [exact H2|].
  rewrite H3. compute_done.
Defined.

(** X11.  [y = x.regularization_loss(reg); y.backward()] on a fresh leaf
    [x]: the value of [y] is [reg] times the sum of the squares of the elements of
    [x], without axes, and the gradient of [x] is [2 * reg * x]. *)
Theorem regularization_loss_gradient depth reg (σ : store) x n :
  σ !! x = Some n → fresh_leaf σ x → wf_array (data n) →
  ∃ σ1 σ2,
    Tensor_regularization_loss reg x σ = Ok (length σ, σ1)
    ∧ data_of σ1 (length σ)
      = Some (np_scalar (reg * sum_list ((λ v, v * v) <$> elems (data n)))%Qc)
    ∧ backward (2 + depth) (length σ) σ1 = Ok σ2
    ∧ grad_of σ2 x = Some (NdArr (np_map (λ v, qz 2 * reg * v)%Qc (data n))).
Proof.
  intros Hn Hx Hwf. unfold Tensor_regularization_loss.
  apply (unary_on_fresh_leaf _ _ false); [done..| |by right].
  rewrite np_sum_all by (by apply wf_np_map). done.
Qed.

Lemma regularization_loss_gradient_witness :
  ∃ σ1 σ2,
    Tensor_regularization_loss (qz 3) 0 one_vector = Ok (1, σ1)
    ∧ data_of σ1 1 = Some (scalar_array 15)
    ∧ backward 2 1 σ1 = Ok σ2
    ∧ grad_of σ2 0 = Some (NdArr (int_array [2] [6; 12]%Z)).
Proof.
  destruct (regularization_loss_gradient 0 (qz 3) one_vector 0 _ eq_refl
              one_vector_fresh eq_refl) as (σ1 & σ2 & H1 & H2 & H3 & H4).
  exists σ1, σ2. split; [exact H1|].
  split; [rewrite (H2 : data_of σ1 1 = _); compute_done|].
  split; [exact H3|].
  rewrite H4. compute_done.
Defined.

Section KernelGradients.

Variables np_sin np_cos np_exp np_log : Qc → Qc.
Variable np_power : Qc → pynum → Qc.


(** X13.  The basic functions on a fresh leaf [x], each followed by
    [backward] on its result: the gradient of [x] is [cos x] after [sin],
    [- sin x] after [cos], [exp x] after [exp] and [1 / x] after [log]. *)
Theorem basic_function_gradients depth (σ : store) x n :
  σ !! x = Some n → fresh_leaf σ x → wf_array (data n) →
  let after (op : tensor_id → store → result (tensor_id * store))
        (value local : Qc → Qc) :=
    ∃ σ1 σ2,
      op x σ = Ok (length σ, σ1)
      ∧ data_of σ1 (length σ) = Some (np_map value (data n))
      ∧ backward (2 + depth) (length σ) σ1 = Ok σ2
      ∧ grad_of σ2 x = Some (NdArr (np_map local (data n))) in
  after (Tensor_sin np_sin np_cos) np_sin np_cos
  ∧ after (Tensor_cos np_sin np_cos) np_cos (λ v, - np_sin v)%Qc
  ∧ after (Tensor_exp np_exp) np_exp np_exp
  ∧ after (Tensor_log np_log) np_log (λ v, qz 1 / v)%Qc.
Proof.
  intros Hn Hx Hwf after. subst after. cbv beta. split_and!.
  - by apply (unary_on_fresh_leaf _ _ false); [..|left].
  - by apply (unary_on_fresh_leaf _ _ true); [..|left].
  - by apply (unary_on_fresh_leaf _ _ false); [..|left].
  - by apply (unary_on_fresh_leaf _ _ false); [..|left].
Qed.

(** X14.  [sigmoid] and [tanh] on a fresh leaf [x], each followed by
    [backward] on its result: the gradient of [x] is
    [exp(-x) / (exp(-x) + 1)²] after [sigmoid] and
    [4 exp(2x) / (exp(2x) + 1)²] after [tanh]. *)
Theorem sigmoid_tanh_gradients depth (σ : store) x n :
  σ !! x = Some n → fresh_leaf σ x → wf_array (data n) →
  (∃ σ1 σ2,
      Tensor_sigmoid np_exp x σ = Ok (length σ, σ1)
      ∧ data_of σ1 (length σ)
        = Some (np_map (λ v, qz 1 / (qz 1 + np_exp (- v)))%Qc (data n))
      ∧ backward (2 + depth) (length σ) σ1 = Ok σ2
      ∧ grad_of σ2 x
        = Some (NdArr (np_map
            (λ v, np_exp (- v) / ((np_exp (- v) + qz 1) * (np_exp (- v) + qz 1)))%Qc
            (data n))))
  ∧ (∃ σ1 σ2,
      Tensor_tanh np_exp x σ = Ok (length σ, σ1)
      ∧ data_of σ1 (length σ)
        = Some (np_map (λ v, (np_exp v - np_exp (- v)) / (np_exp v + np_exp (- v)))%Qc
                  (data n))
      ∧ backward (2 + depth) (length σ) σ1 = Ok σ2
      ∧ grad_of σ2 x
        = Some (NdArr (np_map
            (λ v, (qz 4 * np_exp (qz 2 * v))
                  / ((np_exp (qz 2 * v) + qz 1) * (np_exp (qz 2 * v) + qz 1)))%Qc
            (data n)))).
Proof.
  intros Hn Hx Hwf. split.
  - by apply (unary_on_fresh_leaf _ _ false); [..|left].
  - by apply (unary_on_fresh_leaf _ _ false); [..|left].
Qed.

End KernelGradients.


Lemma basic_function_gradients_witness :
  ∃ σ1 σ2,
    Tensor_cos (λ v, v + v)%Qc (λ v, v) 0 one_vector = Ok (1, σ1)
    ∧ backward 2 1 σ1 = Ok σ2
    ∧ grad_of σ2 0 = Some (NdArr (int_array [2] [-2; -4]%Z)).
Proof.
  destruct (basic_function_gradients (λ v, v + v)%Qc (λ v, v) (λ v, v) (λ v, v)
              0 one_vector 0 _ eq_refl one_vector_fresh eq_refl)
    as (_ & (σ1 & σ2 & H1 & _ & H2 & H3) & _).
  exists σ1, σ2. split; [exact H1|]. split; [exact H2|].
  rewrite H3. compute_done.
Defined.

Lemma sigmoid_tanh_gradients_witness :
  ∃ σ1 σ2,
    Tensor_sigmoid (λ v, v * v)%Qc 0 one_vector = Ok (1, σ1)
    ∧ backward 2 1 σ1 = Ok σ2
    ∧ grad_of σ2 0 = Some (NdArr (NdArray [2] [qfrac 1 4; qfrac 4 25])).
Proof.
  destruct (sigmoid_tanh_gradients (λ v, v * v)%Qc 0 one_vector 0 _ eq_refl
              one_vector_fresh eq_refl) as ((σ1 & σ2 & H1 & _ & H2 & H3) & _).
  exists σ1, σ2. split; [exact H1|]. split; [exact H2|].
  rewrite H3. compute_done.
Defined.

(** ** [backward] from a tensor whose parents are leaves *)

Lemma traverse_over_leaves depth (σ : store) y ny ps :
  σ !! y = Some ny → _prev ny = list_to_set ps → Forall (leaf_like σ) ps →
  ∃ l, _traverse_children (S (S depth)) σ y = Ok (l ++ [y])
       ∧ Forall (λ c, c ∈ ps) l.
Proof.
  intros Hy Hp Hps. unfold _traverse_children. rewrite build_topo_S.
  destruct (decide (y ∈ _)) as [Hin|_]; [by apply not_elem_of_empty in Hin|].
  apply get_Ok in Hy as ->. cbn [mbind result_bind fst snd].
  assert (∀ c, c ∈ elements (_prev ny) → c ∈ ps) as Hel.
  { intros c Hc%elem_of_elements. rewrite Hp in Hc. by apply elem_of_list_to_set in Hc. }
  destruct (for_each_build_topo_leaves depth σ (elements (_prev ny))
              ([], {[y]} ∪ ∅)) as (l & vis & -> & Hl).
  { apply Forall_forall. intros c Hc. rewrite Forall_forall in Hps. auto. }
  cbn [mbind result_bind fmap result_fmap fst snd]. exists l. split; [done|].
  eapply Forall_impl; [done|]. auto.
Qed.

(** The root's gradient is rebound to ones, its closure runs, and the
    closures of the leaves do nothing. *)
Lemma backward_over_leaves depth (σ : store) y ny ps :
  σ !! y = Some ny → _prev ny = list_to_set ps →
  Forall (leaf_like σ) ps → y ∉ ps →
  backward (2 + depth) y σ
  = call_backward (_backward ny)
      (<[y := set_grad (NdArr (np_ones (shape (data ny)))) ny]> σ).
Proof.
  intros Hy Hp Hps Hny. unfold backward.
  destruct (traverse_over_leaves depth σ y ny ps) as (l & Hl & Hin); [done..|].
  cbn [Nat.add]. rewrite Hl. cbn [mbind result_bind].
  apply get_Ok in Hy as Hy'. rewrite Hy'. cbn [mbind result_bind].
  rewrite reverse_snoc. cbn [for_each].
  set (oy := set_grad _ ny). set (σ0 := <[y := oy]> σ).
  assert (σ0 !! y = Some oy) as Hy0.
  { apply list_lookup_insert_eq. by eapply lookup_lt_Some. }
  assert (run_backward y σ0 = call_backward (_backward ny) σ0) as ->.
  { unfold run_backward. apply get_Ok in Hy0 as ->. done. }
  destruct (call_backward (_backward ny) σ0) as [σ'|e] eqn:Hc; [|done].
  cbn [mbind result_bind]. apply for_each_run_backward_leaves.
  apply call_backward_moved in Hc as [_ Hc].
  apply Forall_forall. intros c Hcl. rewrite elem_of_reverse in Hcl.
  rewrite Forall_forall in Hin. specialize (Hin c Hcl).
  rewrite Forall_forall in Hps. destruct (Hps c Hin) as (nc & Hnc & Hb & _).
  assert (c ≠ y) as Hne by (by intros ->).
  assert (σ0 !! c = Some nc) as Hc0.
  { subst σ0. by rewrite list_lookup_insert_ne. }
  destruct (Hc c nc Hc0) as (g & Hg & _). exists (set_grad g nc). by split.
Qed.

(** The store an operation leaves, seeded with the gradient of its result. *)
Lemma seeded_lookups (σ : store) ny oy :
  let σ0 : store := <[length σ := oy]> (σ ++ [ny]) in
  σ0 !! length σ = Some oy
  ∧ ∀ t n, σ !! t = Some n → σ0 !! t = Some n.
Proof.
  intros σ0. subst σ0. split.
  - apply list_lookup_insert_eq. rewrite length_app. simpl. lia.
  - intros t n Hn. apply lookup_lt_Some in Hn as Hlt.
    rewrite list_lookup_insert_ne by lia. by rewrite lookup_app_l.
Qed.

Lemma tabulate_const s x : tabulate s (λ _, x) = np_full s x.
Proof.
  unfold tabulate, np_full. f_equal. rewrite <- (indices_length s).
  induction (indices s) as [|j l IH]; [done|]. rewrite fmap_cons. simpl. by f_equal.
Qed.

(** Adding into the zeros of a fresh gradient. *)
Lemma grad_iadd_zeros (σ : store) x n r :
  σ !! x = Some n → grad n = NdArr (np_zeros (shape (data n))) →
  wf_array r → shape r = shape (data n) →
  grad_iadd x (NdArr r) σ = Ok (<[x := set_grad (NdArr r) n]> σ).
Proof.
  intros Hn Hg Hwf Hs. apply grad_iadd_Ok. exists n, (NdArr r).
  split_and!; [done| |done]. rewrite Hg, <- Hs. by apply iadd_to_zeros.
Qed.

Lemma grad_iadd_zeros_ones (σ : store) x n :
  σ !! x = Some n → grad n = NdArr (np_zeros (shape (data n))) →
  grad_iadd x (NdArr (np_ones [])) σ
  = Ok (<[x := set_grad (NdArr (np_ones (shape (data n)))) n]> σ).
Proof.
  intros Hn Hg. apply grad_iadd_Ok. exists n, (NdArr (np_ones (shape (data n)))).
  split_and!; [done| |done]. rewrite Hg. apply iadd_arrays. simpl.
  split; [apply broadcast_shapes_nil_r|]. f_equal.
  unfold np_ones. rewrite <- (tabulate_const (shape (data n))).
  apply tabulate_ext. intros j Hj.
  rewrite item_np_zeros, qz_0, bcast_index_nil.
  change (item (np_full [] (qz 1)) []) with (qz 1). ring.
Qed.

Lemma np_T_ones s : np_T (np_ones (reverse s)) = np_ones s.
Proof.
  unfold np_T, np_ones. simpl. rewrite reverse_involutive.
  rewrite <- (tabulate_const s). apply tabulate_ext. intros j Hj.
  apply item_np_full. apply elem_of_indices, Forall2_reverse. by apply elem_of_indices.
Qed.

Lemma getitem_ones n s k :
  k < n → np_getitem (np_ones (n :: s)) k = Ok (np_ones s).
Proof.
  intros Hk. unfold np_getitem, np_ones, np_full. cbn [shape elems].
  destruct (decide (k < n)) as [_|]; [|lia]. do 2 f_equal.
  rewrite drop_replicate, take_replicate. f_equal.
  change (size_of (n :: s)) with (n * size_of s). nia.
Qed.

(** X15.  [y = x.sum(); y.backward()] on a fresh leaf [x]: the value of [y]
    is the total of [x] without axes, and the gradient of [x] is the
    array of ones of the shape of [x]. *)
Theorem sum_all_gradient_is_ones depth (σ : store) x n :
  σ !! x = Some n → fresh_leaf σ x → wf_array (data n) →
  ∃ σ1 σ2,
    Tensor_sum x AxNone σ = Ok (length σ, σ1)
    ∧ data_of σ1 (length σ) = Some (np_scalar (sum_list (elems (data n))))
    ∧ backward (2 + depth) (length σ) σ1 = Ok σ2
    ∧ grad_of σ2 x = Some (NdArr (np_ones (shape (data n)))).
Proof.
  intros Hn Hx Hwf. pose proof (fresh_leaf_like _ _ Hx) as Hl.
  destruct Hx as (n' & Hn' & Hb & Hp & Hg). assert (n' = n) as -> by congruence.
  apply lookup_lt_Some in Hn as Hlt.
  set (y := length σ). set (d := np_scalar (sum_list (elems (data n)))).
  set (ny := MkTensor d "" (NdArr (np_zeros (shape d))) false false None
               (BackSum x y) (list_to_set [x]) (Tag "sum")).
  assert (Tensor_sum x AxNone σ = Ok (y, σ ++ [ny])) as H1.
  { unfold Tensor_sum. apply get_Ok in Hn as ->. cbn [mbind result_bind].
    rewrite np_sum_all by done. cbn [mbind result_bind]. unfold Tensor_init.
    by rewrite alloc_backward. }
  assert ((σ ++ [ny]) !! y = Some ny) as Hy.
  { subst y. by rewrite lookup_app_r, Nat.sub_diag by lia. }
  set (oy := set_grad (NdArr (np_ones (shape (data ny)))) ny).
  destruct (seeded_lookups σ ny oy) as [Hy0 Hold]. subst oy y.
  eexists _, _. split_and!; [done|unfold data_of; by rewrite Hy| |].
  - rewrite (backward_over_leaves depth _ _ ny [x]); [|done|done| |].
    + simpl _backward. cbn [call_backward]. apply get_Ok in Hy0 as ->.
      cbn [mbind result_bind]. apply grad_iadd_zeros_ones; [by apply Hold|done].
    + constructor; [|done]. destruct Hl as (m & Hm & ? & ?).
      exists m. by rewrite lookup_app_l.
    + intros ?%list_elem_of_singleton. lia.
  - unfold grad_of. rewrite list_lookup_insert_eq; [done|].
    rewrite length_insert, length_app. simpl. lia.
Qed.

Lemma sum_all_gradient_is_ones_witness :
  ∃ σ1 σ2,
    Tensor_sum 0 AxNone one_vector = Ok (1, σ1)
    ∧ data_of σ1 1 = Some (scalar_array 3)
    ∧ backward 2 1 σ1 = Ok σ2
    ∧ grad_of σ2 0 = Some (NdArr (int_array [2] [1; 1]%Z)).
Proof.
  destruct (sum_all_gradient_is_ones 0 one_vector 0 _ eq_refl one_vector_fresh eq_refl)
    as (σ1 & σ2 & H1 & H2 & H3 & H4).
  exists σ1, σ2. split; [exact H1|].
  split; [rewrite (H2 : data_of σ1 1 = _); compute_done|].
  split; [exact H3|]. rewrite H4. compute_done.
Defined.

(** X16.  [y = x.T(); y.backward()] on a fresh leaf [x]: the gradient of
    [x] is the array of ones of the shape of [x]. *)
Theorem transpose_gradient_is_ones depth (σ : store) x n :
  σ !! x = Some n → fresh_leaf σ x →
  ∃ σ1 σ2,
    Tensor_T x σ = Ok (length σ, σ1)
    ∧ data_of σ1 (length σ) = Some (np_T (data n))
    ∧ backward (2 + depth) (length σ) σ1 = Ok σ2
    ∧ grad_of σ2 x = Some (NdArr (np_ones (shape (data n)))).
Proof.
  intros Hn Hx. pose proof (fresh_leaf_like _ _ Hx) as Hl.
  destruct Hx as (n' & Hn' & Hb & Hp & Hg). assert (n' = n) as -> by congruence.
  apply lookup_lt_Some in Hn as Hlt.
  set (y := length σ). set (d := np_T (data n)).
  set (ny := MkTensor d "" (NdArr (np_zeros (shape d))) false false None
               (BackT x y) (list_to_set [x]) (Tag "T")).
  assert (Tensor_T x σ = Ok (y, σ ++ [ny])) as H1.
  { unfold Tensor_T. apply get_Ok in Hn as ->. cbn [mbind result_bind].
    unfold Tensor_init. by rewrite alloc_backward. }
  assert ((σ ++ [ny]) !! y = Some ny) as Hy.
  { subst y. by rewrite lookup_app_r, Nat.sub_diag by lia. }
  set (oy := set_grad (NdArr (np_ones (shape (data ny)))) ny).
  destruct (seeded_lookups σ ny oy) as [Hy0 Hold]. subst oy y.
  eexists _, _. split_and!; [done|unfold data_of; by rewrite Hy| |].
  - rewrite (backward_over_leaves depth _ _ ny [x]); [|done|done| |].
    + simpl _backward. cbn [call_backward]. apply get_Ok in Hy0 as ->.
      cbn [mbind result_bind]. simpl grad. cbn [val_T mbind result_bind].
      change (shape (data ny)) with (reverse (shape (data n))).
      rewrite np_T_ones. apply grad_iadd_zeros; [by apply Hold|done| |done].
      apply wf_np_full.
    + constructor; [|done]. destruct Hl as (m & Hm & ? & ?).
      exists m. by rewrite lookup_app_l.
    + intros ?%list_elem_of_singleton. lia.
  - unfold grad_of. rewrite list_lookup_insert_eq; [done|].
    rewrite length_insert, length_app. simpl. lia.
Qed.

Lemma two_matrices_fresh : fresh_leaf two_matrices 0 ∧ fresh_leaf two_matrices 1.
Proof. split; (eexists; split; [reflexivity|]; by split_and!). Qed.

Lemma transpose_gradient_is_ones_witness :
  ∃ σ1 σ2,
    Tensor_T 0 two_matrices = Ok (2, σ1)
    ∧ data_of σ1 2 = Some (int_array [2; 2] [1; 3; 2; 4]%Z)
    ∧ backward 2 2 σ1 = Ok σ2
    ∧ grad_of σ2 0 = Some (NdArr (int_array [2; 2] [1; 1; 1; 1]%Z)).
Proof.
  destruct (transpose_gradient_is_ones 0 two_matrices 0 _ eq_refl
              (proj1 two_matrices_fresh)) as (σ1 & σ2 & H1 & H2 & H3 & H4).
  exists σ1, σ2. split; [exact H1|].
  split; [rewrite (H2 : data_of σ1 2 = _); compute_done|].
  split; [exact H3|]. rewrite H4. compute_done.
Defined.

(** ** Two-operand operations on two fresh leaves *)

Lemma reshape_gradient_same_shape g T :
  shape g = T → reshape_gradient (NdArr g) T = Ok g.
Proof.
  intros Hs. unfold reshape_gradient. simpl. by rewrite decide_True.
Qed.

Lemma np_binary_same_shape f a b :
  shape a = shape b →
  np_binary f a b = Ok (tabulate (shape a) (λ j, f (item a j) (item b j))).
Proof.
  intros Hs. unfold np_binary. rewrite <- Hs, broadcast_shapes_refl. f_equal.
  apply tabulate_ext. intros j Hj. by rewrite bcast_index_self.
Qed.

(** The store after the first of the two additions of a closure. *)
Lemma lookups_after_first (σ0 : store) a b y na na' nb oy :
  a ≠ b → a ≠ y →
  σ0 !! a = Some na → σ0 !! b = Some nb → σ0 !! y = Some oy →
  let σ' : store := <[a := na']> σ0 in
  σ' !! a = Some na' ∧ σ' !! b = Some nb ∧ σ' !! y = Some oy.
Proof.
  intros Hab Hay Ha Hb Hy σ'. subst σ'. split_and!.
  - apply list_lookup_insert_eq. by eapply lookup_lt_Some.
  - by rewrite list_lookup_insert_ne.
  - by rewrite list_lookup_insert_ne.
Qed.

Lemma grads_after_both (σ0 : store) a b ga gb na nb :
  a ≠ b → σ0 !! a = Some na → σ0 !! b = Some nb →
  let σ' : store := <[b := set_grad gb nb]> (<[a := set_grad ga na]> σ0) in
  grad_of σ' a = Some ga ∧ grad_of σ' b = Some gb.
Proof.
  intros Hab Ha Hb σ'. subst σ'. unfold grad_of.
  apply lookup_lt_Some in Ha as Hla. apply lookup_lt_Some in Hb as Hlb. split.
  - rewrite list_lookup_insert_ne by done. by rewrite list_lookup_insert_eq.
  - rewrite list_lookup_insert_eq; [done|]. by rewrite length_insert.
Qed.

(** What the constructions of the two-operand operations share: the
    result is the next tensor, and in the seeded store the operands are
    as they were. *)
Lemma two_leaves_seeded depth (σ : store) a b na nb ny ps :
  σ !! a = Some na → σ !! b = Some nb →
  fresh_leaf σ a → fresh_leaf σ b →
  _prev ny = list_to_set ps → Forall (λ p, p = a ∨ p = b) ps →
  let oy := set_grad (NdArr (np_ones (shape (data ny)))) ny in
  let σ0 : store := <[length σ := oy]> (σ ++ [ny]) in
  backward (2 + depth) (length σ) (σ ++ [ny]) = call_backward (_backward ny) σ0
  ∧ get σ0 (length σ) = Ok oy ∧ get σ0 a = Ok na ∧ get σ0 b = Ok nb
  ∧ a ≠ length σ ∧ b ≠ length σ.
Proof.
  intros Ha Hb Hfa Hfb Hp Hps oy σ0.
  apply lookup_lt_Some in Ha as Hla. apply lookup_lt_Some in Hb as Hlb.
  destruct (seeded_lookups σ ny oy) as [Hy0 Hold]. fold σ0 in Hy0, Hold.
  split_and!; [|by apply get_Ok|by apply get_Ok, Hold|by apply get_Ok, Hold|lia|lia].
  apply (backward_over_leaves depth _ _ ny ps); [|done| |].
  - by rewrite lookup_app_r, Nat.sub_diag by lia.
  - eapply Forall_impl; [done|]. intros p Hpa. simpl in Hpa.
    assert (leaf_like σ p) as (m & Hm & ? & ?).
    { destruct Hpa as [-> | ->]; by apply fresh_leaf_like. }
    exists m. by rewrite lookup_app_l by (by eapply lookup_lt_Some).
  - intros Hin. rewrite Forall_forall in Hps. destruct (Hps _ Hin); lia.
Qed.

Lemma fresh_leaf_grad (σ : store) x n :
  σ !! x = Some n → fresh_leaf σ x → grad n = NdArr (np_zeros (shape (data n))).
Proof. intros Hn (n' & Hn' & _ & _ & Hg). congruence. Qed.

Lemma operand_pair a b : Forall (λ p : nat, p = a ∨ p = b) [a; b].
Proof. constructor; [by left|]. constructor; [by right|]. constructor. Qed.

(** X17.  [y = a + b] and [y = a * b] for two fresh leaves of one shape,
    followed by [y.backward()]: after the sum both gradients are ones,
    after the product the gradient of each operand is the value of the
    other. *)
Theorem sum_and_product_rules_on_leaves depth (σ : store) a b na nb :
  σ !! a = Some na → σ !! b = Some nb → a ≠ b →
  fresh_leaf σ a → fresh_leaf σ b →
  wf_array (data na) → wf_array (data nb) →
  shape (data na) = shape (data nb) →
  (∃ σ1 σ2,
      Tensor_add a (OTensor b) σ = Ok (length σ, σ1)
      ∧ backward (2 + depth) (length σ) σ1 = Ok σ2
      ∧ grad_of σ2 a = Some (NdArr (np_ones (shape (data na))))
      ∧ grad_of σ2 b = Some (NdArr (np_ones (shape (data nb)))))
  ∧ (∃ σ1 σ2,
      Tensor_mul a (OTensor b) σ = Ok (length σ, σ1)
      ∧ backward (2 + depth) (length σ) σ1 = Ok σ2
      ∧ grad_of σ2 a = Some (NdArr (data nb))
      ∧ grad_of σ2 b = Some (NdArr (data na))).
Proof.
  intros Ha Hb Hab Hfa Hfb Hwa Hwb Hs.
  pose proof (fresh_leaf_grad _ _ _ Ha Hfa) as Hga.
  pose proof (fresh_leaf_grad _ _ _ Hb Hfb) as Hgb.
  apply get_Ok in Ha as Ha'. apply get_Ok in Hb as Hb'.
  split.
  - set (d := tabulate (shape (data na))
                (λ j, (item (data na) j + item (data nb) j)%Qc)).
    set (ny := MkTensor d "" (NdArr (np_zeros (shape d))) false false None
                 (BackAdd a b (length σ)) (list_to_set [a; b]) (Tag "+")).
    assert (Tensor_add a (OTensor b) σ = Ok (length σ, σ ++ [ny])) as H1.
    { unfold Tensor_add. cbn [promote]. rewrite Ha', Hb'. cbn [mbind result_bind].
      unfold np_add. rewrite (np_binary_same_shape _ _ _ Hs).
      cbn [mbind result_bind]. unfold Tensor_init. by rewrite alloc_backward. }
    destruct (two_leaves_seeded depth σ a b na nb ny [a; b] Ha Hb Hfa Hfb eq_refl
                (operand_pair a b)) as (Hbw & Hy0 & Ha0 & Hb0 & Hay & Hby).
    set (oy := set_grad _ ny) in *. set (σ0 := <[length σ := oy]> _) in *.
    set (r := np_ones (shape d)).
    assert (wf_array r) as Hwr by apply wf_np_full.
    apply get_Ok in Hy0 as Hy0l. apply get_Ok in Ha0 as Ha0l.
    apply get_Ok in Hb0 as Hb0l.
    destruct (lookups_after_first σ0 a b (length σ) na (set_grad (NdArr r) na) nb oy)
      as (_ & Hb1 & Hy1); [done..|].
    exists (σ ++ [ny]),
      (<[b := set_grad (NdArr r) nb]> (<[a := set_grad (NdArr r) na]> σ0)).
    split; [done|]. split.
    + rewrite Hbw. simpl _backward. cbn [call_backward].
      rewrite Hy0, Ha0. cbn [mbind result_bind]. simpl grad. fold r.
      rewrite (reshape_gradient_same_shape r) by done. cbn [mbind result_bind].
      rewrite (grad_iadd_zeros σ0 a na r) by done. cbn [mbind result_bind].
      apply get_Ok in Hb1 as ->. apply get_Ok in Hy1 as ->.
      cbn [mbind result_bind]. simpl grad. fold r.
      rewrite (reshape_gradient_same_shape r) by (by rewrite <- Hs).
      cbn [mbind result_bind].
      apply grad_iadd_zeros; [by rewrite list_lookup_insert_ne|done|done|].
      by rewrite <- Hs.
    + apply (grads_after_both σ0 a b (NdArr r) (NdArr r) na nb Hab Ha0l) in Hb0l.
      destruct Hb0l as [-> ->]. subst r. simpl. by rewrite <- Hs.
  - set (d := tabulate (shape (data na))
                (λ j, (item (data na) j * item (data nb) j)%Qc)).
    set (ny := MkTensor d "" (NdArr (np_zeros (shape d))) false false None
                 (BackMul a b (length σ)) (list_to_set [a; b]) (Tag "*")).
    assert (Tensor_mul a (OTensor b) σ = Ok (length σ, σ ++ [ny])) as H1.
    { unfold Tensor_mul. cbn [promote]. rewrite Ha', Hb'. cbn [mbind result_bind].
      unfold np_multiply. rewrite (np_binary_same_shape _ _ _ Hs).
      cbn [mbind result_bind]. unfold Tensor_init. by rewrite alloc_backward. }
    destruct (two_leaves_seeded depth σ a b na nb ny [a; b] Ha Hb Hfa Hfb eq_refl
                (operand_pair a b)) as (Hbw & Hy0 & Ha0 & Hb0 & Hay & Hby).
    set (oy := set_grad _ ny) in *. set (σ0 := <[length σ := oy]> _) in *.
    apply get_Ok in Hy0 as Hy0l. apply get_Ok in Ha0 as Ha0l.
    apply get_Ok in Hb0 as Hb0l.
    destruct (lookups_after_first σ0 a b (length σ) na
                (set_grad (NdArr (data nb)) na) nb oy)
      as (Ha1 & Hb1 & Hy1); [done..|].
    exists (σ ++ [ny]),
      (<[b := set_grad (NdArr (data na)) nb]>
         (<[a := set_grad (NdArr (data nb)) na]> σ0)).
    split; [done|]. split.
    + rewrite Hbw. simpl _backward. cbn [call_backward].
      rewrite Hy0, Ha0, Hb0. cbn [mbind result_bind]. simpl grad.
      rewrite (mul_by_ones (data nb) _ Hwb) by (left; exact Hs). cbn [mbind result_bind].
      rewrite (reshape_gradient_same_shape (data nb)) by done.
      cbn [mbind result_bind].
      rewrite (grad_iadd_zeros σ0 a na (data nb)) by done. cbn [mbind result_bind].
      apply get_Ok in Hb1 as ->. apply get_Ok in Hy1 as ->. apply get_Ok in Ha1 as ->.
      cbn [mbind result_bind]. simpl grad. simpl data.
      rewrite (mul_by_ones (data na) _ Hwa) by (by left). cbn [mbind result_bind].
      rewrite (reshape_gradient_same_shape (data na)) by done.
      cbn [mbind result_bind].
      apply grad_iadd_zeros; [by rewrite list_lookup_insert_ne|done|done|done].
    + by apply (grads_after_both σ0 a b (NdArr (data nb)) (NdArr (data na)) na nb
                  Hab Ha0l) in Hb0l.
Qed.

Lemma sum_and_product_rules_on_leaves_witness :
  ∃ σ1 σ2,
    Tensor_mul 0 (OTensor 1) two_matrices = Ok (2, σ1)
    ∧ backward 2 2 σ1 = Ok σ2
    ∧ grad_of σ2 0 = Some (NdArr (int_array [2; 2] [0; 1; 1; 0]%Z))
    ∧ grad_of σ2 1 = Some (NdArr (int_array [2; 2] [1; 2; 3; 4]%Z)).
Proof.
  destruct (sum_and_product_rules_on_leaves 0 two_matrices 0 1 _ _ eq_refl eq_refl)
    as (_ & σ1 & σ2 & H1 & H2 & H3 & H4);
    [lia|apply two_matrices_fresh|apply two_matrices_fresh|reflexivity..|].
  exists σ1, σ2. split; [exact H1|]. split; [exact H2|].
  split; [rewrite H3|rewrite H4]; compute_done.
Defined.

(** ** [stack] along the leading axis *)

Lemma np_stack_axis0 a b :
  shape a = shape b → ∃ d, np_stack a b 0 = Ok d ∧ shape d = 2 :: shape a.
Proof.
  intros Hs. unfold np_stack. rewrite decide_True by done.
  unfold normalize_axis. rewrite decide_True by lia. cbn [mbind result_bind].
  eexists. split; [done|]. done.
Qed.

(** X18.  [y = a.stack(b); y.backward()] for two fresh leaves of one shape
    and the default axis: the value of [y] has the leading axis of length
    2 before the axes of the operands, and both gradients are ones. *)
Theorem stack_axis0_gradients_are_ones depth (σ : store) a b na nb :
  σ !! a = Some na → σ !! b = Some nb → a ≠ b →
  fresh_leaf σ a → fresh_leaf σ b →
  shape (data na) = shape (data nb) →
  ∃ σ1 σ2 d,
    Tensor_stack a (OTensor b) 0 σ = Ok (length σ, σ1)
    ∧ data_of σ1 (length σ) = Some d ∧ shape d = 2 :: shape (data na)
    ∧ backward (2 + depth) (length σ) σ1 = Ok σ2
    ∧ grad_of σ2 a = Some (NdArr (np_ones (shape (data na))))
    ∧ grad_of σ2 b = Some (NdArr (np_ones (shape (data nb)))).
Proof.
  intros Ha Hb Hab Hfa Hfb Hs.
  pose proof (fresh_leaf_grad _ _ _ Ha Hfa) as Hga.
  pose proof (fresh_leaf_grad _ _ _ Hb Hfb) as Hgb.
  apply get_Ok in Ha as Ha'. apply get_Ok in Hb as Hb'.
  destruct (np_stack_axis0 _ _ Hs) as (d & Hd & Hsd).
  set (ny := MkTensor d "" (NdArr (np_zeros (shape d))) false false None
               (BackStack a b (length σ)) (list_to_set [a; b]) (Tag "stack")).
  assert (Tensor_stack a (OTensor b) 0 σ = Ok (length σ, σ ++ [ny])) as H1.
  { unfold Tensor_stack. cbn [promote]. rewrite Ha', Hb'. cbn [mbind result_bind].
    rewrite Hd. cbn [mbind result_bind]. unfold Tensor_init.
    by rewrite alloc_backward. }
  destruct (two_leaves_seeded depth σ a b na nb ny [a; b] Ha Hb Hfa Hfb eq_refl
              (operand_pair a b)) as (Hbw & Hy0 & Ha0 & Hb0 & Hay & Hby).
  change (shape (data ny)) with (shape d) in *. rewrite Hsd in *.
  set (oy := set_grad _ ny) in *. set (σ0 := <[length σ := oy]> _) in *.
  set (r := np_ones (shape (data na))).
  assert (wf_array r) as Hwr by apply wf_np_full.
  apply get_Ok in Hy0 as Hy0l. apply get_Ok in Ha0 as Ha0l.
  apply get_Ok in Hb0 as Hb0l.
  destruct (lookups_after_first σ0 a b (length σ) na (set_grad (NdArr r) na) nb oy)
    as (_ & Hb1 & Hy1); [done..|].
  exists (σ ++ [ny]),
    (<[b := set_grad (NdArr r) nb]> (<[a := set_grad (NdArr r) na]> σ0)), d.
  split_and!; [done| |done| | |].
  - unfold data_of. by rewrite lookup_app_r, Nat.sub_diag by lia.
  - rewrite Hbw. simpl _backward. cbn [call_backward].
    rewrite Hy0. cbn [mbind result_bind]. simpl grad. cbn [val_getitem].
    rewrite getitem_ones by lia. cbn [mbind result_bind]. fold r.
    rewrite (grad_iadd_zeros σ0 a na r) by done. cbn [mbind result_bind].
    apply get_Ok in Hy1 as ->. cbn [mbind result_bind]. simpl grad.
    cbn [val_getitem]. rewrite getitem_ones by lia. cbn [mbind result_bind].
    fold r. apply grad_iadd_zeros; [by rewrite list_lookup_insert_ne|done|done|].
    by rewrite <- Hs.
  - by apply (grads_after_both σ0 a b (NdArr r) (NdArr r) na nb Hab Ha0l) in Hb0l
      as [-> _].
  - apply (grads_after_both σ0 a b (NdArr r) (NdArr r) na nb Hab Ha0l) in Hb0l
      as [_ ->]. subst r. by rewrite Hs.
Qed.

Lemma stack_axis0_gradients_are_ones_witness :
  ∃ σ1 σ2,
    Tensor_stack 0 (OTensor 1) 0 two_matrices = Ok (2, σ1)
    ∧ backward 2 2 σ1 = Ok σ2
    ∧ grad_of σ2 0 = Some (NdArr (int_array [2; 2] [1; 1; 1; 1]%Z))
    ∧ grad_of σ2 1 = Some (NdArr (int_array [2; 2] [1; 1; 1; 1]%Z)).
Proof.
  destruct (stack_axis0_gradients_are_ones 0 two_matrices 0 1 _ _ eq_refl eq_refl)
    as (σ1 & σ2 & d & H1 & _ & _ & H2 & H3 & H4);
    [lia|apply two_matrices_fresh|apply two_matrices_fresh|reflexivity|].
  exists σ1, σ2. split; [exact H1|]. split; [exact H2|].
  split; [rewrite H3|rewrite H4]; compute_done.
Defined.

(** ** [matmul] *)

Lemma sum_list_ext (f g : nat → Qc) m :
  (∀ l, l < m → f l = g l) →
  sum_list (f <$> seq 0 m) = sum_list (g <$> seq 0 m).
Proof.
  intros H. f_equal. apply Forall_fmap_ext, Forall_forall.
  intros l Hl%elem_of_seq. apply H. lia.
Qed.

Lemma np_matmul_2d a b n k m :
  shape a = [n; k] → shape b = [k; m] →
  np_matmul a b
  = Ok (tabulate [n; m]
          (λ j, sum_list ((λ t, (item a [j !!! 0%nat; t] * item b [t; j !!! 1%nat])%Qc)
                          <$> seq 0 k))).
Proof.
  intros Ha Hb. unfold np_matmul. rewrite Ha, Hb. simpl.
  by rewrite decide_True.
Qed.

Lemma np_matmul_1d_2d a b k m :
  shape a = [k] → shape b = [k; m] →
  np_matmul a b
  = Ok (tabulate [m]
          (λ j, sum_list ((λ t, (item a [t] * item b [t; j !!! 0%nat])%Qc)
                          <$> seq 0 k))).
Proof.
  intros Ha Hb. unfold np_matmul. rewrite Ha, Hb. simpl.
  by rewrite decide_True.
Qed.

Lemma np_matmul_1d_1d_mismatch a b k m :
  shape a = [k] → shape b = [m] → k ≠ m → np_matmul a b = Err ValueError.
Proof.
  intros Ha Hb Hkm. unfold np_matmul. rewrite Ha, Hb. simpl.
  by rewrite decide_False.
Qed.

Lemma item_np_T_2d b k m t l :
  shape b = [k; m] → t < k → l < m → item (np_T b) [l; t] = item b [t; l].
Proof.
  intros Hb Ht Hl. unfold np_T. rewrite Hb. rewrite item_tabulate; [done|].
  apply elem_of_indices. repeat constructor; done.
Qed.

Lemma item_ones_2d n m i l : i < n → l < m → item (np_ones [n; m]) [i; l] = qz 1.
Proof.
  intros Hi Hl. apply item_np_full, elem_of_indices. repeat constructor; done.
Qed.

(** X19.  [y = a.matmul(b); y.backward()] for two fresh leaves that are
    matrices of shapes [(n, k)] and [(k, m)]: the call succeeds, the
    gradient of [a] has the shape of [a] and holds in each row the sums of
    the rows of [b], and the gradient of [b] has the shape of [b] and
    holds in each column the sums of the columns of [a]. *)
Theorem matmul_gradients_of_matrices depth (σ : store) a b na nb n k m :
  σ !! a = Some na → σ !! b = Some nb → a ≠ b →
  fresh_leaf σ a → fresh_leaf σ b →
  shape (data na) = [n; k] → shape (data nb) = [k; m] →
  ∃ σ1 σ2 ga gb,
    Tensor_matmul a (OTensor b) σ = Ok (length σ, σ1)
    ∧ backward (2 + depth) (length σ) σ1 = Ok σ2
    ∧ grad_of σ2 a = Some (NdArr ga) ∧ grad_of σ2 b = Some (NdArr gb)
    ∧ shape ga = [n; k] ∧ shape gb = [k; m]
    ∧ (∀ i t, i < n → t < k →
         item ga [i; t] = sum_list ((λ l, item (data nb) [t; l]) <$> seq 0 m))
    ∧ (∀ t l, t < k → l < m →
         item gb [t; l] = sum_list ((λ i, item (data na) [i; t]) <$> seq 0 n)).
Proof.
  intros Ha Hb Hab Hfa Hfb Hsa Hsb.
  pose proof (fresh_leaf_grad _ _ _ Ha Hfa) as Hga.
  pose proof (fresh_leaf_grad _ _ _ Hb Hfb) as Hgb.
  apply get_Ok in Ha as Ha'. apply get_Ok in Hb as Hb'.
  pose proof (np_matmul_2d _ _ n k m Hsa Hsb) as Hd.
  set (d := tabulate [n; m] _) in Hd.
  set (ny := MkTensor d "" (NdArr (np_zeros (shape d))) false false None
               (BackMatmul a b (length σ)) (list_to_set []) (Tag "")).
  assert (Tensor_matmul a (OTensor b) σ = Ok (length σ, σ ++ [ny])) as H1.
  { unfold Tensor_matmul. cbn [promote]. rewrite Ha', Hb'. cbn [mbind result_bind].
    rewrite Hd. cbn [mbind result_bind]. unfold Tensor_init.
    by rewrite alloc_backward. }
  destruct (two_leaves_seeded depth σ a b na nb ny [] Ha Hb Hfa Hfb eq_refl)
    as (Hbw & Hy0 & Ha0 & Hb0 & Hay & Hby); [constructor|].
  change (shape (data ny)) with [n; m] in *.
  set (oy := set_grad _ ny) in *. set (σ0 := <[length σ := oy]> _) in *.
  assert (shape (np_T (data nb)) = [m; k]) as HsbT by (simpl; by rewrite Hsb).
  assert (shape (np_T (data na)) = [k; n]) as HsaT by (simpl; by rewrite Hsa).
  pose proof (np_matmul_2d (np_ones [n; m]) (np_T (data nb)) n m k eq_refl HsbT) as Hra.
  pose proof (np_matmul_2d (np_T (data na)) (np_ones [n; m]) k n m HsaT eq_refl) as Hrb.
  set (ra := tabulate [n; k] _) in Hra. set (rb := tabulate [k; m] _) in Hrb.
  apply get_Ok in Hy0 as Hy0l. apply get_Ok in Ha0 as Ha0l.
  apply get_Ok in Hb0 as Hb0l.
  destruct (lookups_after_first σ0 a b (length σ) na (set_grad (NdArr ra) na) nb oy)
    as (Ha1 & Hb1 & Hy1); [done..|].
  exists (σ ++ [ny]),
    (<[b := set_grad (NdArr rb) nb]> (<[a := set_grad (NdArr ra) na]> σ0)), ra, rb.
  split_and!; [done| | | |done|done| |].
  - rewrite Hbw. simpl _backward. cbn [call_backward].
    rewrite Hy0, Hb0. cbn [mbind result_bind]. simpl grad.
    unfold matmul_val_l. cbn [as_array]. rewrite Hra. cbn [mbind result_bind].
    rewrite (grad_iadd_zeros σ0 a na ra); [|done|done|apply wf_tabulate|by rewrite Hsa].
    cbn [mbind result_bind].
    apply get_Ok in Hy1 as ->. apply get_Ok in Ha1 as ->.
    cbn [mbind result_bind]. simpl grad. simpl data.
    unfold matmul_val_r. cbn [as_array]. rewrite Hrb. cbn [mbind result_bind].
    apply grad_iadd_zeros; [by rewrite list_lookup_insert_ne|done|apply wf_tabulate|].
    by rewrite Hsb.
  - by apply (grads_after_both σ0 a b (NdArr ra) (NdArr rb) na nb Hab Ha0l) in Hb0l
      as [-> _].
  - by apply (grads_after_both σ0 a b (NdArr ra) (NdArr rb) na nb Hab Ha0l) in Hb0l
      as [_ ->].
  - intros i t Hi Ht. subst ra. rewrite item_tabulate.
    2:{ apply elem_of_indices. repeat constructor; done. }
    apply sum_list_ext. intros l Hl. cbn [lookup_total list_lookup_total].
    simpl. rewrite item_ones_2d, (item_np_T_2d _ k m), qz_1 by done. ring.
  - intros t l Ht Hl. subst rb. rewrite item_tabulate.
    2:{ apply elem_of_indices. repeat constructor; done. }
    apply sum_list_ext. intros i Hi. simpl.
    rewrite item_ones_2d, (item_np_T_2d _ n k), qz_1 by done. ring.
Qed.

Lemma matmul_gradients_of_matrices_witness :
  ∃ σ1 σ2,
    Tensor_matmul 0 (OTensor 1) two_matrices = Ok (2, σ1)
    ∧ backward 2 2 σ1 = Ok σ2
    ∧ grad_of σ2 0 = Some (NdArr (int_array [2; 2] [1; 1; 1; 1]%Z))
    ∧ grad_of σ2 1 = Some (NdArr (int_array [2; 2] [4; 4; 6; 6]%Z)).
Proof.
  destruct (matmul_gradients_of_matrices 0 two_matrices 0 1 _ _ 2 2 2 eq_refl eq_refl)
    as (σ1 & σ2 & ga & gb & H1 & H2 & H3 & H4 & _);
    [lia|apply two_matrices_fresh|apply two_matrices_fresh|reflexivity..|].
  exists σ1, σ2. split; [exact H1|]. split; [exact H2|].
  assert (backward 2 2 σ1 = Ok σ2) as H2' by exact H2.
  injection H1 as <-. vm_compute in H2'. injection H2' as <-.
  split; compute_done.
Defined.

(** X20.  With a left operand of one axis of length [k] and a matrix of
    shape [(k, m)], [k ≠ m], [matmul] returns a tensor of shape [(m,)]
    and [backward] on it raises [ValueError]: the second line of the
    closure multiplies the operand, of length [k], with the upstream
    gradient, of length [m]. *)
Theorem matmul_backward_of_vector_raises depth (σ : store) a b na nb k m :
  σ !! a = Some na → σ !! b = Some nb → a ≠ b →
  fresh_leaf σ a → fresh_leaf σ b →
  shape (data na) = [k] → shape (data nb) = [k; m] → k ≠ m →
  ∃ σ1 d,
    Tensor_matmul a (OTensor b) σ = Ok (length σ, σ1)
    ∧ data_of σ1 (length σ) = Some d ∧ shape d = [m]
    ∧ backward (2 + depth) (length σ) σ1 = Err ValueError.
Proof.
  intros Ha Hb Hab Hfa Hfb Hsa Hsb Hkm.
  pose proof (fresh_leaf_grad _ _ _ Ha Hfa) as Hga.
  apply get_Ok in Ha as Ha'. apply get_Ok in Hb as Hb'.
  pose proof (np_matmul_1d_2d _ _ k m Hsa Hsb) as Hd.
  set (d := tabulate [m] _) in Hd.
  set (ny := MkTensor d "" (NdArr (np_zeros (shape d))) false false None
               (BackMatmul a b (length σ)) (list_to_set []) (Tag "")).
  assert (Tensor_matmul a (OTensor b) σ = Ok (length σ, σ ++ [ny])) as H1.
  { unfold Tensor_matmul. cbn [promote]. rewrite Ha', Hb'. cbn [mbind result_bind].
    rewrite Hd. cbn [mbind result_bind]. unfold Tensor_init.
    by rewrite alloc_backward. }
  destruct (two_leaves_seeded depth σ a b na nb ny [] Ha Hb Hfa Hfb eq_refl)
    as (Hbw & Hy0 & Ha0 & Hb0 & Hay & Hby); [constructor|].
  change (shape (data ny)) with [m] in *.
  set (oy := set_grad _ ny) in *. set (σ0 := <[length σ := oy]> _) in *.
  assert (shape (np_T (data nb)) = [m; k]) as HsbT by (simpl; by rewrite Hsb).
  assert (shape (np_T (data na)) = [k]) as HsaT by (simpl; by rewrite Hsa).
  pose proof (np_matmul_1d_2d (np_ones [m]) (np_T (data nb)) m k eq_refl HsbT) as Hra.
  set (ra := tabulate [k] _) in Hra.
  apply get_Ok in Hy0 as Hy0l. apply get_Ok in Ha0 as Ha0l.
  apply get_Ok in Hb0 as Hb0l.
  destruct (lookups_after_first σ0 a b (length σ) na (set_grad (NdArr ra) na) nb oy)
    as (Ha1 & Hb1 & Hy1); [done..|].
  exists (σ ++ [ny]), d. split_and!; [done| |done|].
  - unfold data_of. by rewrite lookup_app_r, Nat.sub_diag by lia.
  - rewrite Hbw. simpl _backward. cbn [call_backward].
    rewrite Hy0, Hb0. cbn [mbind result_bind]. simpl grad.
    unfold matmul_val_l. cbn [as_array]. rewrite Hra. cbn [mbind result_bind].
    rewrite (grad_iadd_zeros σ0 a na ra); [|done|done|apply wf_tabulate|by rewrite Hsa].
    cbn [mbind result_bind].
    apply get_Ok in Hy1 as ->. apply get_Ok in Ha1 as ->.
    cbn [mbind result_bind]. simpl grad. simpl data.
    unfold matmul_val_r. cbn [as_array].
    by rewrite (np_matmul_1d_1d_mismatch (np_T (data na)) (np_ones [m]) k m
                 HsaT eq_refl Hkm).
Qed.

Lemma matmul_backward_of_vector_raises_witness :
  ∃ σ1,
    Tensor_matmul 0 (OTensor 1) vector_and_matrix = Ok (2, σ1)
    ∧ data_of σ1 2 = Some (int_array [3] [9; 12; 15]%Z)
    ∧ backward 2 2 σ1 = Err ValueError.
Proof.
  destruct (matmul_backward_of_vector_raises 0 vector_and_matrix 0 1 _ _ 2 3
              eq_refl eq_refl) as (σ1 & d & H1 & H2 & _ & H3);
    [lia| | |reflexivity|reflexivity|lia|].
  { eexists. split; [reflexivity|]. by split_and!. }
  { eexists. split; [reflexivity|]. by split_and!. }
  exists σ1. split; [exact H1|]. split; [|exact H3].
  injection H1 as <-. compute_done.
Defined.

(** ** The traversal reads the parents only *)

Lemma for_each_ext {A S} (f g : A → S → result S) l s :
  (∀ x s, f x s = g x s) → for_each f l s = for_each g l s.
Proof.
  intros Hfg. revert s. induction l as [|x l IH]; intros s; [done|].
  cbn [for_each]. rewrite Hfg. destruct (g x s); [apply IH|done].
Qed.

Lemma build_topo_same_graph (σ σ' : store) depth node st :
  same_graph σ σ' → build_topo depth σ' node st = build_topo depth σ node st.
Proof.
  intros [Hl Hg]. revert node st. induction depth as [|depth IH]; intros node st; [done|].
  rewrite !build_topo_S. case_decide; [done|].
  unfold get. destruct (σ !! node) as [n|] eqn:Hn.
  - destruct (Hg node n Hn) as (n' & -> & Hp). cbn [mbind result_bind].
    rewrite Hp. by rewrite (for_each_ext _ (build_topo depth σ)) by (intros; apply IH).
  - apply lookup_ge_None in Hn. rewrite <- Hl in Hn.
    apply lookup_ge_None in Hn. by rewrite Hn.
Qed.

Lemma same_graph_refl σ : same_graph σ σ.
Proof. split; [done|]. intros t n Hn. by exists n. Qed.

Lemma same_graph_trans σ1 σ2 σ3 :
  same_graph σ1 σ2 → same_graph σ2 σ3 → same_graph σ1 σ3.
Proof.
  intros [Hl1 H1] [Hl2 H2]. split; [congruence|].
  intros t n Hn. destruct (H1 t n Hn) as (n' & Hn' & Hp).
  destruct (H2 t n' Hn') as (n'' & Hn'' & Hp'). exists n''. split; [done|congruence].
Qed.

Lemma grads_moved_same_graph σ σ' : grads_moved σ σ' → same_graph σ σ'.
Proof.
  intros [Hl H]. split; [done|]. intros t n Hn.
  destruct (H t n Hn) as (g & Hg & _). by exists (set_grad g n).
Qed.

Lemma data_moved_same_graph σ σ' : data_moved σ σ' → same_graph σ σ'.
Proof.
  intros [Hl H]. split; [done|]. intros t n Hn.
  destruct (H t n Hn) as (d & Hd & _). by exists (set_data d n).
Qed.

Lemma for_each_same_graph {A} (f : A → store → result store) l (σ σ' : store) :
  (∀ x s s', f x s = Ok s' → same_graph s s') →
  for_each f l σ = Ok σ' → same_graph σ σ'.
Proof.
  intros Hf. revert σ. induction l as [|x l IH]; intros σ; simpl.
  - intros [= <-]. apply same_graph_refl.
  - intros (s1 & H1 & H)%bind_Ok.
    eapply same_graph_trans; [by eapply Hf | by apply IH].
Qed.

Lemma clear_grad_same_graph node (σ σ' : store) :
  clear_grad node σ = Ok σ' → same_graph σ σ'.
Proof.
  unfold clear_grad. intros (n & Hn%get_Ok & [= <-])%bind_Ok.
  split; [by rewrite length_insert|]. intros t m Hm.
  destruct (decide (t = node)) as [->|Hne].
  - assert (m = n) as -> by congruence. exists (set_grad (PyInt 0) n).
    split; [|done]. apply list_lookup_insert_eq. by eapply lookup_lt_Some.
  - exists m. split; [|done]. by rewrite list_lookup_insert_ne.
Qed.

Lemma backward_same_graph depth self (σ σ' : store) :
  backward depth self σ = Ok σ' → same_graph σ σ'.
Proof.
  unfold backward. intros (topo & _ & (s & Hs%get_Ok & H)%bind_Ok)%bind_Ok.
  apply (for_each_moved _ _ _ _ run_backward_moved), grads_moved_same_graph in H.
  eapply same_graph_trans; [|done].
  split; [by rewrite length_insert|]. intros t n Hn.
  destruct (decide (t = self)) as [->|Hne].
  - assert (n = s) as -> by congruence.
    exists (set_grad (NdArr (np_ones (shape (data s)))) s). split; [|done].
    apply list_lookup_insert_eq. by eapply lookup_lt_Some.
  - exists n. split; [|done]. by rewrite list_lookup_insert_ne.
Qed.

Lemma pass_same_graph depth self lr (σ σ' : store) :
  backward depth self σ = Ok σ'
  ∨ zero_grad depth self σ = Ok σ'
  ∨ step depth self lr σ = Ok σ' →
  same_graph σ σ'.
Proof.
  intros [H|[H|H]].
  - by eapply backward_same_graph.
  - unfold zero_grad in H. apply bind_Ok in H as (children & _ & H).
    eapply for_each_same_graph; [|done]. apply clear_grad_same_graph.
  - unfold step in H. apply bind_Ok in H as (children & _ & H).
    by apply for_each_update_moved, data_moved_same_graph in H.
Qed.

Lemma traverse_same_graph (σ σ' : store) d t :
  same_graph σ σ' → _traverse_children d σ' t = _traverse_children d σ t.
Proof.
  intros H. unfold _traverse_children. f_equal. by apply build_topo_same_graph.
Qed.

(** X21.  The traversal depends on the parents only.  [backward],
    [zero_grad] and [step] leave them as they are, so after any of them
    the traversal from any tensor returns what it returned before. *)
Theorem passes_keep_the_traversal depth self lr (σ σ' : store) :
  backward depth self σ = Ok σ'
  ∨ zero_grad depth self σ = Ok σ'
  ∨ step depth self lr σ = Ok σ' →
  ∀ d t, _traverse_children d σ' t = _traverse_children d σ t.
Proof.
  intros H d t. apply traverse_same_graph. by eapply pass_same_graph.
Qed.

Lemma passes_keep_the_traversal_witness :
  ∃ σ', backward 2 2 broadcast_sum_store = Ok σ'
    ∧ _traverse_children 2 σ' 2 = _traverse_children 2 broadcast_sum_store 2.
Proof.
  eexists. split; [reflexivity|].
  exact (passes_keep_the_traversal 2 2 (qz 0) broadcast_sum_store _
           (or_introl eq_refl) 2 2).
Defined.

(** ** [zero_grad] twice *)

Lemma clear_grad_again node (σ : store) :
  grad_of σ node = Some (PyInt 0) → clear_grad node σ = Ok σ.
Proof.
  unfold grad_of, clear_grad. destruct (σ !! node) as [n|] eqn:Hn; [|done].
  intros [= Hg]. apply get_Ok in Hn as Hn'. rewrite Hn'. cbn [mbind result_bind].
  f_equal. apply list_insert_id. rewrite Hn. f_equal.
  destruct n. simpl in Hg. by subst.
Qed.

Lemma for_each_clear_grad_again l (σ : store) :
  (∀ t, t ∈ l → grad_of σ t = Some (PyInt 0)) → for_each clear_grad l σ = Ok σ.
Proof.
  induction l as [|x l IH]; intros H; [done|]. cbn [for_each].
  rewrite clear_grad_again by (apply H; left). cbn [mbind result_bind].
  apply IH. intros t Ht. apply H. by right.
Qed.

(** X22.  A second [zero_grad] from the same tensor succeeds and changes
    nothing. *)
Theorem zero_grad_twice_is_once depth self (σ σ' : store) :
  zero_grad depth self σ = Ok σ' → zero_grad depth self σ' = Ok σ'.
Proof.
  intros H.
  assert (_traverse_children depth σ' self = _traverse_children depth σ self) as Ht.
  { apply traverse_same_graph.
    apply (pass_same_graph depth self (qz 0)). right. by left. }
  unfold zero_grad in *. rewrite Ht.
  apply bind_Ok in H as (children & -> & H). cbn [mbind result_bind].
  apply for_each_clear_grad_again. intros t Ht'.
  apply (for_each_clear_grad _ _ _ _ H). by left.
Qed.

Lemma zero_grad_twice_is_once_witness :
  ∃ σ', zero_grad 2 2 broadcast_sum_store = Ok σ' ∧ zero_grad 2 2 σ' = Ok σ'.
Proof.
  eexists. split; [reflexivity|].
  exact (zero_grad_twice_is_once 2 2 broadcast_sum_store _ eq_refl).
Defined.

(** ** [cross_entropy_loss] *)

Section CrossEntropy.

Variables np_exp np_log : Qc → Qc.

Lemma cross_entropy_loss_Ok self target (σ : store) out σ1 :
  cross_entropy_loss np_exp np_log self target σ = Ok (out, σ1) →
  ∃ ny sigma one_hot_target,
    out = length σ ∧ σ1 = σ ++ [ny] ∧ self < length σ
    ∧ shape (data ny) = []
    ∧ _backward ny
      = BackCrossEntropy self sigma one_hot_target (hd 0 (shape sigma)).
Proof.
  unfold cross_entropy_loss. intros (_ & _ & H)%bind_Ok.
  apply bind_Ok in H as (s & Hs%get_lt & H).
  apply bind_Ok in H as (row_max & _ & H).
  apply bind_Ok in H as (stable & _ & H).
  apply bind_Ok in H as (exp_sum & _ & H).
  apply bind_Ok in H as (sigma & _ & H).
  apply bind_Ok in H as (oh & _ & H).
  apply bind_Ok in H as (prod & _ & H).
  apply bind_Ok in H as (total & Ht & H).
  unfold Tensor_init in H. rewrite alloc_backward in H. injection H as <- <-.
  eexists _, sigma, oh. split_and!; [done|done|done| |done].
  simpl. unfold np_sum in Ht. injection Ht as <-. simpl.
  unfold reduced_shape. apply squash_all. unfold ndim. lia.
Qed.

(** X23.  The closure of [cross_entropy_loss] does not read the gradient
    of the loss: whatever that gradient is bound to, running the closure
    adds the same array to the gradient of [self] and leaves the
    gradient of the loss as it found it. *)
Theorem cross_entropy_closure_ignores_upstream self target (σ : store) out σ1 n g :
  cross_entropy_loss np_exp np_log self target σ = Ok (out, σ1) →
  σ1 !! out = Some n →
  run_backward out (<[out := set_grad g n]> σ1)
  = (λ σ2 : store, <[out := set_grad g n]> σ2) <$> run_backward out σ1.
Proof.
  intros (ny & sigma & oh & -> & -> & Hlt & _ & Hb)%cross_entropy_loss_Ok Hn.
  rewrite lookup_app_r, Nat.sub_diag in Hn by lia. injection Hn as <-.
  set (σ1 := σ ++ [ny]). set (out := length σ).
  assert (σ1 !! out = Some ny) as Hout.
  { subst σ1 out. by rewrite lookup_app_r, Nat.sub_diag by lia. }
  assert (out < length σ1) as Hlen by (by eapply lookup_lt_Some).
  unfold run_backward.
  assert (get (<[out := set_grad g ny]> σ1) out = Ok (set_grad g ny)) as ->.
  { by apply get_Ok, list_lookup_insert_eq. }
  apply get_Ok in Hout as ->. cbn [mbind result_bind]. simpl _backward.
  rewrite Hb. cbn [call_backward].
  destruct (np_binary Qcminus sigma oh) as [d|e]; [|done]. cbn [mbind result_bind].
  unfold grad_iadd, get. rewrite list_lookup_insert_ne by (subst out; lia).
  destruct (σ1 !! self) as [s|]; [|done]. cbn [mbind result_bind].
  destruct (iadd (grad s) _) as [gs|e]; [|done]. cbn [mbind result_bind fmap result_fmap].
  f_equal. apply list_insert_insert_ne. subst out. lia.
Qed.

(** X24.  For a tensor whose value has fewer than two axes,
    [cross_entropy_loss] with a target that passes the assertion raises
    the [AxisError] of the maximum over axis 1. *)
Theorem cross_entropy_needs_two_axes self target (σ : store) n :
  σ !! self = Some n → is_1d_ndarray target = true → ndim (data n) < 2 →
  cross_entropy_loss np_exp np_log self target σ = Err AxisError.
Proof.
  intros Hn Ht Hd. unfold cross_entropy_loss. rewrite Ht.
  cbn [py_assert mbind result_bind]. apply get_Ok in Hn as ->.
  cbn [mbind result_bind]. unfold np_max_axis1. unfold ndim in Hd.
  destruct (shape (data n)) as [|? [|? ?]]; [done|done|simpl in Hd; lia].
Qed.

End CrossEntropy.

Lemma broadcast_rev_ones s t :
  Forall2 (λ x y, y = x ∨ y = 1) s t → broadcast_rev s t = Some s.
Proof.
  induction 1 as [|m n s t Hmn _ IH]; [done|]. simpl. rewrite IH. simpl.
  destruct (decide (m = n)) as [|Hne]; [done|].
  destruct Hmn as [->| ->]; [done|].
  rewrite decide_False by done. by rewrite decide_True.
Qed.

(** A shape and the same shape with some axes reduced to length 1. *)
Lemma broadcast_shapes_ones s t :
  Forall2 (λ x y, y = x ∨ y = 1) s t → broadcast_shapes s t = Some s.
Proof.
  intros H. unfold broadcast_shapes.
  rewrite broadcast_rev_ones by (by apply Forall2_reverse). simpl.
  by rewrite reverse_involutive.
Qed.

Lemma squash_later {A} k keepdims (one : A) i l :
  k < i → squash [k] keepdims one i l = l.
Proof.
  revert i. induction l as [|x l IH]; intros i Hi; [done|]. simpl.
  rewrite bool_decide_eq_false_2 by (intros ?%list_elem_of_singleton; lia).
  simpl. f_equal. apply IH. lia.
Qed.

Lemma reduced_shape_axis1 n c rest :
  reduced_shape [1] true (n :: c :: rest) = n :: 1 :: rest.
Proof.
  unfold reduced_shape. simpl. f_equal. f_equal. apply squash_later. lia.
Qed.

Lemma broadcast_shapes_axis1 n c rest :
  broadcast_shapes (n :: c :: rest) (n :: 1 :: rest) = Some (n :: c :: rest).
Proof.
  apply broadcast_shapes_ones. constructor; [by left|]. constructor; [by right|].
  apply Forall2_same_length_lookup_2; [done|]. intros i x y Hx Hy. left. congruence.
Qed.

Section CrossEntropyGradient.

Variables np_exp np_log : Qc → Qc.

(** X25.  [loss = x.cross_entropy_loss(target); loss.backward()] for a
    fresh leaf [x] whose value has [rows] rows and [cols ≥ 1] columns and
    a target of at most [rows] integer class indices in range: both calls
    succeed.  With [row_max] the maximum over axis 1, [exp_data] the
    exponential of [x - row_max] and [exp_sum] its sum over axis 1, the
    closure holds the softmax [sigma = exp_data / exp_sum] and the one-hot
    array of the target; the value of the loss is, without axes, minus the
    sum of [one_hot * log(sigma)]; and the gradient of [x] is
    [(sigma - one_hot) / rows]. *)
Theorem cross_entropy_gradient_on_leaf depth (σ : store) x n rows cols rest
    ts xs classes :
  σ !! x = Some n → fresh_leaf σ x →
  shape (data n) = rows :: cols :: rest → cols ≠ 0 →
  length ts = 1 → normalize_indices cols xs = Ok classes → length xs ≤ rows →
  ∃ σ1 σ2 ny row_max exp_data exp_sum sigma one_hot_target,
    cross_entropy_loss np_exp np_log x (ObjIntArray ts xs) σ = Ok (length σ, σ1)
    ∧ σ1 !! length σ = Some ny
    ∧ np_max_axis1 (data n) = Ok row_max
    ∧ exp_data
      = tabulate (shape (data n))
          (λ j, np_exp (item (data n) j
                        - item row_max (bcast_index (rows :: 1%nat :: rest) j))%Qc)
    ∧ np_sum exp_data (AxInt 1) true = Ok exp_sum
    ∧ sigma
      = tabulate (shape (data n))
          (λ j, item exp_data j
                / item exp_sum (bcast_index (rows :: 1%nat :: rest) j))%Qc
    ∧ one_hot (shape (data n)) (ObjIntArray ts xs) = Ok one_hot_target
    ∧ data ny
      = np_scalar (- sum_list ((λ j, item one_hot_target j * np_log (item sigma j))%Qc
                               <$> indices (shape (data n))))%Qc
    ∧ _backward ny = BackCrossEntropy x sigma one_hot_target rows
    ∧ backward (2 + depth) (length σ) σ1 = Ok σ2
    ∧ grad_of σ2 x
      = Some (NdArr (tabulate (shape (data n))
                       (λ j, (item sigma j - item one_hot_target j)
                             / qz (Z.of_nat rows))%Qc)).
Proof.
  intros Hn Hx Hs Hc Hts Hxs Hlen. pose proof (fresh_leaf_like _ _ Hx) as Hl.
  pose proof (fresh_leaf_grad _ _ _ Hn Hx) as Hg.
  apply lookup_lt_Some in Hn as Hlt. apply get_Ok in Hn as Hn'.
  set (s := shape (data n)) in *. set (s1 := rows :: 1 :: rest).
  assert (∃ row_max, np_max_axis1 (data n) = Ok row_max
                     ∧ shape row_max = s1) as (row_max & Hrm & Hsrm).
  { unfold np_max_axis1. fold s. rewrite Hs. rewrite decide_False by done.
    eexists. split; [done|]. simpl shape. apply reduced_shape_axis1. }
  set (stable := tabulate s (λ j, (item (data n) j - item row_max (bcast_index s1 j))%Qc)).
  assert (np_binary Qcminus (data n) row_max = Ok stable) as Hst.
  { unfold np_binary. fold s. rewrite Hsrm, Hs. unfold s1.
    rewrite broadcast_shapes_axis1. f_equal. rewrite <- Hs.
    apply tabulate_ext. intros j Hj. by rewrite bcast_index_self. }
  set (exp_data := tabulate s (λ j, np_exp (item (data n) j
                                           - item row_max (bcast_index s1 j))%Qc)).
  assert (np_map np_exp stable = exp_data) as Hexp by apply np_map_tabulate.
  assert (shape exp_data = s) as Hse by done.
  assert (∃ exp_sum, np_sum exp_data (AxInt 1) true = Ok exp_sum
                     ∧ shape exp_sum = s1) as (exp_sum & Hes & Hses).
  { unfold np_sum, ndim. rewrite Hse, Hs.
    rewrite bool_decide_eq_false_2 by (simpl; lia).
    unfold normalize_axis. rewrite decide_True by (simpl; lia).
    cbn [mbind result_bind]. eexists. split; [done|].
    simpl shape. rewrite Hs. apply reduced_shape_axis1. }
  set (sigma := tabulate s (λ j, (item exp_data j / item exp_sum (bcast_index s1 j))%Qc)).
  assert (np_binary Qcdiv exp_data exp_sum = Ok sigma) as Hsi.
  { unfold np_binary. rewrite Hses, Hse, Hs. unfold s1.
    rewrite broadcast_shapes_axis1. f_equal. rewrite <- Hs.
    apply tabulate_ext. intros j Hj. by rewrite bcast_index_self. }
  assert (shape sigma = s) as Hssi by done.
  assert (∃ oh, one_hot s (ObjIntArray ts xs) = Ok oh ∧ shape oh = s
                ∧ wf_array oh) as (oh & Hoh & Hsoh & Hwoh).
  { unfold one_hot. rewrite Hs, Hxs. cbn [mbind result_bind].
    rewrite decide_True by done. eexists. split; [done|].
    split; [done|apply wf_tabulate]. }
  set (prod := tabulate s (λ j, (item oh j * np_log (item sigma j))%Qc)).
  assert (np_multiply oh (np_map np_log sigma) = Ok prod) as Hpr.
  { unfold np_multiply. rewrite np_binary_same_shape by (by rewrite Hsoh).
    f_equal. rewrite Hsoh. apply tabulate_ext. intros j Hj.
    rewrite item_np_map; [done|apply wf_tabulate|done]. }
  set (loss := np_scalar (- sum_list ((λ j, item oh j * np_log (item sigma j))%Qc
                                      <$> indices s))%Qc).
  assert (np_sum prod AxNone false = Ok (np_scalar (sum_list (elems prod)))) as Htot.
  { apply np_sum_all, wf_tabulate. }
  set (ny := MkTensor loss "" (NdArr (np_zeros [])) false false None
               (BackCrossEntropy x sigma oh rows) (list_to_set [x]) (Tag "c-e_loss")).
  assert (cross_entropy_loss np_exp np_log x (ObjIntArray ts xs) σ
          = Ok (length σ, σ ++ [ny])) as H1.
  { unfold cross_entropy_loss. cbn [is_1d_ndarray].
    rewrite bool_decide_eq_true_2 by done. cbn [py_assert mbind result_bind].
    rewrite Hn'. cbn [mbind result_bind]. rewrite Hrm. cbn [mbind result_bind].
    rewrite Hst. cbn [mbind result_bind]. rewrite Hexp, Hes.
    cbn [mbind result_bind]. rewrite Hsi. cbn [mbind result_bind].
    rewrite Hssi, Hoh. cbn [mbind result_bind]. rewrite Hpr.
    cbn [mbind result_bind]. rewrite Htot. cbn [mbind result_bind].
    unfold Tensor_init. rewrite alloc_backward. subst ny loss prod.
    rewrite Hs. reflexivity. }
  assert ((σ ++ [ny]) !! length σ = Some ny) as Hy.
  { by rewrite lookup_app_r, Nat.sub_diag by lia. }
  set (oy := set_grad (NdArr (np_ones (shape (data ny)))) ny).
  destruct (seeded_lookups σ ny oy) as [Hy0 Hold]. subst oy.
  set (ga := tabulate s (λ j, (item sigma j - item oh j) / qz (Z.of_nat rows))%Qc).
  exists (σ ++ [ny]), (<[x := set_grad (NdArr ga) n]>
                         (<[length σ := set_grad (NdArr (np_ones (shape (data ny)))) ny]>
                            (σ ++ [ny]))), ny, row_max, exp_data, exp_sum, sigma, oh.
  split_and!; [done|done|done|done|done|done|done|done|done| |].
  - rewrite (backward_over_leaves depth _ _ ny [x]); [|done|done| |].
    + simpl _backward. cbn [call_backward].
      rewrite np_binary_same_shape by (by rewrite Hssi, Hsoh).
      cbn [mbind result_bind]. rewrite np_map_tabulate, Hssi. fold ga.
      apply grad_iadd_zeros; [by apply Hold|done|apply wf_tabulate|done].
    + constructor; [|done]. destruct Hl as (m & Hm & ? & ?).
      exists m. by rewrite lookup_app_l.
    + intros ?%list_elem_of_singleton. lia.
  - unfold grad_of. rewrite list_lookup_insert_eq; [done|].
    rewrite length_insert, length_app. simpl. lia.
Qed.

End CrossEntropyGradient.

Lemma cross_entropy_gradient_on_leaf_witness :
  ∃ σ1 σ2,
    cross_entropy_loss (λ v, v * v + qz 1)%Qc (λ v, v) 0 class_target two_matrices
    = Ok (2, σ1)
    ∧ data_of σ1 2 = Some (scalar_array (-1))
    ∧ backward 2 2 σ1 = Ok σ2
    ∧ grad_of σ2 0
      = Some (NdArr (NdArray [2; 2] [qfrac (-1) 6; qfrac 1 6;
                                     qfrac 1 3; qfrac (-1) 3])).
Proof.
  destruct (cross_entropy_gradient_on_leaf (λ v, v * v + qz 1)%Qc (λ v, v) 0
              two_matrices 0 _ 2 2 [] [2] [0; 1]%Z [0; 1] eq_refl
              (proj1 two_matrices_fresh) eq_refl)
    as (σ1 & σ2 & ny & row_max & exp_data & exp_sum & sigma & oh
        & H1 & Hny & Hrm & -> & Hes & -> & Hoh & Hd & _ & H2 & H3);
    [lia|reflexivity|reflexivity|simpl; lia|].
  injection Hrm as <-. injection Hes as <-. injection Hoh as <-.
  exists σ1, σ2. split; [exact H1|].
  split; [unfold data_of; rewrite (Hny : σ1 !! 2 = _); simpl; rewrite Hd; compute_done|].
  split; [exact H2|]. rewrite H3. compute_done.
Defined.

Lemma cross_entropy_closure_ignores_upstream_witness :
  ∃ σ1 n,
    cross_entropy_loss (λ v, v * v + qz 1)%Qc (λ v, v) 0 class_target two_matrices
    = Ok (2, σ1)
    ∧ σ1 !! 2 = Some n
    ∧ run_backward 2 (<[2 := set_grad (PyInt 7) n]> σ1)
      = (λ σ2 : list Tensor, <[2 := set_grad (PyInt 7) n]> σ2) <$> run_backward 2 σ1.
Proof.
  destruct (cross_entropy_loss (λ v, v * v + qz 1)%Qc (λ v, v) 0 class_target
              two_matrices) as [[out σ1]|e] eqn:H1; [|by vm_compute in H1].
  assert (out = 2) as ->.
  { destruct (cross_entropy_loss_Ok _ _ _ _ _ _ _ H1) as (? & ? & ? & -> & _). done. }
  destruct (σ1 !! 2) as [n|] eqn:Hn.
  2:{ destruct (cross_entropy_loss_Ok _ _ _ _ _ _ _ H1) as (? & ? & ? & _ & -> & _).
      by vm_compute in Hn. }
  exists σ1, n. split; [done|]. split; [done|].
  exact (cross_entropy_closure_ignores_upstream _ _ 0 class_target two_matrices 2 σ1 n
           (PyInt 7) H1 Hn).
Defined.

Lemma cross_entropy_needs_two_axes_witness :
  cross_entropy_loss (λ v, v) (λ v, v) 0 class_target one_vector = Err AxisError.
Proof.
  apply (cross_entropy_needs_two_axes (λ v, v) (λ v, v) 0 class_target one_vector _
           eq_refl eq_refl).
  compute. lia.
Defined.

(** ** A difference of two leaves *)

Lemma ancestor_within (σ : store) (P : tensor_id → Prop) root t :
  P root → (∀ x p, P x → parent σ x p → P p) → ancestor σ root t → P t.
Proof.
  intros Hroot Hcl Ha. induction Ha as [|x p z Hp _ IH]; [done|].
  apply IH. by eapply Hcl.
Qed.

(** In a run of closures over distinct tensors of which all but [m] are
    leaves, only the closure of [m] does anything. *)
Lemma for_each_run_backward_only (σ : store) m l :
  NoDup l → m ∈ l →
  (∀ x, x ∈ l → x ≠ m → ∃ n, σ !! x = Some n ∧ _backward n = back_none) →
  for_each run_backward l σ = run_backward m σ.
Proof.
  induction 1 as [|x l Hx Hnd IH]; intros Hm Hl; [by apply elem_of_nil in Hm|].
  cbn [for_each]. destruct (decide (x = m)) as [->|Hne].
  - destruct (run_backward m σ) as [σ'|e] eqn:Hr; [|done]. cbn [mbind result_bind].
    apply for_each_run_backward_leaves. apply Forall_forall. intros c Hc.
    destruct (Hl c) as (n & Hn & Hb); [by right|by intros ->|].
    apply run_backward_moved in Hr as [_ Hr]. destruct (Hr c n Hn) as (g & Hg & _).
    exists (set_grad g n). by split.
  - destruct (Hl x) as (n & Hn & Hb); [by left|done|].
    assert (run_backward x σ = Ok σ) as ->.
    { unfold run_backward. apply get_Ok in Hn as ->. cbn [mbind result_bind].
      by rewrite Hb. }
    cbn [mbind result_bind]. apply IH.
    + apply elem_of_cons in Hm as [->|Hm]; done.
    + intros c Hc. apply Hl. by right.
Qed.

Lemma broadcast_shapes_nil_l s : broadcast_shapes [] s = Some s.
Proof.
  unfold broadcast_shapes. rewrite reverse_nil. simpl. by rewrite reverse_involutive.
Qed.

Lemma mul_scalar_ones v s :
  mul_array_val (np_scalar v) (NdArr (np_ones s)) = Ok (np_full s v).
Proof.
  unfold mul_array_val, np_multiply, np_binary. cbn [as_array].
  change (shape (np_scalar v)) with (@nil nat). change (shape (np_ones s)) with s.
  rewrite broadcast_shapes_nil_l. f_equal. rewrite <- (tabulate_const s).
  apply tabulate_ext. intros j Hj. rewrite (bcast_index_self s j) by done.
  unfold np_ones. rewrite (item_np_full s) by done.
  change (item (np_scalar v) (bcast_index [] j)) with v. rewrite qz_1. ring.
Qed.

Lemma mul_by_scalar a v :
  ∃ d, np_multiply a (np_scalar v) = Ok d ∧ shape d = shape a.
Proof.
  unfold np_multiply, np_binary. simpl. rewrite broadcast_shapes_nil_r.
  eexists. split; [done|]. done.
Qed.

(** A gradient reshaped for a target without axes. *)
Lemma reshape_gradient_scalar g :
  wf_array g →
  ∃ r, reshape_gradient (NdArr g) [] = Ok r ∧ shape r = [] ∧ wf_array r.
Proof.
  intros Hwf. unfold reshape_gradient. cbn [shape_attr mbind result_bind as_array].
  case_decide as Hs; [by exists g|]. rewrite decide_True by done.
  rewrite np_sum_all by done. eexists. by split_and!.
Qed.

(** X26.  [y = a - b; y.backward()] for two fresh leaves of one shape: the
    difference is built as [a + b * (-1)] with two new tensors besides
    [y]; with three frames or more [backward] succeeds, the gradient of
    [a] is ones and the gradient of [b] is minus ones. *)
Theorem difference_rule_on_leaves depth (σ : store) a b na nb :
  σ !! a = Some na → σ !! b = Some nb → a ≠ b →
  fresh_leaf σ a → fresh_leaf σ b →
  wf_array (data nb) → shape (data na) = shape (data nb) →
  ∃ σ1 σ2,
    Tensor_sub a (OTensor b) σ = Ok (2 + length σ, σ1)
    ∧ length σ1 = 3 + length σ
    ∧ backward (3 + depth) (2 + length σ) σ1 = Ok σ2
    ∧ grad_of σ2 a = Some (NdArr (np_ones (shape (data na))))
    ∧ grad_of σ2 b = Some (NdArr (np_full (shape (data nb)) (qz (-1)))).
Proof.
  intros Ha Hb Hab Hfa Hfb Hwb Hs.
  pose proof (fresh_leaf_grad _ _ _ Ha Hfa) as Hga.
  pose proof (fresh_leaf_grad _ _ _ Hb Hfb) as Hgb.
  destruct Hfa as (na' & Hna' & Hba & Hpa & _). assert (na' = na) as -> by congruence.
  destruct Hfb as (nb' & Hnb' & Hbb & Hpb & _). assert (nb' = nb) as -> by congruence.
  apply lookup_lt_Some in Ha as Hla. apply lookup_lt_Some in Hb as Hlb.
  set (s := shape (data nb)) in *.
  (* the three new tensors *)
  set (nc := MkTensor (np_scalar (qz (-1))) "" (NdArr (np_zeros [])) false false None
               back_none (list_to_set []) (Tag "")).
  destruct (mul_by_scalar (data nb) (qz (-1))) as (dm & Hdm & Hsm). fold s in Hsm.
  set (nm := MkTensor dm "" (NdArr (np_zeros (shape dm))) false false None
               (BackMul b (length σ) (S (length σ))) (list_to_set [b; length σ])
               (Tag "*")).
  set (dy := tabulate (shape (data na)) (λ j, (item (data na) j + item dm j)%Qc)).
  set (ny := MkTensor dy "" (NdArr (np_zeros (shape dy))) false false None
               (BackAdd a (S (length σ)) (S (S (length σ))))
               (list_to_set [a; S (length σ)]) (Tag "+")).
  set (σ1 := ((σ ++ [nc]) ++ [nm]) ++ [ny]).
  assert (length σ1 = 3 + length σ) as Hlen1.
  { subst σ1. rewrite !length_app. simpl. lia. }
  assert (∀ t n, σ !! t = Some n → σ1 !! t = Some n) as Hold.
  { intros t n Hn. apply lookup_lt_Some in Hn as Hlt. subst σ1.
    rewrite !lookup_app_l by (rewrite ?length_app; simpl; lia). done. }
  assert (σ1 !! length σ = Some nc) as Hc1.
  { subst σ1. rewrite !lookup_app_l by (rewrite ?length_app; simpl; lia).
    by rewrite lookup_app_r, Nat.sub_diag by lia. }
  assert (σ1 !! S (length σ) = Some nm) as Hm1.
  { subst σ1. rewrite lookup_app_l by (rewrite ?length_app; simpl; lia).
    rewrite lookup_app_r by (rewrite ?length_app; simpl; lia).
    rewrite length_app. simpl. by replace (S (length σ) - (length σ + 1)) with 0 by lia. }
  assert (σ1 !! S (S (length σ)) = Some ny) as Hy1.
  { subst σ1. rewrite lookup_app_r by (rewrite ?length_app; simpl; lia).
    rewrite !length_app. simpl.
    by replace (S (S (length σ)) - (length σ + 1 + 1)) with 0 by lia. }
  assert (Tensor_sub a (OTensor b) σ = Ok (2 + length σ, σ1)) as H1.
  { unfold Tensor_sub, Tensor_neg, Tensor_mul, Tensor_add, get.
    cbn [promote Tensor_const Tensor_init].
    rewrite (lookup_app_l σ _ b), Hb by done. cbn [mbind result_bind].
    rewrite list_lookup_middle by done. cbn [mbind result_bind].
    simpl data. rewrite Hdm. cbn [mbind result_bind]. rewrite alloc_backward.
    rewrite (lookup_app_l (σ ++ _) _ a) by (rewrite length_app; simpl; lia).
    rewrite (lookup_app_l σ _ a), Ha by done. cbn [mbind result_bind].
    rewrite list_lookup_middle by done. cbn [mbind result_bind]. simpl data.
    unfold np_add. rewrite np_binary_same_shape by (by rewrite Hsm).
    cbn [mbind result_bind]. rewrite alloc_backward.
    subst σ1 ny nm nc dy. rewrite !length_app. simpl length.
    replace (length σ + 1) with (S (length σ)) by lia.
    replace (S (length σ) + 1) with (S (S (length σ))) by lia. done. }
  (* the graph below the difference *)
  set (c := length σ) in *. set (m := S c) in *. set (y := S m) in *.
  set (P := λ t, t = y ∨ t = a ∨ t = m ∨ t = b ∨ t = c).
  assert (∀ x p, P x → parent σ1 x p →
            P p ∧ (x = y ∧ (p = a ∨ p = m) ∨ x = m ∧ (p = b ∨ p = c))) as Hparents.
  { intros x p Hx (n & Hn & Hp).
    destruct Hx as [->|[->|[->|[->| ->]]]].
    - assert (n = ny) as -> by congruence. unfold ny in Hp. cbn [_prev] in Hp.
      apply elem_of_list_to_set in Hp.
      apply elem_of_cons in Hp as [->|Hp]; [unfold P; tauto|].
      apply list_elem_of_singleton in Hp as ->. unfold P; tauto.
    - rewrite (Hold a na Ha) in Hn. injection Hn as <-. rewrite Hpa in Hp.
      by apply not_elem_of_empty in Hp.
    - assert (n = nm) as -> by congruence. unfold nm in Hp. cbn [_prev] in Hp.
      apply elem_of_list_to_set in Hp.
      apply elem_of_cons in Hp as [->|Hp]; [unfold P; tauto|].
      apply list_elem_of_singleton in Hp as ->. unfold P; tauto.
    - rewrite (Hold b nb Hb) in Hn. injection Hn as <-. rewrite Hpb in Hp.
      by apply not_elem_of_empty in Hp.
    - assert (n = nc) as -> by congruence. simpl in Hp.
      by apply not_elem_of_empty in Hp. }
  assert (∀ t, ancestor σ1 y t → P t) as Hanc.
  { intros t. apply ancestor_within; [by left|]. intros x p Hx Hp.
    by destruct (Hparents x p Hx Hp). }
  set (rank := λ t : nat, if decide (t = y) then 2 else if decide (t = m) then 1 else 0).
  assert (ranked σ1 y rank) as Hr.
  { intros t n p Ht Hn Hp.
    destruct (Hparents t p (Hanc t Ht)) as [_ Hcase]; [by exists n|].
    subst rank. simpl.
    destruct Hcase as [[-> [->| ->]]|[-> [->| ->]]];
      repeat case_decide; subst c m y; lia. }
  destruct (traverse_ancestors σ1 rank (3 + depth) y Hr) as
    (topo & Htopo & Hnd & Hin & _ & Hlast); [lia|subst rank; simpl;
      rewrite decide_True by done; lia|].
  apply last_Some in Hlast as [l ->].
  apply NoDup_app in Hnd as (Hndl & Hyl & _).
  assert (m ∈ l) as Hml.
  { assert (m ∈ l ++ [y]) as Hm.
    { apply Hin. apply rtc_once. exists ny. split; [done|].
      unfold ny. cbn [_prev].
      apply elem_of_list_to_set, list_elem_of_further, list_elem_of_here. }
    apply elem_of_app in Hm as [?|Hm%list_elem_of_singleton]; [done|]. subst m y. lia. }
  assert (∀ x, x ∈ l → x ≠ m → x = a ∨ x = b ∨ x = c) as Hleaves.
  { intros x Hx Hxm. assert (P x) as Hpx.
    { apply Hanc, Hin, elem_of_app. by left. }
    destruct Hpx as [->|[->|[->|[->| ->]]]]; try tauto.
    destruct (Hyl y Hx). by left. }
  (* the pass *)
  set (r := np_ones (shape (data na))).
  assert (wf_array r) as Hwr by apply wf_np_full.
  set (oy := set_grad (NdArr (np_ones (shape (data ny)))) ny).
  set (σ0 := <[y := oy]> σ1).
  set (σa := <[a := set_grad (NdArr r) na]> σ0).
  set (σy := <[m := set_grad (NdArr r) nm]> σa).
  set (p := np_full s (qz (-1))).
  set (σb := <[b := set_grad (NdArr p) nb]> σy).
  assert (a < c ∧ b < c ∧ a ≠ b) as Hidx by (subst c; lia).
  assert (length σ0 = 3 + c) as Hl0 by (subst σ0; by rewrite length_insert).
  assert (length σa = 3 + c) as Hlena by (subst σa; by rewrite length_insert).
  assert (length σy = 3 + c) as Hleny by (subst σy; by rewrite length_insert).
  assert (length σb = 3 + c) as Hlenb by (subst σb; by rewrite length_insert).
  assert (run_backward y σ0 = Ok σy) as Hry.
  { unfold run_backward.
    assert (get σ0 y = Ok oy) as Hgy.
    { apply get_Ok, list_lookup_insert_eq. subst y m. lia. }
    rewrite Hgy. cbn [mbind result_bind]. simpl _backward. cbn [call_backward].
    rewrite Hgy.
    assert (get σ0 a = Ok na) as ->.
    { apply get_Ok. subst σ0. rewrite list_lookup_insert_ne by (subst y m; lia).
      by apply Hold. }
    cbn [mbind result_bind]. simpl grad. change (shape (data ny)) with (shape (data na)).
    fold r. rewrite (reshape_gradient_same_shape r) by done. cbn [mbind result_bind].
    rewrite (grad_iadd_zeros σ0 a na r); [|subst σ0|done|done|done].
    2:{ rewrite list_lookup_insert_ne by (subst y m; lia). by apply Hold. }
    cbn [mbind result_bind]. fold σa.
    assert (get σa y = Ok oy) as ->.
    { apply get_Ok. subst σa. rewrite list_lookup_insert_ne by (subst y m; lia).
      apply list_lookup_insert_eq. subst y m. lia. }
    assert (σa !! m = Some nm) as Hma.
    { subst σa σ0. rewrite !list_lookup_insert_ne by (subst y m; lia). done. }
    apply get_Ok in Hma as Hma'. rewrite Hma'. cbn [mbind result_bind]. simpl grad.
    change (shape (data ny)) with (shape (data na)). fold r. simpl data.
    rewrite (reshape_gradient_same_shape r) by (subst r; simpl; congruence).
    cbn [mbind result_bind].
    apply grad_iadd_zeros; [done|done|done|]. subst r. simpl. congruence. }
  assert (σy !! m = Some (set_grad (NdArr r) nm)) as Hmy.
  { apply list_lookup_insert_eq. subst m. lia. }
  assert (σy !! b = Some nb) as Hby.
  { subst σy σa σ0. rewrite !list_lookup_insert_ne by (subst y m; lia). by apply Hold. }
  assert (σy !! c = Some nc) as Hcy.
  { subst σy σa σ0. rewrite !list_lookup_insert_ne by (subst y m; lia). done. }
  assert (σy !! a = Some (set_grad (NdArr r) na)) as Hay.
  { subst σy. rewrite list_lookup_insert_ne by (subst m; lia).
    apply list_lookup_insert_eq. lia. }
  destruct (reshape_gradient_scalar (data nb) Hwb) as (rc & Hrc & Hsrc & Hwrc).
  assert (run_backward m σy
          = Ok (<[c := set_grad (NdArr rc) nc]> σb)) as Hrm.
  { unfold run_backward. apply get_Ok in Hmy as Hmy'. rewrite Hmy'.
    cbn [mbind result_bind]. simpl _backward. cbn [call_backward].
    apply get_Ok in Hby as Hby'. apply get_Ok in Hcy as Hcy'.
    rewrite Hmy', Hby', Hcy'. cbn [mbind result_bind]. simpl grad. simpl data.
    subst r. rewrite Hs. fold s. rewrite mul_scalar_ones. cbn [mbind result_bind].
    fold p. rewrite (reshape_gradient_same_shape p) by done. cbn [mbind result_bind].
    rewrite (grad_iadd_zeros σy b nb p); [|done|done|apply wf_np_full|done].
    cbn [mbind result_bind]. fold σb.
    assert (get σb m = Ok (set_grad (NdArr (np_ones s)) nm)) as ->.
    { apply get_Ok. subst σb. rewrite list_lookup_insert_ne by (subst m; lia).
      rewrite Hmy. by rewrite Hs. }
    assert (get σb b = Ok (set_grad (NdArr p) nb)) as ->.
    { apply get_Ok, list_lookup_insert_eq. lia. }
    assert (σb !! c = Some nc) as Hcb.
    { subst σb. by rewrite list_lookup_insert_ne by lia. }
    apply get_Ok in Hcb as Hcb'. rewrite Hcb'. cbn [mbind result_bind].
    simpl grad. simpl data.
    rewrite (mul_by_ones (data nb) s Hwb) by (by left). cbn [mbind result_bind].
    change (shape (np_scalar (qz (-1)))) with (@nil nat). rewrite Hrc. cbn [mbind result_bind].
    by apply grad_iadd_zeros. }
  exists σ1, (<[c := set_grad (NdArr rc) nc]> σb).
  split_and!; [done|done| | |].
  - change (2 + c) with y. unfold backward. rewrite Htopo.
    cbn [mbind result_bind]. apply get_Ok in Hy1 as ->. cbn [mbind result_bind].
    rewrite reverse_snoc. cbn [for_each]. fold oy. fold σ0. rewrite Hry.
    cbn [mbind result_bind].
    rewrite (for_each_run_backward_only σy m); [done| | |].
    + by rewrite reverse_Permutation.
    + by rewrite elem_of_reverse.
    + intros x Hx Hxm. rewrite elem_of_reverse in Hx.
      destruct (Hleaves x Hx Hxm) as [->|[->| ->]]; eexists; (split; [done|]); done.
  - unfold grad_of. subst σb.
    rewrite !list_lookup_insert_ne by lia. by rewrite Hay.
  - unfold grad_of. rewrite list_lookup_insert_ne by lia. subst σb.
    rewrite list_lookup_insert_eq by lia. done.
Qed.

Lemma difference_rule_on_leaves_witness :
  ∃ σ1 σ2,
    Tensor_sub 0 (OTensor 1) two_matrices = Ok (4, σ1)
    ∧ backward 3 4 σ1 = Ok σ2
    ∧ grad_of σ2 0 = Some (NdArr (int_array [2; 2] [1; 1; 1; 1]%Z))
    ∧ grad_of σ2 1 = Some (NdArr (int_array [2; 2] [-1; -1; -1; -1]%Z)).
Proof.
  destruct (difference_rule_on_leaves 0 two_matrices 0 1 _ _ eq_refl eq_refl)
    as (σ1 & σ2 & H1 & _ & H2 & H3 & H4);
    [lia|apply two_matrices_fresh|apply two_matrices_fresh|reflexivity..|].
  exists σ1, σ2. split; [exact H1|]. split; [exact H2|].
  split; [rewrite H3|rewrite H4]; compute_done.
Defined.

(** * Gradients that accumulate *)

(** ** C8: a tensor used as both operands *)

Lemma iadd_ones_ones s :
  iadd (NdArr (np_ones s)) (NdArr (np_ones s)) = Ok (NdArr (np_full s (qz 2))).
Proof.
  apply iadd_arrays. split; [apply broadcast_shapes_refl|]. f_equal.
  change (shape (np_ones s)) with s. rewrite <- (tabulate_const s).
  apply tabulate_ext. intros j Hj. rewrite bcast_index_self by done.
  unfold np_ones. rewrite !item_np_full by done. rewrite qz_1, qz_2. ring.
Qed.

Lemma iadd_same a :
  wf_array a → iadd (NdArr a) (NdArr a) = Ok (NdArr (np_map (λ v, v + v)%Qc a)).
Proof.
  intros Hwf. apply iadd_arrays. split; [apply broadcast_shapes_refl|]. f_equal.
  rewrite (np_map_as_tabulate _ a Hwf).
  apply tabulate_ext. intros j Hj. by rewrite bcast_index_self.
Qed.

(** C8.  When one fresh leaf [x] is both operands, the parents of the
    result are the one tensor [x], and [backward] adds both
    contributions to the gradient of [x]: after [y = x + x] it is
    [1 + 1] everywhere, after [y = x * x] it is [x + x], whatever the
    shape and the elements of [x].  For [x = 3.0] that is 2 after the
    sum, for [x = 2.0] it is 4 after the product. *)
Theorem diamond_accumulates_both_contributions depth (σ : store) x n :
  σ !! x = Some n → fresh_leaf σ x → wf_array (data n) →
  (∃ σ1 σ2,
      Tensor_add x (OTensor x) σ = Ok (length σ, σ1)
      ∧ parents_of σ1 (length σ) = Some {[x]}
      ∧ backward (2 + depth) (length σ) σ1 = Ok σ2
      ∧ grad_of σ2 x = Some (NdArr (np_full (shape (data n)) (qz 2))))
  ∧ (∃ σ1 σ2,
      Tensor_mul x (OTensor x) σ = Ok (length σ, σ1)
      ∧ parents_of σ1 (length σ) = Some {[x]}
      ∧ backward (2 + depth) (length σ) σ1 = Ok σ2
      ∧ grad_of σ2 x = Some (NdArr (np_map (λ v, v + v)%Qc (data n)))).
Proof.
  intros Hx Hfx Hwf.
  pose proof (fresh_leaf_grad _ _ _ Hx Hfx) as Hg.
  apply get_Ok in Hx as Hx'. apply lookup_lt_Some in Hx as Hlt.
  assert (list_to_set [x; x] =@{gset nat} {[x]}) as Hset.
  { simpl. rewrite (right_id_L ∅ (∪)). apply union_idemp_L. }
  split.
  - set (d := tabulate (shape (data n)) (λ j, (item (data n) j + item (data n) j)%Qc)).
    set (ny := MkTensor d "" (NdArr (np_zeros (shape d))) false false None
                 (BackAdd x x (length σ)) (list_to_set [x; x]) (Tag "+")).
    assert (Tensor_add x (OTensor x) σ = Ok (length σ, σ ++ [ny])) as H1.
    { unfold Tensor_add. cbn [promote]. rewrite Hx'. cbn [mbind result_bind].
      unfold np_add. rewrite (np_binary_same_shape _ _ _ eq_refl).
      cbn [mbind result_bind]. unfold Tensor_init. by rewrite alloc_backward. }
    destruct (two_leaves_seeded depth σ x x n n ny [x; x] Hx Hx Hfx Hfx eq_refl
                (operand_pair x x)) as (Hbw & Hy0 & Hx0 & _ & Hxy & _).
    set (oy := set_grad _ ny) in *. set (σ0 := <[length σ := oy]> _) in *.
    set (r := np_ones (shape (data n))).
    assert (wf_array r) as Hwr by apply wf_np_full.
    apply get_Ok in Hx0 as Hx0l. apply get_Ok in Hy0 as Hy0l.
    set (σa := <[x := set_grad (NdArr r) n]> σ0).
    assert (σa !! x = Some (set_grad (NdArr r) n)) as Hxa.
    { apply list_lookup_insert_eq. by eapply lookup_lt_Some. }
    assert (σa !! length σ = Some oy) as Hya.
    { subst σa. by rewrite list_lookup_insert_ne. }
    exists (σ ++ [ny]),
      (<[x := set_grad (NdArr (np_full (shape (data n)) (qz 2))) n]> σa).
    split_and!; [done| | |].
    + unfold parents_of. rewrite lookup_app_r, Nat.sub_diag by lia. simpl.
      f_equal. rewrite (right_id_L ∅ (∪)). apply union_idemp_L.
    + rewrite Hbw. simpl _backward. cbn [call_backward].
      rewrite Hy0, Hx0. cbn [mbind result_bind]. simpl grad. fold r.
      rewrite (reshape_gradient_same_shape r) by done. cbn [mbind result_bind].
      rewrite (grad_iadd_zeros σ0 x n r) by done. cbn [mbind result_bind]. fold σa.
      apply get_Ok in Hya as ->. apply get_Ok in Hxa as Hxa'. rewrite Hxa'.
      cbn [mbind result_bind]. simpl grad. simpl data. fold r.
      rewrite (reshape_gradient_same_shape r) by done. cbn [mbind result_bind].
      apply grad_iadd_Ok. eexists _, _. split_and!; [done| |done].
      simpl grad. apply iadd_ones_ones.
    + unfold grad_of. rewrite list_lookup_insert_eq; [done|].
      by eapply lookup_lt_Some.
  - set (d := tabulate (shape (data n)) (λ j, (item (data n) j * item (data n) j)%Qc)).
    set (ny := MkTensor d "" (NdArr (np_zeros (shape d))) false false None
                 (BackMul x x (length σ)) (list_to_set [x; x]) (Tag "*")).
    assert (Tensor_mul x (OTensor x) σ = Ok (length σ, σ ++ [ny])) as H1.
    { unfold Tensor_mul. cbn [promote]. rewrite Hx'. cbn [mbind result_bind].
      unfold np_multiply. rewrite (np_binary_same_shape _ _ _ eq_refl).
      cbn [mbind result_bind]. unfold Tensor_init. by rewrite alloc_backward. }
    destruct (two_leaves_seeded depth σ x x n n ny [x; x] Hx Hx Hfx Hfx eq_refl
                (operand_pair x x)) as (Hbw & Hy0 & Hx0 & _ & Hxy & _).
    set (oy := set_grad _ ny) in *. set (σ0 := <[length σ := oy]> _) in *.
    apply get_Ok in Hx0 as Hx0l. apply get_Ok in Hy0 as Hy0l.
    set (σa := <[x := set_grad (NdArr (data n)) n]> σ0).
    assert (σa !! x = Some (set_grad (NdArr (data n)) n)) as Hxa.
    { apply list_lookup_insert_eq. by eapply lookup_lt_Some. }
    assert (σa !! length σ = Some oy) as Hya.
    { subst σa. by rewrite list_lookup_insert_ne. }
    exists (σ ++ [ny]),
      (<[x := set_grad (NdArr (np_map (λ v, v + v)%Qc (data n))) n]> σa).
    split_and!; [done| | |].
    + unfold parents_of. rewrite lookup_app_r, Nat.sub_diag by lia. simpl.
      f_equal. rewrite (right_id_L ∅ (∪)). apply union_idemp_L.
    + rewrite Hbw. simpl _backward. cbn [call_backward].
      rewrite Hy0, Hx0. cbn [mbind result_bind]. simpl grad.
      rewrite (mul_by_ones (data n) _ Hwf) by (by left). cbn [mbind result_bind].
      rewrite (reshape_gradient_same_shape (data n)) by done.
      cbn [mbind result_bind].
      rewrite (grad_iadd_zeros σ0 x n (data n)) by done. cbn [mbind result_bind].
      fold σa. apply get_Ok in Hya as ->. apply get_Ok in Hxa as Hxa'. rewrite Hxa'.
      cbn [mbind result_bind]. simpl grad. simpl data.
      rewrite (mul_by_ones (data n) _ Hwf) by (by left). cbn [mbind result_bind].
      rewrite (reshape_gradient_same_shape (data n)) by done.
      cbn [mbind result_bind].
      apply grad_iadd_Ok. eexists _, _. split_and!; [done| |done].
      simpl grad. by apply iadd_same.
    + unfold grad_of. rewrite list_lookup_insert_eq; [done|].
      by eapply lookup_lt_Some.
Qed.

Lemma diamond_accumulates_both_contributions_witness :
  (∃ σ1 σ2,
      Tensor_add 0 (OTensor 0) (Tensor_leaf (scalar_array 3) []).2 = Ok (1, σ1)
      ∧ backward 2 1 σ1 = Ok σ2
      ∧ grad_of σ2 0 = Some (NdArr (scalar_array 2)))
  ∧ (∃ σ1 σ2,
      Tensor_mul 0 (OTensor 0) (Tensor_leaf (scalar_array 2) []).2 = Ok (1, σ1)
      ∧ backward 2 1 σ1 = Ok σ2
      ∧ grad_of σ2 0 = Some (NdArr (scalar_array 4)))
  ∧ (∃ σ1 σ2,
      Tensor_mul 0 (OTensor 0) (Tensor_leaf (int_array [2] [3; 5]%Z) []).2 = Ok (1, σ1)
      ∧ backward 2 1 σ1 = Ok σ2
      ∧ grad_of σ2 0 = Some (NdArr (int_array [2] [6; 10]%Z))).
Proof.
  split_and!.
  - destruct (diamond_accumulates_both_contributions 0
                (Tensor_leaf (scalar_array 3) []).2 0 _ eq_refl)
      as ((σ1 & σ2 & H1 & _ & H2 & H3) & _); [|reflexivity|].
    { eexists. split; [reflexivity|]. by split_and!. }
    exists σ1, σ2. split; [exact H1|]. split; [exact H2|]. rewrite H3. compute_done.
  - destruct (diamond_accumulates_both_contributions 0
                (Tensor_leaf (scalar_array 2) []).2 0 _ eq_refl)
      as (_ & σ1 & σ2 & H1 & _ & H2 & H3); [|reflexivity|].
    { eexists. split; [reflexivity|]. by split_and!. }
    exists σ1, σ2. split; [exact H1|]. split; [exact H2|]. rewrite H3. compute_done.
  - destruct (diamond_accumulates_both_contributions 0
                (Tensor_leaf (int_array [2] [3; 5]%Z) []).2 0 _ eq_refl)
      as (_ & σ1 & σ2 & H1 & _ & H2 & H3); [|reflexivity|].
    { eexists. split; [reflexivity|]. by split_and!. }
    exists σ1, σ2. split; [exact H1|]. split; [exact H2|]. rewrite H3. compute_done.
Defined.

(** ** C10: calling [backward] twice, for any root *)

(** ** The closures as sequences of augmented assignments *)





(** ** Whether numpy raises depends on the shapes only *)







(** ** A pass on other gradients of the same shapes *)











(** ** What a closure reads *)

Lemma same_data_refl σ : same_data σ σ.
Proof. split; [done|]. intros t n Hn. exists (grad n). by rewrite set_grad_same. Qed.










(** ** What a closure writes *)






(** ** The gradient of one tensor under a list of assignments *)

Lemma for_each_app_Ok {A S} (f : A → S → result S) l1 l2 (s s' : S) :
  for_each f (l1 ++ l2) s = Ok s' ↔
  ∃ s1, for_each f l1 s = Ok s1 ∧ for_each f l2 s1 = Ok s'.
Proof.
  revert s. induction l1 as [|x l1 IH]; intros s; simpl.
  - split; [intros H; by exists s | by intros (s1 & [= <-] & H)].
  - split.
    + intros (s0 & H0 & (s1 & H1 & H2)%IH)%bind_Ok. exists s1. by rewrite H0.
    + intros (s1 & (s0 & H0 & H1)%bind_Ok & H2). rewrite H0. simpl.
      apply IH. by exists s1.
Qed.







(** ** The traversal lists ancestors only *)



(** ** Two calls of [backward] *)








(** ** The operations bind closures that read their own result *)

Lemma closures_bound_snoc (σ : store) n :
  closures_bound σ → closure_bound (length σ) (_backward n) → closures_bound (σ ++ [n]).
Proof.
  intros Hcb Hn t m Hm. destruct (decide (t < length σ)).
  - rewrite lookup_app_l in Hm by done. by apply Hcb.
  - rewrite lookup_app_r in Hm by lia.
    destruct (t - length σ) as [|k] eqn:Hk; [|done]. injection Hm as <-.
    by replace t with (length σ) by lia.
Qed.

Lemma closures_bound_alloc (σ : store) d ps tag c out σ' :
  closures_bound σ → closure_bound (length σ) c →
  (let '(out, σ1) := Tensor_init d ps tag "" false false σ in
   Ok (out, bind_backward out c σ1)) = Ok (out, σ') →
  closures_bound σ'.
Proof.
  intros Hcb Hc. unfold Tensor_init. rewrite alloc_backward. intros [= _ <-].
  by apply closures_bound_snoc.
Qed.

Lemma closures_bound_promote other (σ : store) :
  closures_bound σ → closures_bound (promote other σ).2.
Proof.
  destruct other as [t|a]; [done|]. simpl. intros Hcb.
  apply closures_bound_snoc; [done|]. split; [done|constructor].
Qed.

Lemma binds_closures_binary kernel tag (ps : tensor_id → tensor_id → list tensor_id)
    (mk : tensor_id → tensor_id → tensor_id → closure) self other :
  (∀ s o out, reads_grad_of (mk s o out) = Some out ∧ operands (mk s o out) = [s; o]) →
  binds_closures (λ σ,
    let '(other, σ) := promote other σ in
    s ← get σ self; o ← get σ other;
    d ← kernel (data s) (data o);
    let '(out, σ) := Tensor_init d (ps self other) tag "" false false σ in
    Ok (out, bind_backward out (mk self other out) σ)).
Proof.
  intros Hmk σ out σ' H Hcb. apply (closures_bound_promote other) in Hcb.
  destruct (promote other σ) as [o σ1]. simpl in Hcb.
  apply bind_Ok in H as (s & Hs%get_lt & (t & Ht%get_lt & (d & _ & H)%bind_Ok)%bind_Ok).
  unfold Tensor_init in H.
  apply (closures_bound_alloc σ1 d (ps self o) tag (mk self o (length σ1)) out σ');
    [done| |exact H].
  destruct (Hmk self o (length σ1)) as [Hr Ho]. split.
  - intros r. rewrite Hr. by intros [= <-].
  - rewrite Ho. by repeat constructor.
Qed.

Lemma binds_closures_single {X} (forward : ndarray → result X) (value : X → ndarray)
    tag (mk : X → tensor_id → closure) self :
  (∀ x out r, reads_grad_of (mk x out) = Some r → r = out) →
  (∀ x out, operands (mk x out) = [self]) →
  binds_closures (λ σ,
    s ← get σ self; x ← forward (data s);
    let '(out, σ) := Tensor_init (value x) [self] tag "" false false σ in
    Ok (out, bind_backward out (mk x out) σ)).
Proof.
  intros Hr Ho σ out σ' H Hcb.
  apply bind_Ok in H as (s & Hs%get_lt & (x & _ & H)%bind_Ok).
  unfold Tensor_init in H.
  apply (closures_bound_alloc σ (value x) [self] tag (mk x (length σ)) out σ');
    [done| |exact H].
  split; [apply Hr|]. rewrite Ho. by repeat constructor.
Qed.

(** The constructor and the operations keep [closures_bound]: a leaf has
    the closure that does nothing, and the closure of a result reads the
    gradient of that result and adds to the operands, which are older. *)
Lemma operations_bind_closures :
  (∀ d σ, closures_bound σ → closures_bound (Tensor_leaf d σ).2)
  ∧ (∀ self other, binds_closures (Tensor_add self other))
  ∧ (∀ self other, binds_closures (Tensor_mul self other))
  ∧ (∀ self other, binds_closures (Tensor_matmul self other))
  ∧ (∀ self other axis, binds_closures (Tensor_stack self other axis))
  ∧ (∀ forward tag sub local self,
       binds_closures (Tensor_unary forward tag sub local self))
  ∧ (∀ self axis, binds_closures (Tensor_sum self axis))
  ∧ (∀ self, binds_closures (Tensor_T self))
  ∧ (∀ np_exp np_log self target,
       binds_closures (cross_entropy_loss np_exp np_log self target)).
Proof.
  split_and!.
  - intros d σ Hcb. apply closures_bound_snoc; [done|]. split; [done|constructor].
  - intros self other.
    by apply (binds_closures_binary np_add (Tag "+") (λ s o, [s; o]) BackAdd).
  - intros self other.
    by apply (binds_closures_binary np_multiply (Tag "*") (λ s o, [s; o]) BackMul).
  - intros self other.
    by apply (binds_closures_binary np_matmul (Tag "") (λ _ _, []) BackMatmul).
  - intros self other axis.
    by apply (binds_closures_binary (λ a b, np_stack a b axis) (Tag "stack")
                (λ s o, [s; o]) BackStack).
  - intros forward tag sub local self.
    apply (binds_closures_single forward (λ d, d) tag
             (λ _ out, BackLocal sub self out local)); [|done].
    by intros x out r [= <-].
  - intros self axis.
    apply (binds_closures_single (λ d, np_sum d axis false) (λ d, d) (Tag "sum")
             (λ _ out, BackSum self out)); [|done].
    by intros x out r [= <-].
  - intros self.
    apply (binds_closures_single (λ d, Ok (np_T d)) (λ d, d) (Tag "T")
             (λ _ out, BackT self out)); [|done].
    by intros x out r [= <-].
  - intros np_exp np_log self target σ out σ' H Hcb. unfold cross_entropy_loss in H.
    apply bind_Ok in H as (_ & _ & H).
    apply bind_Ok in H as (s & Hs%get_lt & H).
    repeat (apply bind_Ok in H as (? & _ & H)).
    unfold Tensor_init in H.
    eapply (closures_bound_alloc σ _ [self]); [done| |exact H].
    split; [done|]. by repeat constructor.
Qed.
